(** * GeeCache: the LRU-K eviction cache, its locked shard and the HTTP peer layer

    A shallow embedding of [geecache/lru] (the history-augmented cache
    and the plain LRU cache beside it), of the [cache] shard of package
    [geecache] and of the HTTP pool, its peers and its getter of the
    same package, followed by the properties of the specification that
    concern them and by what else the code shows call by call. *)

From stdpp Require Import base option list gmap strings.
From Stdlib Require Import ZArith Lia Ascii.

Local Open Scope Z_scope.

(** ** Machine integers

    Go's [int64] (and [int] on the 64-bit targets) as [Z] with the
    two's-complement wrap-around written out. *)

Definition wrap64 (z : Z) : Z := (z + 2 ^ 63) mod 2 ^ 64 - 2 ^ 63.
Definition add64 (a b : Z) : Z := wrap64 (a + b).
Definition sub64 (a b : Z) : Z := wrap64 (a - b).

(** [len(s)] of a Go string: its number of bytes. *)
Definition len (s : string) : Z := Z.of_nat (String.length s).

(** ** Outcomes of a call

    A Go call returns, panics (the state reached so far stays in memory
    and is seen again if the panic is recovered), or never returns.  The
    trace [ev] lists the calls made to the outside, oldest first. *)

Inductive Res (S E A : Type) : Type :=
| Ret (a : A) (s : S) (ev : list E)
| Panic (msg : string) (s : S) (ev : list E)
| Diverge.
Arguments Ret {S E A} a s ev.
Arguments Panic {S E A} msg s ev.
Arguments Diverge {S E A}.

Definition M (S E A : Type) : Type := S → Res S E A.

Definition ret {S E A} (a : A) : M S E A := λ s, Ret a s [].

Definition bind {S E A B} (m : M S E A) (f : A → M S E B) : M S E B :=
  λ s, match m s with
       | Ret a s1 ev1 =>
           match f a s1 with
           | Ret b s2 ev2 => Ret b s2 (ev1 ++ ev2)
           | Panic msg s2 ev2 => Panic msg s2 (ev1 ++ ev2)
           | Diverge => Diverge
           end
       | Panic msg s1 ev1 => Panic msg s1 ev1
       | Diverge => Diverge
       end.

Definition get_state {S E} : M S E S := λ s, Ret s s [].
Definition modify {S E} (f : S → S) : M S E unit := λ s, Ret tt (f s) [].
Definition emit {S E} (e : E) : M S E unit := λ s, Ret tt s [e].
Definition panic {S E A} (msg : string) : M S E A := λ s, Panic msg s [].
Definition diverge {S E A} : M S E A := λ _, Diverge.

Notation "'let*' x ':=' m 'in' f" := (bind m (λ x, f))
  (at level 10, x name, m at level 100, f at level 200, only parsing).
Notation "m ;;; f" := (bind m (λ _, f))
  (at level 100, right associativity, only parsing).

Definition nil_deref : string := "invalid memory address or nil pointer dereference".

(** The weakest precondition of a call for a property of the state it
    returns in, and the calls that return. *)

Definition wp {S E A} (m : M S E A) (s : S) (Q : A → S → list E → Prop) : Prop :=
  match m s with
  | Ret a s' ev => Q a s' ev
  | _ => True
  end.

Definition returns {S E A} (m : M S E A) (s : S) : Prop :=
  ∃ a s' ev, m s = Ret a s' ev.

(** ** container/list

    A [list.List] is the sequence of its elements, front first; an
    element is the address it was allocated at. *)

Abbreviation ptr := nat.

Module list_.
Definition PushFront (e : ptr) (l : list ptr) : list ptr := e :: l.
Definition PushBack (e : ptr) (l : list ptr) : list ptr := l ++ [e].
Definition Remove (e : ptr) (l : list ptr) : list ptr :=
  filter (λ q, q ≠ e) l.
(** [MoveToFront] and [MoveToBack] leave the list alone when the element
    is not one of its own. *)
Definition MoveToFront (e : ptr) (l : list ptr) : list ptr :=
  if decide (e ∈ l) then e :: Remove e l else l.
Definition MoveToBack (e : ptr) (l : list ptr) : list ptr :=
  if decide (e ∈ l) then Remove e l ++ [e] else l.
Definition Front (l : list ptr) : option ptr := head l.
Definition Back (l : list ptr) : option ptr := last l.
End list_.

(** ** Package lru: the history-augmented (LRU-K) cache *)

Module lru.

(** [Value] is the interface of cached values: [Len] counts the bytes a
    value takes.  An interface value is [option V], with [None] for the
    nil interface. *)
Class Value (V : Type) := Len : V → Z.

Section Cache.
Context {V : Type} `{!Value V}.

Record entry := Entry { key : string; value : option V }.

(** The fields [kv.key] and [kv.value], under names the parameters
    [key] and [value] of the methods do not hide. *)
Local Abbreviation key_of := key.
Local Abbreviation value_of := value.

Record HistoryCache := mkHistoryCache {
  k : Z;
  hmaxBytes : Z;
  huseBytes : Z;
  hll : list ptr;
  hmp : gmap string ptr;
  cnt : gmap string Z
}.

(** [OnEvicted] is the callback field: [true] when one is installed.  Its
    calls are the events of the trace.  [heap] holds the entries the
    list elements point to and [next] is the next free address. *)
Record Cache := mkCache {
  maxBytes : Z;
  useBytes : Z;
  ll : list ptr;
  mp : gmap string ptr;
  OnEvicted : bool;
  historyCache : HistoryCache;
  heap : gmap ptr entry;
  next : ptr
}.

(** One call of the eviction callback. *)
Definition Evicted : Type := string * option V.

Abbreviation op A := (M Cache Evicted A).

(** *** Field updates *)

Definition set_useBytes (f : Z → Z) (c : Cache) : Cache :=
  mkCache (maxBytes c) (f (useBytes c)) (ll c) (mp c) (OnEvicted c)
          (historyCache c) (heap c) (next c).
Definition set_ll (f : list ptr → list ptr) (c : Cache) : Cache :=
  mkCache (maxBytes c) (useBytes c) (f (ll c)) (mp c) (OnEvicted c)
          (historyCache c) (heap c) (next c).
Definition set_mp (f : gmap string ptr → gmap string ptr) (c : Cache) : Cache :=
  mkCache (maxBytes c) (useBytes c) (ll c) (f (mp c)) (OnEvicted c)
          (historyCache c) (heap c) (next c).
Definition set_heap (f : gmap ptr entry → gmap ptr entry) (c : Cache) : Cache :=
  mkCache (maxBytes c) (useBytes c) (ll c) (mp c) (OnEvicted c)
          (historyCache c) (f (heap c)) (next c).
Definition set_next (f : ptr → ptr) (c : Cache) : Cache :=
  mkCache (maxBytes c) (useBytes c) (ll c) (mp c) (OnEvicted c)
          (historyCache c) (heap c) (f (next c)).
Definition set_history (f : HistoryCache → HistoryCache) (c : Cache) : Cache :=
  mkCache (maxBytes c) (useBytes c) (ll c) (mp c) (OnEvicted c)
          (f (historyCache c)) (heap c) (next c).

Definition set_huseBytes (f : Z → Z) (h : HistoryCache) : HistoryCache :=
  mkHistoryCache (k h) (hmaxBytes h) (f (huseBytes h)) (hll h) (hmp h) (cnt h).
Definition set_hll (f : list ptr → list ptr) (h : HistoryCache) : HistoryCache :=
  mkHistoryCache (k h) (hmaxBytes h) (huseBytes h) (f (hll h)) (hmp h) (cnt h).
Definition set_hmp (f : gmap string ptr → gmap string ptr) (h : HistoryCache)
  : HistoryCache :=
  mkHistoryCache (k h) (hmaxBytes h) (huseBytes h) (hll h) (f (hmp h)) (cnt h).
Definition set_cnt (f : gmap string Z → gmap string Z) (h : HistoryCache)
  : HistoryCache :=
  mkHistoryCache (k h) (hmaxBytes h) (huseBytes h) (hll h) (hmp h) (f (cnt h)).

(** *** Primitive statements *)

(** [&entry{key, value}] wrapped in a fresh list element. *)
Definition new_element (key : string) (value : option V) : op ptr :=
  let* c := get_state in
  modify (set_heap <[next c := Entry key value]>) ;;;
  modify (set_next S) ;;;
  ret (next c).

(** A list element and the entry its [Value] points to are allocated
    together, so one address stands for both: [load] reads the fields of
    the entry behind an element. *)
Definition load (ele : ptr) : op entry :=
  let* c := get_state in
  match heap c !! ele with
  | Some kv => ret kv
  | None => panic nil_deref
  end.

(** [kv.value = value] through the pointer [ele]. *)
Definition store_value (ele : ptr) (value : option V) : op unit :=
  modify (set_heap (λ h, match h !! ele with
                         | Some kv => <[ele := Entry (key_of kv) value]> h
                         | None => h
                         end)).

(** [value.Len()] on an interface value: a nil interface panics. *)
Definition call_Len (value : option V) : op Z :=
  match value with
  | Some v => ret (Len v)
  | None => panic nil_deref
  end.

(** [m[key]] on the counter map: the zero value when absent. *)
Definition cnt_at (key : string) (h : HistoryCache) : Z :=
  default 0 (cnt h !! key).

(** [c.historyCache.cnt[key]++] *)
Definition cnt_incr (key : string) : op unit :=
  modify (set_history (λ h, set_cnt <[key := add64 (cnt_at key h) 1]> h)).

(** *** The constructor *)

Definition New (maxBytes : Z) (onEvicted : bool) (k : Z) : Cache :=
  {| maxBytes := maxBytes;
     useBytes := 0;
     ll := [];
     mp := ∅;
     OnEvicted := onEvicted;
     historyCache :=
       {| k := k; hmaxBytes := maxBytes; huseBytes := 0;
          hll := []; hmp := ∅; cnt := ∅ |};
     heap := ∅;
     next := 0%nat |}.

(** *** Eviction *)

Definition RemoveCacheOldest : op unit :=
  let* c := get_state in
  match list_.Back (ll c) with
  | Some ele =>
      modify (set_ll (list_.Remove ele)) ;;;
      let* kv := load ele in
      modify (set_mp (delete (key_of kv))) ;;;
      let* n := call_Len (value_of kv) in
      modify (set_useBytes (λ u, sub64 u (add64 n (len (key_of kv))))) ;;;
      let* c := get_state in
      if OnEvicted c then emit (key_of kv, value_of kv) else ret tt
  | None => ret tt
  end.

Definition RemoveHistoryCacheOldest : op unit :=
  let* c := get_state in
  match list_.Front (hll (historyCache c)) with
  | Some ele =>
      modify (set_history (set_hll (list_.Remove ele))) ;;;
      let* kv := load ele in
      modify (set_history (set_hmp (delete (key_of kv)))) ;;;
      modify (set_history (set_cnt (delete (key_of kv)))) ;;;
      let* n := call_Len (value_of kv) in
      modify (set_history
                (set_huseBytes (λ u, sub64 u (add64 n (len (key_of kv)))))) ;;;
      let* c := get_state in
      if OnEvicted c then emit (key_of kv, value_of kv) else ret tt
  | None => ret tt
  end.

Definition over_budget (c : Cache) : bool :=
  negb (maxBytes c =? 0) && (maxBytes c <? useBytes c).

(** The loop [for c.maxBytes != 0 && c.maxBytes < c.useBytes].  On an
    empty list the body changes nothing, so the condition stays true
    and the loop never exits.  Otherwise the body removes an element:
    with [fuel] the length of the list at entry the last case is never
    reached, and more fuel gives the same result. *)
Fixpoint evict_loop (fuel : nat) : op unit :=
  let* c := get_state in
  if over_budget c then
    match list_.Back (ll c), fuel with
    | None, _ => diverge
    | Some _, S fuel' => RemoveCacheOldest ;;; evict_loop fuel'
    | Some _, O => diverge
    end
  else ret tt.

Definition AddToCache (key : string) (value : option V) : op unit :=
  let* ele := new_element key value in
  modify (set_ll (list_.PushFront ele)) ;;;
  modify (set_mp <[key := ele]>) ;;;
  let* n := call_Len value in
  modify (set_useBytes (λ u, add64 u (add64 (len key) n))) ;;;
  let* c := get_state in
  evict_loop (length (ll c)).

(** *** Get *)

(** The named result [value] is still the nil interface when the
    promotion branch hands it to [AddToCache]. *)
Definition Get (key : string) : op (option V * bool) :=
  let* c := get_state in
  match mp c !! key with
  | Some ele =>
      modify (set_ll (list_.MoveToFront ele)) ;;;
      let* kv := load ele in
      ret (value_of kv, true)
  | None =>
      match hmp (historyCache c) !! key with
      | Some ele =>
          cnt_incr key ;;;
          let* c := get_state in
          if k (historyCache c) <=? cnt_at key (historyCache c) then
            AddToCache key None ;;;
            modify (set_history (set_hll (list_.Remove ele))) ;;;
            let* kv := load ele in
            let* n := call_Len (value_of kv) in
            modify (set_history
                      (set_huseBytes (λ u, sub64 u (add64 n (len (key_of kv)))))) ;;;
            modify (set_history (set_hmp (delete (key_of kv)))) ;;;
            modify (set_history (set_cnt (delete (key_of kv)))) ;;;
            ret (value_of kv, true)
          else
            modify (set_history (set_hll (list_.MoveToBack ele))) ;;;
            let* kv := load ele in
            ret (value_of kv, true)
      | None => ret (None, false)
      end
  end.

(** *** Add *)

(** The first statement of the branch of [Add] for a key that is not in
    the main index: the history queue takes the key, or its new value. *)
Definition Add_history (key : string) (value : option V) : op unit :=
  let* c := get_state in
  match hmp (historyCache c) !! key with
  | None =>
      let* ele := new_element key value in
      modify (set_history (set_hll (list_.PushBack ele))) ;;;
      cnt_incr key ;;;
      modify (set_history (set_hmp <[key := ele]>)) ;;;
      let* n := call_Len value in
      modify (set_history
                (set_huseBytes (λ u, add64 u (add64 (len key) n)))) ;;;
      let* c := get_state in
      if negb (hmaxBytes (historyCache c) =? 0)
         && (hmaxBytes (historyCache c) <? huseBytes (historyCache c))
      then RemoveHistoryCacheOldest
      else ret tt
  | Some ele =>
      cnt_incr key ;;;
      modify (set_history (set_hll (list_.MoveToBack ele))) ;;;
      let* kv := load ele in
      let* n := call_Len value in
      let* n0 := call_Len (value_of kv) in
      modify (set_history (set_huseBytes (λ u, add64 u (sub64 n n0)))) ;;;
      store_value ele value
  end.

(** The second statement of that branch: the key moves to the main queue
    once its counter has reached k. *)
Definition Add_promote (key : string) (value : option V) : op unit :=
  let* c := get_state in
  if k (historyCache c) <=? cnt_at key (historyCache c) then
    AddToCache key value ;;;
    let* c := get_state in
    match hmp (historyCache c) !! key with
    | Some ele =>
        let* kv := load ele in
        modify (set_history (set_hll (list_.Remove ele))) ;;;
        let* n := call_Len (value_of kv) in
        modify (set_history
                  (set_huseBytes
                     (λ u, sub64 u (add64 n (len (key_of kv)))))) ;;;
        modify (set_history (set_hmp (delete (key_of kv)))) ;;;
        modify (set_history (set_cnt (delete (key_of kv))))
    | None => panic nil_deref
    end
  else ret tt.

Definition Add (key : string) (value : option V) : op unit :=
  let* c := get_state in
  match mp c !! key with
  | Some ele =>
      modify (set_ll (list_.MoveToFront ele)) ;;;
      let* kv := load ele in
      let* n := call_Len value in
      let* n0 := call_Len (value_of kv) in
      modify (set_useBytes (λ u, add64 u (sub64 n n0))) ;;;
      store_value ele value
  | None => Add_history key value ;;; Add_promote key value
  end.

(** [Len]: the number of entries of the main queue. *)
Definition Cache_Len (c : Cache) : Z := Z.of_nat (length (ll c)).

(** *** Sequences of calls *)

Inductive call :=
| CallAdd (key : string) (value : option V)
| CallGet (key : string).

Definition do_call (cl : call) : op unit :=
  match cl with
  | CallAdd key value => Add key value
  | CallGet key => Get key ;;; ret tt
  end.

Fixpoint do_calls (cls : list call) : op unit :=
  match cls with
  | [] => ret tt
  | cl :: cls' => do_call cl ;;; do_calls cls'
  end.

(** The states a cache is in after a sequence of calls that all
    returned, starting from a new cache. *)
Definition reachable (c : Cache) : Prop :=
  ∃ maxBytes onEvicted k cls ev,
    do_calls cls (New maxBytes onEvicted k) = Ret tt c ev.

(** *** Observations *)

(** The keys of the entries a queue holds, front first. *)
Definition keys_of (h : gmap ptr entry) (l : list ptr) : list string :=
  omap (λ p, key <$> h !! p) l.
Definition main_keys (c : Cache) : list string := keys_of (heap c) (ll c).
Definition history_keys (c : Cache) : list string :=
  keys_of (heap c) (hll (historyCache c)).

(** The value stored under a key of the main queue. *)
Definition main_value (c : Cache) (key : string) : option (option V) :=
  p ← mp c !! key; value <$> heap c !! p.

(** The bytes an entry counts for, and their sum over a queue. *)
Definition entry_bytes (e : entry) : Z :=
  len (key e) + from_option Len 0 (value e).
Definition queue_bytes (h : gmap ptr entry) (l : list ptr) : Z :=
  foldr (λ p acc, from_option entry_bytes 0 (h !! p) + acc) 0 l.

(** *** Well-formedness of a queue

    A list, its index and the entries behind its elements agree: no
    element twice, the index sends each key to an element of the list
    holding that key, and each element of the list is indexed under the
    key of its entry, whose value is not nil. *)
Definition queue_wf (l : list ptr) (m : gmap string ptr) (h : gmap ptr entry)
  : Prop :=
  NoDup l ∧
  (∀ key p, m !! key = Some p →
            p ∈ l ∧ ∃ e, h !! p = Some e ∧ key_of e = key) ∧
  (∀ p, p ∈ l →
        ∃ e, h !! p = Some e ∧ m !! key_of e = Some p ∧ is_Some (value_of e)).

(** *** The invariant of the cache

    Both queues are well formed, the two byte counters are the sums over
    the entries of their queues (as [int64]), the hit counters are those
    of the keys of the history queue, no key is in both indexes, and the
    addresses in use are below the next free one. *)
Record inv (c : Cache) : Prop := mkInv {
  inv_main : queue_wf (ll c) (mp c) (heap c);
  inv_hist : queue_wf (hll (historyCache c)) (hmp (historyCache c)) (heap c);
  inv_main_bytes : useBytes c = wrap64 (queue_bytes (heap c) (ll c));
  inv_hist_bytes :
    huseBytes (historyCache c)
    = wrap64 (queue_bytes (heap c) (hll (historyCache c)));
  inv_cnt : dom (cnt (historyCache c)) = dom (hmp (historyCache c));
  inv_disj : dom (mp c) ## dom (hmp (historyCache c));
  inv_fresh : ∀ p, p ∈ ll c ∨ p ∈ hll (historyCache c) → (p < next c)%nat
}.

(** The main queue alone: well formed, with its bytes counted. *)
Definition main_ok (c : Cache) : Prop :=
  queue_wf (ll c) (mp c) (heap c)
  ∧ useBytes c = wrap64 (queue_bytes (heap c) (ll c)).

(** What an eviction from the main queue leaves alone. *)
Definition main_shrinks (c c' : Cache) : Prop :=
  maxBytes c' = maxBytes c
  ∧ historyCache c' = historyCache c ∧ heap c' = heap c ∧ next c' = next c
  ∧ dom (mp c') ⊆ dom (mp c) ∧ (∀ p, p ∈ ll c' → p ∈ ll c).

(** *** More observations *)

(** The value stored under a key of the history queue, and under a key of
    either queue. *)
Definition history_value (c : Cache) (key : string) : option (option V) :=
  p ← hmp (historyCache c) !! key; value <$> heap c !! p.
Definition stored_value (c : Cache) (key : string) : option (option V) :=
  match main_value c key with
  | Some v => Some v
  | None => history_value c key
  end.

(** The fields set by [New] and never assigned again. *)
Definition same_config (c c' : Cache) : Prop :=
  maxBytes c' = maxBytes c ∧ OnEvicted c' = OnEvicted c
  ∧ k (historyCache c') = k (historyCache c)
  ∧ hmaxBytes (historyCache c') = hmaxBytes (historyCache c).

(** The fields of the main queue. *)
Definition same_main (c c' : Cache) : Prop :=
  ll c' = ll c ∧ mp c' = mp c ∧ useBytes c' = useBytes c.

(** The cache holds an entry: an element of one of its two lists points
    to it. *)
Definition holds (c : Cache) (e : entry) : Prop :=
  ∃ p, (p ∈ ll c ∨ p ∈ hll (historyCache c)) ∧ heap c !! p = Some e.

(** Every entry held under another key is still held. *)
Definition keeps_others (key : string) (c c' : Cache) : Prop :=
  ∀ e, key_of e ≠ key → holds c e → holds c' e.

End Cache.

Arguments entry V : clear implicits.
Arguments Cache V : clear implicits.
Arguments Evicted V : clear implicits.
Arguments call V : clear implicits.

End lru.

(** ** Package lru, the tests: strings as values *)

Module lru_test.
Definition String : Type := string.
#[export] Instance String_Value : lru.Value String := len.

Definition Adds (kvs : list (string * String)) : list (lru.call String) :=
  (λ kv, lru.CallAdd kv.1 (Some kv.2)) <$> kvs.

(** A run with k = 2 that ends with "x" in the main queue and "y" and
    "z" in the history queue. *)
Definition demo_calls : list (lru.call String) :=
  [lru.CallAdd "x" (Some "v"); lru.CallAdd "y" (Some "w");
   lru.CallAdd "x" (Some "v2"); lru.CallGet "x"; lru.CallAdd "z" (Some "u")].
Definition demo_state : lru.Cache String :=
  match lru.do_calls demo_calls (lru.New 0 false 2) with
  | Ret _ s _ => s
  | _ => lru.New 0 false 2
  end.
(** The calls of [TestRemoveOldest] and the cache they leave. *)
Definition TestRemoveOldest_calls : list (lru.call String) :=
  Adds [("key1", "value1"); ("key2", "value2"); ("key3", "value3")].
Definition TestRemoveOldest_state : lru.Cache String :=
  match lru.do_calls TestRemoveOldest_calls
                     (lru.New (len ("key1" +:+ "value1" +:+ "key2" +:+ "value2"))
                              false 1) with
  | Ret _ s _ => s
  | _ => lru.New 0 false 1
  end.
End lru_test.

(** ** Package lru: the plain LRU cache

    The cache of the same package without the history queue: one list,
    one index, one byte counter.  Its entries are those of the LRU-K
    cache. *)

Module lru_plain.
Section Cache.
Context {V : Type} `{!lru.Value V}.

Record Cache := mkCache {
  maxBytes : Z;
  nbyBytes : Z;
  ll : list ptr;
  cache : gmap string ptr;
  OnEvicted : bool;
  heap : gmap ptr (lru.entry V);
  next : ptr
}.

Abbreviation op A := (M Cache (lru.Evicted V) A).

Definition set_nbyBytes (f : Z → Z) (c : Cache) : Cache :=
  mkCache (maxBytes c) (f (nbyBytes c)) (ll c) (cache c) (OnEvicted c)
          (heap c) (next c).
Definition set_ll (f : list ptr → list ptr) (c : Cache) : Cache :=
  mkCache (maxBytes c) (nbyBytes c) (f (ll c)) (cache c) (OnEvicted c)
          (heap c) (next c).
Definition set_cache (f : gmap string ptr → gmap string ptr) (c : Cache) : Cache :=
  mkCache (maxBytes c) (nbyBytes c) (ll c) (f (cache c)) (OnEvicted c)
          (heap c) (next c).
Definition set_heap (f : gmap ptr (lru.entry V) → gmap ptr (lru.entry V))
           (c : Cache) : Cache :=
  mkCache (maxBytes c) (nbyBytes c) (ll c) (cache c) (OnEvicted c)
          (f (heap c)) (next c).
Definition set_next (f : ptr → ptr) (c : Cache) : Cache :=
  mkCache (maxBytes c) (nbyBytes c) (ll c) (cache c) (OnEvicted c)
          (heap c) (f (next c)).

(** [&entry{key, value}] wrapped in a fresh list element. *)
Definition new_element (key : string) (value : option V) : op ptr :=
  let* c := get_state in
  modify (set_heap <[next c := lru.Entry key value]>) ;;;
  modify (set_next S) ;;;
  ret (next c).

Definition load (ele : ptr) : op (lru.entry V) :=
  let* c := get_state in
  match heap c !! ele with
  | Some kv => ret kv
  | None => panic nil_deref
  end.

(** [kv.value = value] through the pointer [ele]. *)
Definition store_value (ele : ptr) (value : option V) : op unit :=
  modify (set_heap (λ h, match h !! ele with
                         | Some kv => <[ele := lru.Entry (lru.key kv) value]> h
                         | None => h
                         end)).

(** [value.Len()] on an interface value: a nil interface panics. *)
Definition call_Len (value : option V) : op Z :=
  match value with
  | Some v => ret (lru.Len v)
  | None => panic nil_deref
  end.

Definition New (maxBytes : Z) (onEvicted : bool) : Cache :=
  {| maxBytes := maxBytes; nbyBytes := 0; ll := []; cache := ∅;
     OnEvicted := onEvicted; heap := ∅; next := 0%nat |}.

Definition Get (key : string) : op (option V * bool) :=
  let* c := get_state in
  match cache c !! key with
  | Some ele =>
      modify (set_ll (list_.MoveToFront ele)) ;;;
      let* kv := load ele in
      ret (lru.value kv, true)
  | None => ret (None, false)
  end.

Definition RemoveOldest : op unit :=
  let* c := get_state in
  match list_.Back (ll c) with
  | Some ele =>
      modify (set_ll (list_.Remove ele)) ;;;
      let* kv := load ele in
      modify (set_cache (delete (lru.key kv))) ;;;
      let* n := call_Len (lru.value kv) in
      modify (set_nbyBytes (λ u, sub64 u (add64 n (len (lru.key kv))))) ;;;
      let* c := get_state in
      if OnEvicted c then emit (lru.key kv, lru.value kv) else ret tt
  | None => ret tt
  end.

Definition over_budget (c : Cache) : bool :=
  negb (maxBytes c =? 0) && (maxBytes c <? nbyBytes c).

(** The loop [for c.maxBytes != 0 && c.maxBytes < c.nbyBytes] of [Add].
    On an empty list [RemoveOldest] changes nothing, so the condition
    stays true and the loop never exits.  Otherwise the body removes an
    element: with [fuel] the length of the list at entry the last case
    is never reached, and more fuel gives the same result. *)
Fixpoint evict_loop (fuel : nat) : op unit :=
  let* c := get_state in
  if over_budget c then
    match list_.Back (ll c), fuel with
    | None, _ => diverge
    | Some _, S fuel' => RemoveOldest ;;; evict_loop fuel'
    | Some _, O => diverge
    end
  else ret tt.

Definition Add (key : string) (value : option V) : op unit :=
  let* c := get_state in
  match cache c !! key with
  | Some ele =>
      modify (set_ll (list_.MoveToFront ele)) ;;;
      let* kv := load ele in
      let* n := call_Len value in
      let* n0 := call_Len (lru.value kv) in
      modify (set_nbyBytes (λ u, add64 u (sub64 n n0))) ;;;
      store_value ele value
  | None =>
      let* ele := new_element key value in
      modify (set_ll (list_.PushFront ele)) ;;;
      modify (set_cache <[key := ele]>) ;;;
      let* n := call_Len value in
      modify (set_nbyBytes (λ u, add64 u (add64 (len key) n)))
  end ;;;
  let* c := get_state in
  evict_loop (length (ll c)).

(** [Len]: the number of entries. *)
Definition Cache_Len (c : Cache) : Z := Z.of_nat (length (ll c)).

(** *** Sequences of calls *)

Inductive call :=
| CallAdd (key : string) (value : option V)
| CallGet (key : string).

Definition do_call (cl : call) : op unit :=
  match cl with
  | CallAdd key value => Add key value
  | CallGet key => Get key ;;; ret tt
  end.

Fixpoint do_calls (cls : list call) : op unit :=
  match cls with
  | [] => ret tt
  | cl :: cls' => do_call cl ;;; do_calls cls'
  end.

(** The states a cache is in after a sequence of calls that all
    returned, starting from a new cache. *)
Definition reachable (c : Cache) : Prop :=
  ∃ maxBytes onEvicted cls ev,
    do_calls cls (New maxBytes onEvicted) = Ret tt c ev.

(** *** Observations and the invariant *)

Definition keys (c : Cache) : list string := lru.keys_of (heap c) (ll c).

Definition stored_value (c : Cache) (key : string) : option (option V) :=
  p ← cache c !! key; lru.value <$> heap c !! p.

(** The list, the index and the entries agree, the byte counter is the
    sum over the entries (as [int64]), and the addresses in use are
    below the next free one. *)
Definition inv (c : Cache) : Prop :=
  lru.queue_wf (ll c) (cache c) (heap c)
  ∧ nbyBytes c = wrap64 (lru.queue_bytes (heap c) (ll c))
  ∧ ∀ p, p ∈ ll c → (p < next c)%nat.

(** What an eviction leaves alone. *)
Definition shrinks (c c' : Cache) : Prop :=
  maxBytes c' = maxBytes c ∧ OnEvicted c' = OnEvicted c
  ∧ heap c' = heap c ∧ next c' = next c
  ∧ dom (cache c') ⊆ dom (cache c) ∧ (∀ p, p ∈ ll c' → p ∈ ll c).

(** The element at the front holds the key with the value. *)
Definition front_is (c : Cache) (ele : ptr) (key : string) (v : V) : Prop :=
  head (ll c) = Some ele
  ∧ heap c !! ele = Some (lru.Entry key (Some v))
  ∧ cache c !! key = Some ele.

End Cache.

Arguments Cache V : clear implicits.
Arguments call V : clear implicits.

End lru_plain.

Module lru_plain_test.
Import lru_test.
(** A run on a cache with a budget of 10 bytes and a callback: the
    first two of four entries are evicted. *)
Definition plain_demo_state : lru_plain.Cache String :=
  match lru_plain.do_calls
          ((λ kv, lru_plain.CallAdd kv.1 (Some kv.2))
             <$> [("key1", "123456"); ("k2", "k2"); ("k3", "k3"); ("k4", "k4")])
          (lru_plain.New 10 true) with
  | Ret _ s _ => s
  | _ => lru_plain.New 10 true
  end.
End lru_plain_test.

(** ** Package geecache *)

Module geecache.

(** *** byteview.go *)

Record ByteView := mkByteView { b : list Byte.byte }.

Definition ByteView_zero : ByteView := mkByteView [].

#[export] Instance ByteView_Value : lru.Value ByteView :=
  λ v, Z.of_nat (length (b v)).

Definition cloneBytes (b : list Byte.byte) : list Byte.byte := b.
Definition ByteSlice (v : ByteView) : list Byte.byte := cloneBytes (b v).
Definition ByteView_String (v : ByteView) : string := String.string_of_list_byte (b v).

(** *** cache.go: the shard

    The mutex is taken at entry and released at exit of both methods; the
    calls are modelled one at a time.  [lru] is [None] for the nil
    pointer. *)

Record cache := mkcache {
  lru : option (lru.Cache ByteView);
  cacheBytes : Z
}.

Abbreviation shard_op A := (M cache (lru.Evicted ByteView) A).

(** A method call on [c.lru]. *)
Definition on_lru {A} (m : M (lru.Cache ByteView) (lru.Evicted ByteView) A)
  : shard_op A :=
  λ s, match lru s with
       | None => Panic nil_deref s []
       | Some c =>
           match m c with
           | Ret a c' ev => Ret a (mkcache (Some c') (cacheBytes s)) ev
           | Panic msg c' ev => Panic msg (mkcache (Some c') (cacheBytes s)) ev
           | Diverge => Diverge
           end
       end.

Definition add (key : string) (value : ByteView) : shard_op unit :=
  let* c := get_state in
  (if lru c is None
   then modify (λ c, mkcache (Some (lru.New (cacheBytes c) false 1)) (cacheBytes c))
   else ret tt) ;;;
  on_lru (lru.Add key (Some value)).

Definition get (key : string) : shard_op (ByteView * bool) :=
  let* c := get_state in
  match lru c with
  | None => ret (ByteView_zero, false)
  | Some _ =>
      let* r := on_lru (lru.Get key) in
      if r.2 then
        match r.1 with
        | Some v => ret (v, true)
        | None => panic "interface conversion: interface is nil, not geecache.ByteView"
        end
      else ret (ByteView_zero, false)
  end.

(** *** Sequences of calls on a shard *)

(** Sequences of calls on a shard, from the zero value of its fields
    but for the capacity. *)
Inductive shard_call :=
| CallShardAdd (key : string) (value : ByteView)
| CallShardGet (key : string).

Definition shard_do_call (cl : shard_call) : shard_op unit :=
  match cl with
  | CallShardAdd key value => add key value
  | CallShardGet key => get key ;;; ret tt
  end.

Fixpoint shard_do_calls (cls : list shard_call) : shard_op unit :=
  match cls with
  | [] => ret tt
  | cl :: cls' => shard_do_call cl ;;; shard_do_calls cls'
  end.

Definition shard_reachable (sh : cache) : Prop :=
  ∃ cacheBytes cls ev,
    shard_do_calls cls (mkcache None cacheBytes) = Ret tt sh ev.

(** The cache a shard works on: the one it has built, or the one [add]
    would build. *)
Definition shard_cache (sh : cache) : lru.Cache ByteView :=
  default (lru.New (cacheBytes sh) false 1) (lru sh).

(** What holds of the cache of a shard after any calls. *)
Definition shard_inv (sh : cache) : Prop :=
  lru.reachable (shard_cache sh)
  ∧ lru.maxBytes (shard_cache sh) = cacheBytes sh
  ∧ lru.k (lru.historyCache (shard_cache sh)) = 1
  ∧ lru.OnEvicted (shard_cache sh) = false.

(** A shard that has served one [add]. *)
Definition demo_shard : cache :=
  match add "Tom" (mkByteView [Byte.x36; Byte.x33; Byte.x30]) (mkcache None 0) with
  | Ret _ s _ => s
  | _ => mkcache None 0
  end.

(** *** Library functions used by http.go *)

(** [s[n:]] *)
Fixpoint string_from (n : nat) (s : string) : string :=
  match n, s with
  | O, _ => s
  | S n', String _ s' => string_from n' s'
  | S _, EmptyString => EmptyString
  end.

(** [strings.HasPrefix] *)
Definition HasPrefix (s prefix : string) : bool := String.prefix prefix s.

(** [strings.SplitN] for a separator that is not empty: at most [n]
    pieces, the last one the unsplit rest; no piece when [n] is 0, every
    piece when [n] is negative. *)
Fixpoint split_upto (splits : nat) (s sep : string) : list string :=
  match splits with
  | O => [s]
  | S j =>
      match String.index 0 sep s with
      | Some m =>
          String.substring 0 m s
            :: split_upto j (string_from (m + String.length sep) s) sep
      | None => [s]
      end
  end.

Definition SplitN (s sep : string) (n : Z) : list string :=
  if n =? 0 then []
  else if n <? 0 then split_upto (String.length s) s sep
  else split_upto (Z.to_nat (n - 1)) s sep.

(** [url.QueryEscape]: letters, digits and [-_.~] stay, a space becomes
    [+], every other byte becomes [%XX] in upper-case hexadecimal. *)
Definition shouldEscape (c : Ascii.ascii) : bool :=
  let n := Ascii.N_of_ascii c in
  negb (((97 <=? n) && (n <=? 122) || (65 <=? n) && (n <=? 90)
         || (48 <=? n) && (n <=? 57))%N
        || (n =? 45)%N || (n =? 95)%N || (n =? 46)%N || (n =? 126)%N).

Definition upperhex (d : N) : Ascii.ascii :=
  default Ascii.zero (String.get (N.to_nat d) "0123456789ABCDEF").

Fixpoint QueryEscape (s : string) : string :=
  match s with
  | EmptyString => EmptyString
  | String c s' =>
      if shouldEscape c then
        if Ascii.eqb c " "%char then String "+"%char (QueryEscape s')
        else
          let n := Ascii.N_of_ascii c in
          String "%"%char (String (upperhex (n / 16)) (String (upperhex (n mod 16))
                                                         (QueryEscape s')))
      else String c (QueryEscape s')
  end.

(** *** http.go *)

Definition defaultBasePath : string := "/_geecache/".
Definition defaultReplicas : Z := 50.

Record httpGetter := mkhttpGetter { baseURL : string }.

(** The hash ring [peers] belongs to package consistenthash and is left
    out of the record. *)
Record HTTPPool := mkHTTPPool {
  self : string;
  basePath : string;
  httpGetters : gmap string httpGetter
}.

Definition NewHTTPPool (self : string) : HTTPPool :=
  mkHTTPPool self defaultBasePath ∅.

Record Request := mkRequest { Method : string; URL_Path : string }.

(** What a handler does to the outside: a log line, [http.Error], a
    header set on the response, a body written to it. *)
Inductive http_event :=
| log_Printf (line : string)
| http_Error (error : string) (code : Z)
| Header_Set (name val : string)
| Write (body : list Byte.byte).

Definition StatusOK : Z := 200.
Definition StatusBadRequest : Z := 400.
Definition StatusNotFound : Z := 404.
Definition StatusInternalServerError : Z := 500.

Definition Log (p : HTTPPool) (msg : string) : M unit http_event unit :=
  emit (log_Printf ("[Sever " +:+ self p +:+ "] " +:+ msg)).

(** What [http.Get] comes back with: an error, or a response with its
    status and a body that reads to the end or fails. *)
Inductive http_response :=
| get_failed (err : string)
| get_response (StatusCode : Z) (Status : string) (Body : list Byte.byte + string).

Section Server.
(** The group registry and the groups are in geecache.go: [GetGroup]
    finds a group by name, a group's [Get] gives a view and an error. *)
Context {Group : Type}.
Variable GetGroup : string → option Group.
Variable Group_Get : Group → string → ByteView * option string.

Definition ServeHTTP (p : HTTPPool) (r : Request) : M unit http_event unit :=
  if negb (HasPrefix (URL_Path r) (basePath p)) then
    panic ("HTTPPool seving unexcepted path: " +:+ URL_Path r)
  else
    Log p (Method r +:+ " " +:+ URL_Path r) ;;;
    let parts :=
      SplitN (string_from (String.length (basePath p)) (URL_Path r)) "/" 2 in
    match parts with
    | [groupName; key] =>
        match GetGroup groupName with
        | None => emit (http_Error ("no such group" +:+ groupName) StatusNotFound)
        | Some group =>
            let '(view, err) := Group_Get group key in
            (if err is Some e
             then emit (http_Error e StatusInternalServerError)
             else ret tt) ;;;
            emit (Header_Set "Content-Type" "application/octet-stream") ;;;
            emit (Write (ByteSlice view))
        end
    | _ => emit (http_Error "bad request" StatusBadRequest)
    end.
End Server.

Section Client.
(** The network: what [http.Get] answers for a URL. *)
Variable http_Get : string → http_response.

(** The method [Get] of [httpGetter]; the trace holds the URLs asked
    for, the result is the body or an error. *)
Definition httpGetter_Get (h : httpGetter) (group key : string)
  : M unit string (list Byte.byte + string) :=
  let u := baseURL h +:+ QueryEscape group +:+ QueryEscape key in
  emit u ;;;
  match http_Get u with
  | get_failed err => ret (inr err)
  | get_response StatusCode Status Body =>
      if negb (StatusCode =? StatusOK) then
        ret (inr ("server returned: " +:+ Status))
      else
        match Body with
        | inl bytes => ret (inl bytes)
        | inr err => ret (inr ("reading response body:" +:+ err))
        end
  end.
End Client.

(** *** http.go: the peers of a pool *)

Section Peers.
(** The hash ring is in package consistenthash: [consistenthash_New]
    builds one, [Map_Add] puts peers on it, [Map_Get] picks the peer of
    a key, on a ring that may be the nil pointer, and gives the peer or
    the message it panics with. *)
Context {Map : Type}.
Variable consistenthash_New : Z → Map.
Variable Map_Add : Map → list string → Map.
Variable Map_Get : option Map → string → string + string.

(** A pool with its ring; [peers] is [None] for the nil pointer. *)
Record pool := mkpool { fields : HTTPPool; peers : option Map }.

(** The field [p.peers], under a name the parameter of [Set] does not
    hide. *)
Local Abbreviation peers_of := peers.

(** The loop [for _, peer := range peers] of [Set]. *)
Fixpoint Set_range (peers : list string) : M pool http_event unit :=
  match peers with
  | [] => ret tt
  | peer :: rest =>
      modify (λ p, mkpool
                (mkHTTPPool (self (fields p)) (basePath (fields p))
                   (<[peer := mkhttpGetter (peer +:+ basePath (fields p))]>
                      (httpGetters (fields p))))
                (peers_of p)) ;;;
      Set_range rest
  end.

Definition HTTPPool_Set (peers : list string) : M pool http_event unit :=
  modify (λ p, mkpool (fields p)
                 (Some (Map_Add (consistenthash_New defaultReplicas) peers))) ;;;
  modify (λ p, mkpool (mkHTTPPool (self (fields p)) (basePath (fields p)) ∅)
                 (peers_of p)) ;;;
  Set_range peers.

(** The result is an interface value: [None] for the nil interface,
    [Some None] for one that holds the nil pointer a missing map entry
    reads as. *)
Definition PickPeer (key : string)
  : M pool http_event (option (option httpGetter) * bool) :=
  let* p := get_state in
  match Map_Get (peers p) key with
  | inr msg => panic msg
  | inl peer =>
      if bool_decide (peer ≠ EmptyString ∧ peer ≠ self (fields p)) then
        emit (log_Printf ("[Sever " +:+ self (fields p) +:+ "] "
                          +:+ "Pick peer " +:+ peer)) ;;;
        ret (Some (httpGetters (fields p) !! peer), true)
      else ret (None, false)
  end.
End Peers.

(** *** What the specification asks of the two ends of the protocol *)

(** A handler run answers with a client error: it returns and has sent an
    error of the 4xx class. *)
Definition client_error (r : Res unit http_event unit) : Prop :=
  match r with
  | Ret _ _ ev => ∃ msg code, http_Error msg code ∈ ev ∧ 400 ≤ code < 500
  | _ => False
  end.

(** The request URL with a separator between the two segments. *)
Definition separated_URL (h : httpGetter) (group key : string) : string :=
  baseURL h +:+ QueryEscape group +:+ "/" +:+ QueryEscape key.

(** *** Observations on strings *)

(** A byte occurs in a string. *)
Fixpoint contains_byte (b : ascii) (s : string) : bool :=
  match s with
  | EmptyString => false
  | String c s' => Ascii.eqb c b || contains_byte b s'
  end.

(** What [QueryEscape] writes for one byte. *)
Definition escape_byte (c : ascii) : string := QueryEscape (String c EmptyString).

(** A string of bytes that need no escaping: letters, digits and
    [-_.~]. *)
Fixpoint unreserved (s : string) : bool :=
  match s with
  | EmptyString => true
  | String c s' => negb (shouldEscape c) && unreserved s'
  end.

End geecache.

(** * Properties *)

(** ** The calculus of returning calls *)

Section wp_rules.
Context {S E : Type}.
Implicit Types s : S.

Lemma wp_elim {A} (m : M S E A) s Q a s' ev :
  wp m s Q → m s = Ret a s' ev → Q a s' ev.
Proof. unfold wp. intros H Hm. by rewrite Hm in H. Qed.

Lemma wp_mono {A} (m : M S E A) s (Q Q' : A → S → list E → Prop) :
  wp m s Q → (∀ a s' ev, Q a s' ev → Q' a s' ev) → wp m s Q'.
Proof. unfold wp. destruct (m s); auto. Qed.

Lemma wp_ret {A} (a : A) s (Q : A → S → list E → Prop) :
  Q a s [] → wp (ret a) s Q.
Proof. done. Qed.

Lemma wp_panic {A} msg s (Q : A → S → list E → Prop) : wp (panic msg) s Q.
Proof. done. Qed.

Lemma wp_diverge {A} s (Q : A → S → list E → Prop) : wp diverge s Q.
Proof. done. Qed.

Lemma wp_modify f s (Q : unit → S → list E → Prop) :
  Q tt (f s) [] → wp (modify f) s Q.
Proof. done. Qed.

Lemma wp_emit e s (Q : unit → S → list E → Prop) :
  Q tt s [e] → wp (emit e) s Q.
Proof. done. Qed.

Lemma wp_bind {A B} (m : M S E A) (f : A → M S E B) s Q :
  wp m s (λ a s1 ev1, wp (f a) s1 (λ b s2 ev2, Q b s2 (ev1 ++ ev2))) →
  wp (bind m f) s Q.
Proof.
  unfold wp, bind. destruct (m s) as [a s1 ev1| |]; auto.
  destruct (f a s1); auto.
Qed.

Lemma wp_get_state s (Q : S → S → list E → Prop) :
  Q s s [] → wp get_state s Q.
Proof. done. Qed.

Lemma bind_get_state {A} (f : S → M S E A) s : bind get_state f s = f s s.
Proof. unfold bind, get_state. by destruct (f s s). Qed.

Lemma bind_modify {A} (g : S → S) (f : unit → M S E A) s :
  bind (modify g) f s = f tt (g s).
Proof. unfold bind, modify. by destruct (f tt (g s)). Qed.
Lemma returns_bind {A B} (m : M S E A) (f : A → M S E B) s
      (P : A → S → list E → Prop) :
  returns m s → wp m s P →
  (∀ a s1 ev1, m s = Ret a s1 ev1 → P a s1 ev1 → returns (f a) s1) →
  returns (bind m f) s.
Proof.
  intros (a & s1 & ev1 & Hm) HP Hf. unfold returns, bind. rewrite Hm.
  destruct (Hf a s1 ev1 Hm (wp_elim _ _ _ _ _ _ HP Hm)) as (b & s2 & ev2 & Hfa).
  rewrite Hfa. by exists b, s2, (ev1 ++ ev2).
Qed.

Lemma returns_ret {A} (a : A) s : returns (E:=E) (ret a) s.
Proof. by exists a, s, []. Qed.

Lemma returns_modify f s : returns (E:=E) (modify f) s.
Proof. by exists tt, (f s), []. Qed.

Lemma returns_emit (e : E) s : returns (emit e) s.
Proof. by exists tt, s, [e]. Qed.

Lemma returns_get_state {A} (f : S → M S E A) s :
  returns (f s) s → returns (bind get_state f) s.
Proof. unfold returns. by rewrite bind_get_state. Qed.

Lemma returns_bind_modify {A} (g : S → S) (f : unit → M S E A) s :
  returns (f tt) (g s) → returns (bind (modify g) f) s.
Proof. unfold returns. by rewrite bind_modify. Qed.
End wp_rules.

(** ** The round trip and the callback scenario of the tests *)

Section scenarios.
Import lru lru_test.

(** C7. On a new cache with k = 1 and a budget of 0 (no limit),
    [Add("key1","123")] returns, the [Get("key1")] that follows returns
    [("123", true)], and [Get("key2")] on the same cache returns with
    found = false. *)
Theorem TestGet_round_trip (onEvicted : bool) :
  ∃ c1 c2 c3 v,
    Add "key1" (Some "123" : option String) (New 0 onEvicted 1) = Ret tt c1 []
    ∧ Get "key1" c1 = Ret (Some "123", true) c2 []
    ∧ Get "key2" c2 = Ret (v, false) c3 [].
Proof.
  destruct onEvicted; do 4 eexists.
  all: split; [vm_compute; reflexivity|].
  all: split; [vm_compute; reflexivity | vm_compute; reflexivity].
Qed.

(** C5. With maxBytes = 10, k = 1 and a callback installed, adding
    "key1"->"123456", "k2"->"k2", "k3"->"k3", "k4"->"k4" in that order
    returns and calls the callback exactly twice: first with "key1",
    then with "k2". *)
Theorem TestOnEvicted_callback_order :
  ∃ c,
    do_calls (Adds [("key1", "123456"); ("k2", "k2"); ("k3", "k3"); ("k4", "k4")])
             (New 10 true 1)
    = Ret tt c [("key1", Some "123456"); ("k2", Some "k2")].
Proof. eexists. vm_compute. reflexivity. Qed.

End scenarios.

(** ** Where the code leaves the specification *)

Section budget.
Import lru lru_test.

(** C1, evaluated.  With maxBytes = 10 and k = 1, [Add("a","1")] then
    [Add("a","1234567890123")] returns with 14 bytes used by the main
    queue: the branch of [Add] for a key of the main queue changes the
    usage and runs no eviction.  With maxBytes = 10 and k = 2, adding
    "a"->"1", "b"->"1", "c"->"123456789" returns with 12 bytes used by
    the history queue: the history branch evicts one entry at most. *)
Theorem Add_leaves_budget_exceeded :
  (∃ c, do_calls (Adds [("a", "1"); ("a", "1234567890123")]) (New 10 false 1)
        = Ret tt c []
        ∧ maxBytes c = 10 ∧ useBytes c = 14)
  ∧ (∃ c, do_calls (Adds [("a", "1"); ("b", "1"); ("c", "123456789")])
                   (New 10 true 2)
          = Ret tt c [("a", Some "1")]
          ∧ hmaxBytes (historyCache c) = 10
          ∧ huseBytes (historyCache c) = 12).
Proof.
  split; eexists.
  all: split; [vm_compute; reflexivity|].
  all: split; [vm_compute; reflexivity | vm_compute; reflexivity].
Qed.

(** C2, evaluated.  With k = 2 and no limit, [Add("x","v")] returns and
    the [Get("x")] that follows panics on the nil interface inside
    [AddToCache]; at that point the main queue holds "x" with a nil
    value and the history queue still holds "x". *)
Theorem Get_promotion_panics :
  ∃ c s,
    Add "x" (Some "v" : option String) (New 0 false 2) = Ret tt c []
    ∧ Get "x" c = Panic nil_deref s []
    ∧ main_value s "x" = Some None
    ∧ history_keys s = ["x"].
Proof.
  do 2 eexists.
  split; [vm_compute; reflexivity|].
  split; [vm_compute; reflexivity|].
  split; [vm_compute; reflexivity | vm_compute; reflexivity].
Qed.

(** C6, evaluated.  With k = 2 and no limit, [Add("x","v")] returns and
    the [Get("x")] that follows panics in its promotion branch after it
    has put "x" into the main list and the main index and before it
    takes "x" out of the history queue: the state it leaves holds "x"
    in both queues, in the lists and in the indexes.  The cache stays in
    use when the panic is recovered: the next [Get("x")] returns, with
    the nil value of the main queue, and "x" is still in both queues
    when it has completed. *)
Theorem Get_promotion_leaves_key_in_both :
  ∃ c s,
    Add "x" (Some "v" : option String) (New 0 false 2) = Ret tt c []
    ∧ Get "x" c = Panic nil_deref s []
    ∧ main_keys s = ["x"] ∧ history_keys s = ["x"]
    ∧ mp s !! "x" = Some 1%nat ∧ hmp (historyCache s) !! "x" = Some 0%nat
    ∧ Get "x" s = Ret (None, true) s []
    ∧ ("x" ∈ main_keys s ∧ "x" ∈ history_keys s).
Proof.
  do 2 eexists.
  split; [vm_compute; reflexivity|].
  split; [vm_compute; reflexivity|].
  split; [vm_compute; reflexivity|].
  split; [vm_compute; reflexivity|].
  split; [vm_compute; reflexivity|].
  split; [vm_compute; reflexivity|].
  split; [vm_compute; reflexivity|].
  split; vm_compute; left.
Qed.
End budget.

Section promotion.
Import lru.
Context {V : Type} `{!Value V}.

(** The promotion branch of [Get] never returns: whenever the key is in
    the history index only and the incremented counter reaches k, the
    call panics. *)
Lemma Get_promotion_never_returns (c : Cache V) key ele :
  mp c !! key = None →
  hmp (historyCache c) !! key = Some ele →
  k (historyCache c) ≤ add64 (cnt_at key (historyCache c)) 1 →
  ∃ s, Get key c = Panic nil_deref s [].
Proof.
  intros Hm Hh Hk. unfold Get, bind at 1, get_state. simpl. rewrite Hm, Hh.
  unfold cnt_incr, bind at 1, modify. simpl.
  unfold bind at 1, get_state. simpl.
  unfold cnt_at at 1. simpl. rewrite lookup_insert_eq. simpl.
  destruct (Z.leb_spec (k (historyCache c)) (add64 (cnt_at key (historyCache c)) 1));
    [|lia].
  eexists. reflexivity.
Qed.
End promotion.

Section protocol.
Import geecache.

(** C3 as stated fails: a request for "/foo" on a pool with the default
    base path gets no client error. *)
Lemma ServeHTTP_foreign_path_no_client_error :
  ¬ client_error
      (ServeHTTP (λ _, None) (λ (_ : unit) _, (ByteView_zero, None))
                 (NewHTTPPool "http://localhost:8001")
                 (mkRequest "GET" "/foo") tt).
Proof. vm_compute. tauto. Qed.

(** C3, amended.  For every request whose URL path does not start with
    the base path of the pool, [ServeHTTP] panics with the message
    "HTTPPool seving unexcepted path: " followed by the path, before it
    logs or writes anything. *)
Theorem ServeHTTP_foreign_path_panics {Group} (GetGroup : string → option Group)
        (Group_Get : Group → string → ByteView * option string)
        (p : HTTPPool) (r : Request) :
  HasPrefix (URL_Path r) (basePath p) = false →
  ServeHTTP GetGroup Group_Get p r tt
  = Panic ("HTTPPool seving unexcepted path: " +:+ URL_Path r) tt [].
Proof. intros H. unfold ServeHTTP. by rewrite H. Qed.

Lemma ServeHTTP_foreign_path_panics_witness :
  HasPrefix "/foo" defaultBasePath = false
  ∧ ServeHTTP (λ _, None) (λ (_ : unit) _, (ByteView_zero, None))
              (NewHTTPPool "http://localhost:8001") (mkRequest "GET" "/foo") tt
    = Panic "HTTPPool seving unexcepted path: /foo" tt [].
Proof.
  split; [reflexivity|].
  apply (ServeHTTP_foreign_path_panics (λ _, None)
           (λ (_ : unit) _, (ByteView_zero, None))
           (NewHTTPPool "http://localhost:8001") (mkRequest "GET" "/foo")).
  reflexivity.
Defined.

(** The URL [Get] asks for is the plain concatenation of the base URL
    and the two escaped segments. *)
Lemma httpGetter_Get_URL (http_Get : string → http_response) h group key :
  ∃ r, httpGetter_Get http_Get h group key tt
       = Ret r tt [baseURL h +:+ QueryEscape group +:+ QueryEscape key].
Proof.
  unfold httpGetter_Get, bind, emit.
  destruct (http_Get _) as [err|code st [body|err]]; simpl;
    [|destruct (negb _)..]; simpl; eauto.
Qed.

Lemma string_length_app (s1 s2 : string) :
  String.length (s1 +:+ s2) = (String.length s1 + String.length s2)%nat.
Proof. induction s1 as [|a s1 IH]; simpl; [done | by rewrite IH]. Qed.

(** It is never the URL with a separator between the segments. *)
Lemma unseparated_URL_differs h group key :
  baseURL h +:+ QueryEscape group +:+ QueryEscape key ≠ separated_URL h group key.
Proof.
  unfold separated_URL. intros Heq. apply (f_equal String.length) in Heq.
  rewrite !string_length_app in Heq. simpl in Heq. lia.
Qed.

(** C4, evaluated.  For the base URL "http://example.com/_geecache/",
    the group "scores" and the key "Tom", [Get] asks for
    "http://example.com/_geecache/scoresTom": no separator stands
    between the two segments. *)
Theorem httpGetter_Get_omits_separator (http_Get : string → http_response) :
  ∃ r, httpGetter_Get http_Get (mkhttpGetter "http://example.com/_geecache/")
                      "scores" "Tom" tt
       = Ret r tt ["http://example.com/_geecache/scoresTom"]
  ∧ separated_URL (mkhttpGetter "http://example.com/_geecache/") "scores" "Tom"
    = "http://example.com/_geecache/scores/Tom".
Proof.
  destruct (httpGetter_Get_URL http_Get (mkhttpGetter "http://example.com/_geecache/")
              "scores" "Tom") as [r Hr].
  exists r. split; [exact Hr | reflexivity].
Qed.

(** The server end answers the path of that URL with 400: after the base
    path it finds one segment, not two. *)
Example ServeHTTP_unseparated_bad_request {Group}
        (GetGroup : string → option Group)
        (Group_Get : Group → string → ByteView * option string) :
  ServeHTTP GetGroup Group_Get (NewHTTPPool "http://example.com")
            (mkRequest "GET" "/_geecache/scoresTom") tt
  = Ret tt tt [log_Printf "[Sever http://example.com] GET /_geecache/scoresTom";
               http_Error "bad request" StatusBadRequest].
Proof. reflexivity. Qed.

(** C9. For every key and every capacity, [get] on a shard whose cache
    was never built returns the zero view and false, and leaves the
    shard as it was: the cache field is still nil. *)
Theorem get_unconstructed (cacheBytes : Z) (key : string) :
  get key (mkcache None cacheBytes)
  = Ret (ByteView_zero, false) (mkcache None cacheBytes) [].
Proof. reflexivity. Qed.
End protocol.

(** ** Wrap-around and the bytes of a queue *)

Section int64.
Lemma wrap64_mod a b : a mod 2 ^ 64 = b mod 2 ^ 64 → wrap64 a = wrap64 b.
Proof.
  unfold wrap64. intros Hab.
  rewrite <-(Zplus_mod_idemp_l a), <-(Zplus_mod_idemp_l b), Hab. done.
Qed.

Lemma wrap64_idemp_l a b : wrap64 (wrap64 a + b) = wrap64 (a + b).
Proof.
  apply wrap64_mod. unfold wrap64.
  rewrite <-Zplus_mod_idemp_l, <-Zminus_mod_idemp_l, Zmod_mod, Zminus_mod_idemp_l,
    Zplus_mod_idemp_l.
  f_equal. lia.
Qed.

Lemma wrap64_idemp_r a b : wrap64 (a + wrap64 b) = wrap64 (a + b).
Proof. by rewrite Z.add_comm, wrap64_idemp_l, Z.add_comm. Qed.

Lemma wrap64_idemp_opp a b : wrap64 (a - wrap64 b) = wrap64 (a - b).
Proof.
  apply wrap64_mod. unfold wrap64.
  rewrite <-Zminus_mod_idemp_r, <-(Zminus_mod_idemp_l _ (2 ^ 63)), Zmod_mod,
    Zminus_mod_idemp_l, Zminus_mod_idemp_r.
  f_equal. lia.
Qed.

Lemma add64_add64 u x y : add64 (wrap64 u) (add64 x y) = wrap64 (u + (x + y)).
Proof. unfold add64. by rewrite wrap64_idemp_r, wrap64_idemp_l. Qed.

Lemma add64_sub64 u x y : add64 (wrap64 u) (sub64 x y) = wrap64 (u + (x - y)).
Proof. unfold add64, sub64. by rewrite wrap64_idemp_r, wrap64_idemp_l. Qed.

Lemma sub64_add64 u x y : sub64 (wrap64 u) (add64 x y) = wrap64 (u - (x + y)).
Proof.
  unfold add64, sub64. rewrite wrap64_idemp_opp.
  replace (wrap64 u - (x + y)) with (wrap64 u + - (x + y)) by lia.
  by rewrite wrap64_idemp_l.
Qed.
End int64.

Section bytes.
Import lru.
Context {V : Type} `{!Value V}.
Implicit Types (l : list ptr) (h : gmap ptr (entry V)).

Lemma queue_bytes_perm h l l' : l ≡ₚ l' → queue_bytes h l = queue_bytes h l'.
Proof.
  unfold queue_bytes. induction 1; simpl; lia.
Qed.

Lemma queue_bytes_app h l1 l2 :
  queue_bytes h (l1 ++ l2) = queue_bytes h l1 + queue_bytes h l2.
Proof. unfold queue_bytes. induction l1 as [|p l1 IH]; simpl; lia. Qed.

Lemma queue_bytes_insert_ne h l p e :
  p ∉ l → queue_bytes (<[p := e]> h) l = queue_bytes h l.
Proof.
  unfold queue_bytes. induction l as [|q l IH]; simpl; [done|].
  intros [Hne Hl]%not_elem_of_cons. by rewrite lookup_insert_ne, IH.
Qed.

Lemma Remove_not_elem h l p :
  p ∉ l → list_.Remove p l = l.
Proof.
  unfold list_.Remove. induction l as [|q l IH]; [done|].
  intros [Hne Hl]%not_elem_of_cons. rewrite filter_cons_True by done.
  by rewrite IH.
Qed.

Lemma queue_bytes_Remove h l p e :
  NoDup l → p ∈ l → h !! p = Some e →
  queue_bytes h (list_.Remove p l) = queue_bytes h l - entry_bytes e.
Proof.
  intros Hnd Hin Hp. induction l as [|q l IH]; [by apply not_elem_of_nil in Hin|].
  apply NoDup_cons in Hnd as [Hq Hnd]. unfold list_.Remove.
  destruct (decide (q = p)) as [->|Hne].
  - rewrite filter_cons_False by tauto.
    fold (list_.Remove p l). rewrite Remove_not_elem by done.
    unfold queue_bytes at 2. simpl. rewrite Hp. simpl. fold (queue_bytes h l). lia.
  - rewrite filter_cons_True by done. fold (list_.Remove p l).
    apply elem_of_cons in Hin as [->|Hin]; [done|].
    unfold queue_bytes. simpl. fold (queue_bytes h (list_.Remove p l)).
    fold (queue_bytes h l). rewrite IH by done. lia.
Qed.

Lemma queue_bytes_store h l p e e' :
  NoDup l → p ∈ l → h !! p = Some e →
  queue_bytes (<[p := e']> h) l = queue_bytes h l - entry_bytes e + entry_bytes e'.
Proof.
  intros Hnd Hin Hp. induction l as [|q l IH]; [by apply not_elem_of_nil in Hin|].
  apply NoDup_cons in Hnd as [Hq Hnd]. unfold queue_bytes. simpl.
  fold (queue_bytes (<[p := e']> h) l). fold (queue_bytes h l).
  destruct (decide (q = p)) as [->|Hne].
  - rewrite lookup_insert_eq, Hp, queue_bytes_insert_ne by done. simpl. lia.
  - apply elem_of_cons in Hin as [->|Hin]; [done|].
    rewrite lookup_insert_ne, IH by done. lia.
Qed.
End bytes.

(** ** Queues that stay well formed *)

Section queues.
Import lru.
Context {V : Type} `{!Value V}.
Implicit Types (l : list ptr) (m : gmap string ptr) (h : gmap ptr (entry V)).

Lemma dom_delete_sub m key : dom (delete key m) ⊆ dom m.
Proof. rewrite dom_delete_L. by apply subseteq_difference_l. Qed.

Lemma elem_of_Remove l p q : q ∈ list_.Remove p l ↔ q ≠ p ∧ q ∈ l.
Proof. unfold list_.Remove. apply (list_elem_of_filter (λ q, q ≠ p)). Qed.

Lemma NoDup_Remove l p : NoDup l → NoDup (list_.Remove p l).
Proof. unfold list_.Remove. apply NoDup_filter. Qed.

Lemma MoveToFront_perm l p : NoDup l → list_.MoveToFront p l ≡ₚ l.
Proof.
  intros Hnd. unfold list_.MoveToFront. case_decide; [|done].
  apply NoDup_Permutation; [|done|].
  - apply NoDup_cons. split; [|by apply NoDup_Remove].
    rewrite elem_of_Remove. tauto.
  - intros q. rewrite elem_of_cons, elem_of_Remove.
    destruct (decide (q = p)) as [->|]; tauto.
Qed.

Lemma MoveToBack_perm l p : NoDup l → list_.MoveToBack p l ≡ₚ l.
Proof.
  intros Hnd. unfold list_.MoveToBack. case_decide; [|done].
  apply NoDup_Permutation; [|done|].
  - apply NoDup_app. split_and!; [by apply NoDup_Remove| |apply NoDup_singleton].
    intros q. rewrite elem_of_Remove, list_elem_of_singleton. tauto.
  - intros q. rewrite elem_of_app, elem_of_Remove, list_elem_of_singleton.
    destruct (decide (q = p)) as [->|]; tauto.
Qed.

Lemma queue_wf_perm l l' m h : l ≡ₚ l' → queue_wf l m h → queue_wf l' m h.
Proof.
  intros Hp (Hnd & Hm & Hl). split_and!.
  - by rewrite <-Hp.
  - intros key p Hkey. rewrite <-Hp. eauto.
  - intros p. rewrite <-Hp. eauto.
Qed.

Lemma queue_wf_Remove l m h p e :
  queue_wf l m h → h !! p = Some e → p ∈ l →
  queue_wf (list_.Remove p l) (delete (key e) m) h.
Proof.
  intros (Hnd & Hm & Hl) Hp Hin. split_and!.
  - by apply NoDup_Remove.
  - intros key q Hq. apply lookup_delete_Some in Hq as [Hne Hq].
    destruct (Hm _ _ Hq) as (Hql & e' & He' & Hk). split; [|eauto].
    apply elem_of_Remove. split; [|done]. intros ->. congruence.
  - intros q [Hne Hq]%elem_of_Remove.
    destruct (Hl _ Hq) as (e' & He' & Hk & Hv). exists e'. split_and!; [done| |done].
    rewrite lookup_delete_ne; [done|]. intros Heq.
    destruct (Hl _ Hin) as (e0 & He0 & Hk0 & _). congruence.
Qed.

Lemma queue_wf_heap_insert l m h p e :
  queue_wf l m h → p ∉ l → queue_wf l m (<[p := e]> h).
Proof.
  intros (Hnd & Hm & Hl) Hp. split_and!; [done|..].
  - intros key q Hq. destruct (Hm _ _ Hq) as (Hql & e' & He' & Hk).
    split; [done|]. exists e'. rewrite lookup_insert_ne; [done|]. by intros ->.
  - intros q Hq. destruct (Hl _ Hq) as (e' & He' & Hk).
    exists e'. rewrite lookup_insert_ne; [done|]. by intros ->.
Qed.

Lemma queue_wf_insert l m h p key v :
  queue_wf l m h → p ∉ l → m !! key = None →
  queue_wf (p :: l) (<[key := p]> m) (<[p := Entry key (Some v)]> h).
Proof.
  intros (Hnd & Hm & Hl) Hp Hkey. split_and!.
  - by apply NoDup_cons.
  - intros key' q Hq. apply lookup_insert_Some in Hq as [[<- <-]|[Hne Hq]].
    + split; [left|]. eexists. by rewrite lookup_insert_eq.
    + destruct (Hm _ _ Hq) as (Hql & e' & He' & Hk). split; [by right|].
      exists e'. rewrite lookup_insert_ne; [done|]. by intros ->.
  - intros q [->|Hq]%elem_of_cons.
    + eexists. rewrite lookup_insert_eq. split; [done|]. simpl.
      rewrite lookup_insert_eq. eauto.
    + destruct (Hl _ Hq) as (e' & He' & Hk & Hv). exists e'.
      rewrite lookup_insert_ne; [|by intros ->]. split_and!; [done| |done].
      rewrite lookup_insert_ne; [done|]. intros Heq. rewrite Heq in Hkey.
      congruence.
Qed.

Lemma queue_wf_store l m h p e v :
  queue_wf l m h → h !! p = Some e →
  queue_wf l m (<[p := Entry (key e) (Some v)]> h).
Proof.
  intros (Hnd & Hm & Hl) Hp. split_and!; [done|..].
  - intros key q Hq. destruct (Hm _ _ Hq) as (Hql & e' & He' & Hk).
    split; [done|]. destruct (decide (q = p)) as [->|Hne].
    + eexists. rewrite lookup_insert_eq. split; [done|]. simpl. congruence.
    + exists e'. by rewrite lookup_insert_ne.
  - intros q Hq. destruct (Hl _ Hq) as (e' & He' & Hk & Hv).
    destruct (decide (q = p)) as [->|Hne].
    + eexists. rewrite lookup_insert_eq. split; [done|]. simpl.
      split; [congruence|eauto].
    + exists e'. by rewrite lookup_insert_ne.
Qed.

(** The index finds exactly the keys the list holds. *)
Lemma queue_wf_keys l m h key :
  queue_wf l m h → key ∈ keys_of h l ↔ is_Some (m !! key).
Proof.
  intros (Hnd & Hm & Hl). unfold keys_of. rewrite list_elem_of_omap. split.
  - intros (p & Hp & Hk). destruct (Hl _ Hp) as (e & He & Hke & _).
    rewrite He in Hk. simpl in Hk. injection Hk as <-. eauto.
  - intros [p Hp]. destruct (Hm _ _ Hp) as (Hpl & e & He & Hk).
    exists p. split; [done|]. by rewrite He, <-Hk.
Qed.
End queues.

(** ** The methods keep the invariant *)

Section methods.
Import lru.
Context {V : Type} `{!Value V}.
Implicit Types (c : Cache V).

Lemma wp_load c p (Q : entry V → Cache V → list (Evicted V) → Prop) :
  (∀ kv, heap c !! p = Some kv → Q kv c []) → wp (load p) c Q.
Proof.
  intros HQ. unfold load. apply wp_bind, wp_get_state.
  destruct (heap c !! p) as [kv|]; [apply wp_ret; eauto | apply wp_panic].
Qed.

Lemma wp_call_Len c value (Q : Z → Cache V → list (Evicted V) → Prop) :
  (∀ v, value = Some v → Q (Len v) c []) → wp (call_Len value) c Q.
Proof. intros HQ. destruct value; [apply wp_ret; eauto | apply wp_panic]. Qed.

Lemma wp_new_element c key value (Q : ptr → Cache V → list (Evicted V) → Prop) :
  Q (next c) (set_next S (set_heap <[next c := Entry key value]> c)) [] →
  wp (new_element key value) c Q.
Proof. done. Qed.

Ltac wp_step :=
  lazymatch goal with
  | |- wp (bind get_state _) _ _ => apply wp_bind, wp_get_state
  | |- wp (bind (modify _) _) _ _ => apply wp_bind, wp_modify
  | |- wp (bind (cnt_incr _) _) _ _ => apply wp_bind, wp_modify
  | |- wp (bind (store_value _ _) _) _ _ => apply wp_bind, wp_modify
  | |- wp (bind (ret _) _) _ _ => apply wp_bind, wp_ret
  | |- wp (bind (emit _) _) _ _ => apply wp_bind, wp_emit
  | |- wp (bind (panic _) _) _ _ => apply wp_bind, wp_panic
  | |- wp (bind (load _) _) _ _ =>
      let kv := fresh "kv" in let Hkv := fresh "Hkv" in
      apply wp_bind, wp_load; intros kv Hkv; simpl in Hkv
  | |- wp (bind (call_Len _) _) _ _ =>
      let v := fresh "v" in let Hv := fresh "Hv" in
      apply wp_bind, wp_call_Len; intros v Hv
  | |- wp (bind (new_element _ _) _) _ _ => apply wp_bind, wp_new_element
  | |- wp (bind (bind _ _) _) _ _ => apply wp_bind
  | |- wp (ret _) _ _ => apply wp_ret
  | |- wp (modify _) _ _ => apply wp_modify
  | |- wp (store_value _ _) _ _ => apply wp_modify
  | |- wp (emit _) _ _ => apply wp_emit
  | |- wp (panic _) _ _ => apply wp_panic
  | |- wp diverge _ _ => apply wp_diverge
  end; cbn beta.

Ltac wp_if :=
  lazymatch goal with
  | |- wp (if ?b then _ else _) _ _ => destruct b eqn:?
  | |- wp (bind (if ?b then _ else _) _) _ _ => destruct b eqn:?
  end.

Ltac wp_steps := repeat wp_step.

Lemma main_shrinks_refl c : main_shrinks c c.
Proof. by repeat split. Qed.

Lemma main_shrinks_trans c1 c2 c3 :
  main_shrinks c1 c2 → main_shrinks c2 c3 → main_shrinks c1 c3.
Proof.
  intros (H0 & H1 & H2 & H3 & H4 & H5) (G0 & G1 & G2 & G3 & G4 & G5).
  split_and!; [congruence..| |]; [by etrans|eauto].
Qed.

Lemma fresh_not_main c : inv c → next c ∉ ll c.
Proof. intros Hinv Hin. pose proof (inv_fresh _ Hinv (next c) (or_introl Hin)). lia. Qed.

Lemma fresh_not_history c : inv c → next c ∉ hll (historyCache c).
Proof. intros Hinv Hin. pose proof (inv_fresh _ Hinv (next c) (or_intror Hin)). lia. Qed.

(** An element of one queue is not an element of the other. *)
Lemma main_elem_not_history c p : inv c → p ∈ ll c → p ∉ hll (historyCache c).
Proof.
  intros Hinv Hm Hh.
  destruct (inv_main _ Hinv) as (_ & _ & Hl).
  destruct (inv_hist _ Hinv) as (_ & _ & Hhl).
  destruct (Hl _ Hm) as (e & He & Hk & _).
  destruct (Hhl _ Hh) as (e' & He' & Hk' & _).
  assert (e' = e) as -> by congruence.
  apply (inv_disj _ Hinv (key e)); apply elem_of_dom; eauto.
Qed.

Lemma RemoveCacheOldest_spec c :
  main_ok c →
  wp RemoveCacheOldest c (λ _ c' _, main_ok c' ∧ main_shrinks c c').
Proof.
  intros [Hwf Hb]. unfold RemoveCacheOldest. wp_step.
  destruct (list_.Back (ll c)) as [ele|] eqn:Hback.
  - apply last_Some_elem_of in Hback. wp_steps; wp_if; wp_step; simpl in *.
    all: split; [split; simpl|].
    all: try (by eapply queue_wf_Remove).
    all: try (rewrite Hb, sub64_add64, (queue_bytes_Remove _ _ _ kv)
                by (done || apply Hwf);
              unfold entry_bytes; rewrite Hv; simpl; f_equal; lia).
    all: split_and!; simpl; try done.
    all: try apply dom_delete_sub.
    all: intros p [_ ?]%elem_of_Remove; done.
  - wp_step. split; [done|apply main_shrinks_refl].
Qed.

Lemma evict_loop_spec fuel c :
  main_ok c →
  wp (evict_loop fuel) c (λ _ c' _, main_ok c' ∧ main_shrinks c c').
Proof.
  revert c. induction fuel as [|fuel IH]; intros c Hwf; simpl.
  - wp_step. destruct (over_budget c); [|wp_step; eauto using main_shrinks_refl].
    destruct (list_.Back (ll c)); wp_step.
  - wp_step. destruct (over_budget c); [|wp_step; eauto using main_shrinks_refl].
    destruct (list_.Back (ll c)); [|wp_step].
    apply wp_bind. eapply wp_mono; [by apply RemoveCacheOldest_spec|].
    intros _ c1 _ [Hwf1 Hs1]. eapply wp_mono; [by apply IH|].
    intros _ c2 _ [Hwf2 Hs2]. eauto using main_shrinks_trans.
Qed.

Lemma RemoveCacheOldest_shortens c ele a c' ev :
  list_.Back (ll c) = Some ele →
  RemoveCacheOldest c = Ret a c' ev →
  (length (ll c') < length (ll c))%nat.
Proof.
  intros Hback Hrm.
  refine (wp_elim _ _ (λ _ c' _, (length (ll c') < length (ll c))%nat) _ _ _ _ Hrm).
  unfold RemoveCacheOldest. wp_step.
  rewrite Hback. wp_steps; wp_if; wp_step; simpl.
  all: apply (length_filter_lt (λ q, q ≠ ele) _ ele); [|tauto].
  all: by apply last_Some_elem_of.
Qed.

(** The fuel given to the loop is enough: more of it changes nothing. *)
Lemma evict_loop_fuel n m c :
  (length (ll c) ≤ n)%nat → (length (ll c) ≤ m)%nat →
  evict_loop n c = evict_loop m c.
Proof.
  revert m c. induction n as [|n IH]; intros m c Hn Hm.
  - destruct (ll c) as [|p l] eqn:Hll; [|simpl in Hn; lia].
    destruct m; simpl; rewrite !bind_get_state, Hll; simpl;
      by destruct (over_budget c).
  - destruct m as [|m].
    + destruct (ll c) as [|p l] eqn:Hll; [|simpl in Hm; lia].
      simpl. rewrite !bind_get_state, Hll. simpl. by destruct (over_budget c).
    + simpl. rewrite !bind_get_state. destruct (over_budget c); [|done].
      destruct (list_.Back (ll c)) as [ele|] eqn:Hback; [|done].
      unfold bind.
      destruct (RemoveCacheOldest c) as [a c' ev| |] eqn:Hrm; [|done..].
      apply (RemoveCacheOldest_shortens _ _ _ _ _ Hback) in Hrm.
      rewrite (IH m c') by lia. done.
Qed.

Lemma AddToCache_spec c key value :
  main_ok c → mp c !! key = None → next c ∉ ll c →
  wp (AddToCache key value) c
     (λ _ c' _,
        main_ok c'
        ∧ historyCache c' = historyCache c
        ∧ heap c' = <[next c := Entry key value]> (heap c)
        ∧ next c' = S (next c)
        ∧ maxBytes c' = maxBytes c
        ∧ dom (mp c') ⊆ {[key]} ∪ dom (mp c)
        ∧ (∀ p, p ∈ ll c' → p ∈ ll c ∨ p = next c)).
Proof.
  intros [Hwf Hb] Hkey Hfresh. unfold AddToCache. wp_steps. subst value.
  eapply wp_mono; [apply evict_loop_spec|].
  { split; simpl; [by apply queue_wf_insert|].
    unfold list_.PushFront, queue_bytes. simpl.
    fold (queue_bytes (<[next c:=Entry key (Some v)]> (heap c)) (ll c)).
    rewrite lookup_insert_eq, queue_bytes_insert_ne, Hb, add64_add64 by done.
    unfold entry_bytes. simpl. f_equal. lia. }
  simpl. intros _ c' _ (Hok' & Hmax & Hh & Hheap & Hnext & Hdom & Hll). simpl in *.
  split_and!; try done.
  - by rewrite dom_insert_L in Hdom.
  - intros p [->|Hp]%Hll%elem_of_cons; auto.
Qed.

Lemma RemoveHistoryCacheOldest_spec c :
  inv c →
  wp RemoveHistoryCacheOldest c
     (λ _ c' _, inv c' ∧ mp c' = mp c ∧ maxBytes c' = maxBytes c
                ∧ k (historyCache c') = k (historyCache c)).
Proof.
  intros [Hmain Hhist Hmb Hhb Hcnt Hdisj Hfresh]. unfold RemoveHistoryCacheOldest.
  wp_step.
  destruct (list_.Front (hll (historyCache c))) as [ele|] eqn:Hfront.
  - apply head_Some_elem_of in Hfront. wp_steps; wp_if; wp_step; simpl in *.
    all: split; [|done]; constructor; simpl.
    all: try done.
    all: try (by eapply queue_wf_Remove).
    all: try (rewrite Hhb, sub64_add64, (queue_bytes_Remove _ _ _ kv)
                by (done || apply Hhist);
              unfold entry_bytes; rewrite Hv; simpl; f_equal; lia).
    all: try (rewrite !dom_delete_L; congruence).
    all: try (intros x Hx Hy%dom_delete_sub; by apply (Hdisj x)).
    all: intros p [?|[_ ?]%elem_of_Remove]; auto.
  - wp_step. by split.
Qed.

Lemma Add_promote_spec c key value :
  inv c → mp c !! key = None →
  wp (Add_promote key value) c
     (λ _ c' _, inv c' ∧ maxBytes c' = maxBytes c
                ∧ k (historyCache c') = k (historyCache c)).
Proof.
  intros Hinv Hkey. unfold Add_promote. wp_step.
  destruct (k (historyCache c) <=? cnt_at key (historyCache c)); [|by wp_step].
  pose proof (fresh_not_main _ Hinv) as Hn1.
  pose proof (fresh_not_history _ Hinv) as Hn2.
  destruct Hinv as [Hmain Hhist Hmb Hhb Hcnt Hdisj Hfresh].
  apply wp_bind. eapply wp_mono; [by apply AddToCache_spec|].
  cbn beta.
  intros _ c2 _ ([Hmain2 Hmb2] & Hh2 & Hheap2 & Hnext2 & Hmax2 & Hdom2 & Hll2).
  wp_step. rewrite Hh2.
  destruct (hmp (historyCache c) !! key) as [ele|] eqn:Hele; [|wp_step].
  pose proof Hhist as (Hnd & Hm & Hl).
  destruct (Hm _ _ Hele) as (Hin & e & He & Hk).
  wp_step. rewrite Hheap2, lookup_insert_ne in Hkv by (by intros <-).
  assert (kv = e) as -> by congruence.
  wp_steps. split; [|by rewrite <-Hh2]. constructor; simpl; rewrite ?Hh2, ?Hk.
  - done.
  - rewrite <-Hk, Hheap2.
    apply queue_wf_Remove; [|by rewrite lookup_insert_ne by (by intros <-)|done].
    by apply queue_wf_heap_insert.
  - done.
  - rewrite Hheap2, queue_bytes_insert_ne
      by (by intros [_ ?]%elem_of_Remove).
    rewrite Hhb, sub64_add64, (queue_bytes_Remove _ _ _ e) by done.
    unfold entry_bytes. rewrite Hv, Hk. simpl. f_equal. lia.
  - rewrite !dom_delete_L. congruence.
  - intros x Hx Hy. rewrite dom_delete_L in Hy.
    apply elem_of_difference in Hy as [Hy Hne].
    apply Hdom2, elem_of_union in Hx as [Hx|Hx]; [done|].
    by apply (Hdisj x).
  - rewrite Hnext2. intros p [[Hp| ->]%Hll2|[_ Hp]%elem_of_Remove]; [|lia|].
    all: assert (p < next c)%nat by auto; lia.
Qed.

Lemma inv_history_insert c key v n :
  inv c → mp c !! key = None → hmp (historyCache c) !! key = None →
  inv (set_history (set_huseBytes (λ u, add64 u (add64 (len key) (Len v))))
         (set_history (set_hmp <[key := next c]>)
            (set_history (set_cnt <[key := n]>)
               (set_history (set_hll (list_.PushBack (next c)))
                  (set_next S
                     (set_heap <[next c := Entry key (Some v)]> c)))))).
Proof.
  intros Hinv Hkey Hhkey.
  pose proof (fresh_not_main _ Hinv) as Hn1.
  pose proof (fresh_not_history _ Hinv) as Hn2.
  destruct Hinv as [Hmain Hhist Hmb Hhb Hcnt Hdisj Hfresh].
  constructor; simpl.
  - by apply queue_wf_heap_insert.
  - eapply queue_wf_perm; [apply Permutation_cons_append|].
    by apply queue_wf_insert.
  - by rewrite queue_bytes_insert_ne.
  - unfold list_.PushBack. rewrite queue_bytes_app, queue_bytes_insert_ne by done.
    unfold queue_bytes at 2. simpl. rewrite lookup_insert_eq, Hhb, add64_add64.
    unfold entry_bytes. simpl. f_equal. lia.
  - rewrite !dom_insert_L. congruence.
  - intros x Hx Hy. rewrite dom_insert_L in Hy.
    apply elem_of_union in Hy as [->%elem_of_singleton|Hy]; [|by apply (Hdisj x)].
    by apply not_elem_of_dom in Hkey.
  - unfold list_.PushBack. intros p [Hp|[Hp| ->%list_elem_of_singleton]%elem_of_app];
      [| |lia]; assert (p < next c)%nat by auto; lia.
Qed.

Lemma Add_history_spec c key value :
  inv c → mp c !! key = None →
  wp (Add_history key value) c
     (λ _ c' _, inv c' ∧ mp c' !! key = None ∧ maxBytes c' = maxBytes c
                ∧ k (historyCache c') = k (historyCache c)).
Proof.
  intros Hinv Hmp. unfold Add_history. wp_step.
  destruct (hmp (historyCache c) !! key) as [ele|] eqn:Hhmp.
  - pose proof Hinv as [Hmain Hhist Hmb Hhb Hcnt Hdisj Hfresh].
    destruct (proj1 (proj2 Hhist) _ _ Hhmp) as (Hin & _).
    assert (ele ∉ ll c) as Hnm
        by (intros ?; by eapply main_elem_not_history).
    wp_steps. subst value.
    split; [|done]. constructor; simpl; rewrite ?Hkv.
    + by apply queue_wf_store.
    + eapply queue_wf_perm; [symmetry; apply MoveToBack_perm, Hhist|].
      by apply queue_wf_store.
    + by rewrite queue_bytes_insert_ne.
    + rewrite (queue_bytes_perm _ _ _ (MoveToBack_perm _ _ (proj1 Hhist))).
      rewrite (queue_bytes_store _ _ _ kv) by (done || apply Hhist).
      rewrite Hhb, add64_sub64. unfold entry_bytes. rewrite Hv0. simpl.
      f_equal. lia.
    + rewrite dom_insert_lookup_L; [done|].
      apply elem_of_dom. rewrite Hcnt. apply elem_of_dom. eauto.
    + done.
    + intros p [Hp|Hp]; apply Hfresh; [by left|right].
      by rewrite MoveToBack_perm in Hp by apply Hhist.
  - wp_steps. subst value.
    match goal with
    | |- wp _ ?c1 _ => assert (inv c1) as Hinv1 by (by apply inv_history_insert)
    end.
    wp_if.
    + eapply wp_mono; [by apply RemoveHistoryCacheOldest_spec|].
      simpl. intros _ c1 _ (Hc1 & -> & -> & ->). done.
    + wp_step. done.
Qed.

Theorem Add_keeps_inv c key value :
  inv c →
  wp (Add key value) c
     (λ _ c' _, inv c' ∧ maxBytes c' = maxBytes c
                ∧ k (historyCache c') = k (historyCache c)).
Proof.
  intros Hinv. unfold Add. wp_step.
  destruct (mp c !! key) as [ele|] eqn:Hmp.
  - pose proof Hinv as [Hmain Hhist Hmb Hhb Hcnt Hdisj Hfresh].
    destruct (proj1 (proj2 Hmain) _ _ Hmp) as (Hin & _).
    pose proof (main_elem_not_history _ _ Hinv Hin) as Hnh.
    wp_steps. subst value. split; [|done].
    constructor; simpl; rewrite ?Hkv.
    + eapply queue_wf_perm; [symmetry; apply MoveToFront_perm, Hmain|].
      by apply queue_wf_store.
    + by apply queue_wf_store.
    + rewrite (queue_bytes_perm _ _ _ (MoveToFront_perm _ _ (proj1 Hmain))).
      rewrite (queue_bytes_store _ _ _ kv) by (done || apply Hmain).
      rewrite Hmb, add64_sub64. unfold entry_bytes. rewrite Hv0. simpl.
      f_equal. lia.
    + by rewrite queue_bytes_insert_ne.
    + done.
    + done.
    + intros p [Hp|Hp]; apply Hfresh; [left|by right].
      by rewrite MoveToFront_perm in Hp by apply Hmain.
  - apply wp_bind. eapply wp_mono; [by apply Add_history_spec|].
    cbn beta. intros _ c1 _ (Hinv1 & Hmp1 & <- & <-).
    eapply wp_mono; [by apply Add_promote_spec|]. done.
Qed.

Theorem Get_keeps_inv c key :
  inv c →
  wp (Get key) c
     (λ _ c' _, inv c' ∧ maxBytes c' = maxBytes c
                ∧ k (historyCache c') = k (historyCache c)).
Proof.
  intros [Hmain Hhist Hmb Hhb Hcnt Hdisj Hfresh]. unfold Get. wp_step.
  destruct (mp c !! key) as [ele|] eqn:Hmp.
  - wp_steps. split; [|done]. constructor; simpl.
    + eapply queue_wf_perm; [symmetry; apply MoveToFront_perm, Hmain|done].
    + done.
    + by rewrite (queue_bytes_perm _ _ _ (MoveToFront_perm _ _ (proj1 Hmain))).
    + done.
    + done.
    + done.
    + intros p [Hp|Hp]; apply Hfresh; [left|by right].
      by rewrite MoveToFront_perm in Hp by apply Hmain.
  - destruct (hmp (historyCache c) !! key) as [ele|] eqn:Hhmp; [|by wp_step].
    wp_steps. wp_if.
    + apply wp_bind. unfold AddToCache. wp_steps. done.
    + wp_steps. split; [|done]. constructor; simpl.
      * done.
      * eapply queue_wf_perm; [symmetry; apply MoveToBack_perm, Hhist|done].
      * done.
      * by rewrite (queue_bytes_perm _ _ _ (MoveToBack_perm _ _ (proj1 Hhist))).
      * rewrite dom_insert_lookup_L; [done|].
        apply elem_of_dom. rewrite Hcnt. apply elem_of_dom. eauto.
      * done.
      * intros p [Hp|Hp]; apply Hfresh; [by left|right].
        by rewrite MoveToBack_perm in Hp by apply Hhist.
Qed.

Lemma New_inv maxBytes onEvicted k : inv (New (V:=V) maxBytes onEvicted k).
Proof.
  assert (queue_wf (V:=V) [] ∅ ∅) as Hwf.
  { split_and!; [apply NoDup_nil_2|..].
    - intros key p Hp. by rewrite lookup_empty in Hp.
    - intros p Hp. by apply not_elem_of_nil in Hp. }
  constructor; simpl; [done..| |].
  - rewrite dom_empty_L. apply disjoint_empty_l.
  - intros p [Hp|Hp]; by apply not_elem_of_nil in Hp.
Qed.

Lemma do_calls_keep_inv cls c :
  inv c →
  wp (do_calls cls) c
     (λ _ c' _, inv c' ∧ maxBytes c' = maxBytes c
                ∧ k (historyCache c') = k (historyCache c)).
Proof.
  revert c. induction cls as [|cl cls IH]; intros c Hinv; simpl; [by wp_step|].
  apply wp_bind. destruct cl as [key value|key]; simpl.
  - eapply wp_mono; [by apply Add_keeps_inv|].
    cbn beta. intros _ c1 _ (Hinv1 & <- & <-).
    eapply wp_mono; [by apply IH|]. done.
  - apply wp_bind. eapply wp_mono; [by apply Get_keeps_inv|].
    cbn beta. intros _ c1 _ (Hinv1 & <- & <-). wp_step.
    eapply wp_mono; [by apply IH|]. done.
Qed.

Lemma reachable_inv c : reachable c → inv c.
Proof.
  intros (maxBytes & onEvicted & k & cls & ev & Hrun).
  by apply (wp_elim _ _ _ _ _ _
              (do_calls_keep_inv cls _ (New_inv maxBytes onEvicted k)) Hrun).
Qed.

(** In every state reached by calls that returned, the two byte counters
    are the sums, taken as [int64], of key length plus value length over
    the entries of their queues. *)
Lemma useBytes_counts_entries c :
  reachable c →
  useBytes c = wrap64 (queue_bytes (heap c) (ll c))
  ∧ huseBytes (historyCache c)
    = wrap64 (queue_bytes (heap c) (hll (historyCache c))).
Proof. intros Hinv%reachable_inv. split; apply Hinv. Qed.

(** As long as every call has returned, the two queues stay apart: in
    every state reached by a sequence of [Add] and [Get] calls that
    all returned, no key is in the main queue and in the history queue
    at once, be it looked up in the two indexes or in the two lists.
    A [Get] that panics in its promotion branch ends this. *)
Theorem main_and_history_disjoint c key :
  reachable c →
  ¬ (is_Some (mp c !! key) ∧ is_Some (hmp (historyCache c) !! key))
  ∧ ¬ (key ∈ main_keys c ∧ key ∈ history_keys c).
Proof.
  intros [Hmain Hhist Hmb Hhb Hcnt Hdisj Hfresh]%reachable_inv.
  assert (¬ (is_Some (mp c !! key) ∧ is_Some (hmp (historyCache c) !! key))) as Hno.
  { intros [H1%elem_of_dom H2%elem_of_dom]. by apply (Hdisj key). }
  split; [done|]. unfold main_keys, history_keys.
  by rewrite (queue_wf_keys _ _ _ _ Hmain), (queue_wf_keys _ _ _ _ Hhist).
Qed.

(** C8. In every state reached by a sequence of [Add] and [Get] calls
    that returned, a key has a hit counter exactly when the history
    queue holds it, be it looked up in the history index or in the
    history list. *)
Theorem counter_iff_in_history c key :
  reachable c →
  (is_Some (cnt (historyCache c) !! key) ↔ key ∈ history_keys c)
  ∧ (is_Some (cnt (historyCache c) !! key)
     ↔ is_Some (hmp (historyCache c) !! key)).
Proof.
  intros [Hmain Hhist Hmb Hhb Hcnt Hdisj Hfresh]%reachable_inv.
  assert (is_Some (cnt (historyCache c) !! key)
          ↔ is_Some (hmp (historyCache c) !! key)) as Hiff
      by (by rewrite <-!elem_of_dom, Hcnt).
  split; [|done]. unfold history_keys.
  by rewrite (queue_wf_keys _ _ _ _ Hhist).
Qed.

(** *** Calls that return *)

Lemma bind_load {A} c p kv (f : entry V → M (Cache V) (Evicted V) A) :
  heap c !! p = Some kv → bind (load p) f c = f kv c.
Proof.
  intros Hp. unfold load. unfold bind at 1. rewrite bind_get_state, Hp.
  unfold ret. by destruct (f kv c).
Qed.

Lemma bind_call_Len {A} c v (f : Z → M (Cache V) (Evicted V) A) :
  bind (call_Len (Some v)) f c = f (Len v) c.
Proof. unfold bind, call_Len, ret. by destruct (f (Len v) c). Qed.

Lemma bind_new_element {A} c key value (f : ptr → M (Cache V) (Evicted V) A) :
  bind (new_element key value) f c
  = f (next c) (set_next S (set_heap <[next c := Entry key value]> c)).
Proof.
  unfold new_element. unfold bind at 1.
  rewrite bind_get_state, bind_modify, bind_modify. unfold ret.
  by destruct (f _ _).
Qed.

Lemma returns_load {A} c p kv (f : entry V → M (Cache V) (Evicted V) A) :
  heap c !! p = Some kv → returns (f kv) c → returns (bind (load p) f) c.
Proof. intros Hp. unfold returns. by rewrite (bind_load _ _ _ _ Hp). Qed.

Lemma returns_call_Len {A} c v (f : Z → M (Cache V) (Evicted V) A) :
  returns (f (Len v)) c → returns (bind (call_Len (Some v)) f) c.
Proof. unfold returns. by rewrite bind_call_Len. Qed.

Lemma returns_new_element {A} c key value
      (f : ptr → M (Cache V) (Evicted V) A) :
  returns (f (next c)) (set_next S (set_heap <[next c := Entry key value]> c)) →
  returns (bind (new_element key value) f) c.
Proof. unfold returns. by rewrite bind_new_element. Qed.

Ltac ret_step :=
  lazymatch goal with
  | |- returns (bind get_state _) _ => apply returns_get_state
  | |- returns (bind (modify _) _) _ => apply returns_bind_modify
  | |- returns (bind (cnt_incr _) _) _ => apply returns_bind_modify
  | |- returns (bind (call_Len (Some _)) _) _ => apply returns_call_Len
  | |- returns (bind (new_element _ _) _) _ => apply returns_new_element
  | |- returns (ret _) _ => apply returns_ret
  | |- returns (modify _) _ => apply returns_modify
  | |- returns (store_value _ _) _ => apply returns_modify
  | |- returns (emit _) _ => apply returns_emit
  | |- returns (if OnEvicted ?c then _ else _) _ => destruct (OnEvicted c)
  end; cbn beta.

Ltac ret_steps := repeat ret_step.

Lemma RemoveCacheOldest_returns c :
  queue_wf (ll c) (mp c) (heap c) → returns RemoveCacheOldest c.
Proof.
  intros (Hnd & Hm & Hl). unfold RemoveCacheOldest. ret_step.
  destruct (list_.Back (ll c)) as [ele|] eqn:Hback; [|ret_step].
  apply last_Some_elem_of in Hback.
  destruct (Hl _ Hback) as (e & He & _ & [v Hv]).
  ret_step. apply (returns_load _ _ e); [done|]. rewrite Hv. ret_steps.
Qed.

Lemma evict_loop_returns fuel c :
  main_ok c → 0 ≤ maxBytes c → (length (ll c) ≤ fuel)%nat →
  returns (evict_loop fuel) c.
Proof.
  revert c. induction fuel as [|fuel IH]; intros c Hok Hmax Hlen.
  - destruct (ll c) as [|p l] eqn:Hll; [|simpl in Hlen; lia].
    simpl. ret_step. unfold over_budget.
    destruct Hok as [_ Hb]. rewrite Hb, Hll. simpl.
    replace (wrap64 0) with 0 by done.
    destruct (Z.ltb_spec (maxBytes c) 0); [lia|].
    rewrite andb_false_r. ret_step.
  - simpl. ret_step.
    destruct (over_budget c) eqn:Hover; [|ret_step].
    destruct (list_.Back (ll c)) as [ele|] eqn:Hback.
    + eapply returns_bind;
        [apply RemoveCacheOldest_returns, Hok|by apply RemoveCacheOldest_spec|].
      cbn beta. intros a c1 ev1 Hrm [Hok1 Hs1].
      apply (RemoveCacheOldest_shortens _ _ _ _ _ Hback) in Hrm.
      apply IH; [done|by rewrite (proj1 Hs1)|lia].
    + apply last_None in Hback. exfalso. revert Hover. unfold over_budget.
      destruct Hok as [_ Hb]. rewrite Hb, Hback. simpl.
      replace (wrap64 0) with 0 by done.
      destruct (Z.ltb_spec (maxBytes c) 0); [lia|]. by rewrite andb_false_r.
Qed.

Lemma AddToCache_returns c key v :
  main_ok c → mp c !! key = None → next c ∉ ll c → 0 ≤ maxBytes c →
  returns (AddToCache key (Some v)) c.
Proof.
  intros [Hwf Hb] Hkey Hfresh Hmax. unfold AddToCache. ret_steps.
  apply evict_loop_returns; simpl; [|done|done].
  split; simpl; [by apply queue_wf_insert|].
  unfold list_.PushFront, queue_bytes. simpl.
  fold (queue_bytes (<[next c:=Entry key (Some v)]> (heap c)) (ll c)).
  rewrite lookup_insert_eq, queue_bytes_insert_ne, Hb, add64_add64 by done.
  unfold entry_bytes. simpl. f_equal. lia.
Qed.

Lemma RemoveHistoryCacheOldest_returns c :
  inv c → returns RemoveHistoryCacheOldest c.
Proof.
  intros Hinv. destruct (inv_hist _ Hinv) as (Hnd & Hm & Hl).
  unfold RemoveHistoryCacheOldest. ret_step.
  destruct (list_.Front (hll (historyCache c))) as [ele|] eqn:Hfront;
    [|ret_step].
  apply head_Some_elem_of in Hfront.
  destruct (Hl _ Hfront) as (e & He & _ & [v Hv]).
  ret_step. apply (returns_load _ _ e); [done|]. rewrite Hv. ret_steps.
Qed.

Lemma Add_history_returns c key v :
  inv c → mp c !! key = None → returns (Add_history key (Some v)) c.
Proof.
  intros Hinv Hmp. unfold Add_history. ret_step.
  destruct (hmp (historyCache c) !! key) as [ele|] eqn:Hhmp.
  - destruct (inv_hist _ Hinv) as (Hnd & Hm & Hl).
    destruct (Hm _ _ Hhmp) as (Hin & _).
    destruct (Hl _ Hin) as (e & He & _ & [old Hold]).
    ret_steps. apply (returns_load _ _ e); [done|]. rewrite Hold. ret_steps.
  - ret_steps.
    match goal with |- returns (if ?b then _ else _) _ => destruct b end;
      [|ret_step].
    apply RemoveHistoryCacheOldest_returns. by apply inv_history_insert.
Qed.

Lemma Add_promote_returns c key v :
  inv c → mp c !! key = None → 0 ≤ maxBytes c → 1 ≤ k (historyCache c) →
  returns (Add_promote key (Some v)) c.
Proof.
  intros Hinv Hmp Hmax Hk. unfold Add_promote. ret_step.
  destruct (Z.leb_spec (k (historyCache c)) (cnt_at key (historyCache c)))
    as [Hcnt|_]; [|ret_step].
  assert (is_Some (hmp (historyCache c) !! key)) as [ele Hele].
  { apply elem_of_dom. rewrite <-(inv_cnt _ Hinv). apply elem_of_dom.
    unfold cnt_at in Hcnt. destruct (cnt (historyCache c) !! key); [eauto|].
    simpl in Hcnt. lia. }
  destruct (inv_hist _ Hinv) as (Hnd & Hm & Hl).
  destruct (Hm _ _ Hele) as (Hin & _).
  destruct (Hl _ Hin) as (e & He & _ & [old Hold]).
  pose proof (fresh_not_main _ Hinv) as Hn1.
  pose proof (fresh_not_history _ Hinv) as Hn2.
  eapply returns_bind.
  - apply AddToCache_returns; [|done..]. split; apply Hinv.
  - apply AddToCache_spec; [|done..]. split; apply Hinv.
  - cbn beta. intros _ c2 _ _ (_ & Hh2 & Hheap2 & _).
    ret_step. rewrite Hh2, Hele.
    assert (heap c2 !! ele = Some e) as He2.
    { rewrite Hheap2, lookup_insert_ne; [done|]. by intros <-. }
    apply (returns_load _ _ e); [done|]. rewrite Hold. ret_steps.
Qed.

(** For a cache with a budget that is not negative and a threshold of at
    least 1, in a state reached by calls that returned, [Add] of a value
    returns. *)
Theorem Add_returns c key v :
  reachable c → 0 ≤ maxBytes c → 1 ≤ k (historyCache c) →
  ∃ c' ev, Add key (Some v) c = Ret tt c' ev.
Proof.
  intros Hinv%reachable_inv Hmax Hk.
  assert (returns (Add key (Some v)) c) as ([] & c' & ev & Hret); [|eauto].
  unfold Add. ret_step.
  destruct (mp c !! key) as [ele|] eqn:Hmp.
  - destruct (inv_main _ Hinv) as (Hnd & Hm & Hl).
    destruct (Hm _ _ Hmp) as (Hin & _).
    destruct (Hl _ Hin) as (e & He & _ & [old Hold]).
    ret_step. apply (returns_load _ _ e); [done|]. rewrite Hold. ret_steps.
  - eapply returns_bind;
      [by apply Add_history_returns|by apply Add_history_spec|].
    cbn beta. intros _ c1 _ _ (Hinv1 & Hmp1 & Hmax1 & Hk1).
    apply Add_promote_returns; [done|done|lia|lia].
Qed.

(** [Get] returns exactly when it does not promote: in a state reached
    by calls that returned, it returns unless the key is in the history
    queue and its incremented counter reaches k. *)
Theorem Get_returns c key :
  reachable c →
  ¬ (mp c !! key = None ∧ is_Some (hmp (historyCache c) !! key)
     ∧ k (historyCache c) ≤ add64 (cnt_at key (historyCache c)) 1) →
  ∃ r c' ev, Get key c = Ret r c' ev.
Proof.
  intros Hinv%reachable_inv Hno. change (returns (Get key) c).
  unfold Get. ret_step.
  destruct (mp c !! key) as [ele|] eqn:Hmp.
  - destruct (inv_main _ Hinv) as (Hnd & Hm & Hl).
    destruct (Hm _ _ Hmp) as (Hin & e & He & _).
    ret_step. apply (returns_load _ _ e); [done|]. ret_step.
  - destruct (hmp (historyCache c) !! key) as [ele|] eqn:Hhmp; [|ret_step].
    destruct (inv_hist _ Hinv) as (Hnd & Hm & Hl).
    destruct (Hm _ _ Hhmp) as (Hin & e & He & _).
    ret_steps. simpl. unfold cnt_at at 1. simpl. rewrite lookup_insert_eq. simpl.
    destruct (Z.leb_spec (k (historyCache c))
                (add64 (cnt_at key (historyCache c)) 1)) as [Hle|_].
    { exfalso. apply Hno. eauto. }
    ret_step. apply (returns_load _ _ e); [done|]. ret_step.
Qed.
End methods.

Section frame.
Import lru.
Context {V : Type} `{!Value V}.
Implicit Types (c : Cache V).

End frame.

Section witnesses.
Import lru lru_test.

Lemma demo_state_reachable : reachable demo_state.
Proof. exists 0, false, 2, demo_calls, []. vm_compute. reflexivity. Qed.

Example demo_state_keys :
  main_keys demo_state = ["x"] ∧ history_keys demo_state = ["y"; "z"].
Proof. split; vm_compute; reflexivity. Qed.

Lemma main_and_history_disjoint_witness :
  reachable demo_state
  ∧ ¬ (is_Some (mp demo_state !! "y")
       ∧ is_Some (hmp (historyCache demo_state) !! "y"))
  ∧ ¬ ("y" ∈ main_keys demo_state ∧ "y" ∈ history_keys demo_state).
Proof.
  assert (reachable demo_state) as H
      by (exists 0, false, 2, demo_calls, []; vm_compute; reflexivity).
  split; [exact H | apply (main_and_history_disjoint demo_state "y" H)].
Defined.

Lemma counter_iff_in_history_witness :
  reachable demo_state
  ∧ (is_Some (cnt (historyCache demo_state) !! "y")
     ↔ "y" ∈ history_keys demo_state)
  ∧ (is_Some (cnt (historyCache demo_state) !! "y")
     ↔ is_Some (hmp (historyCache demo_state) !! "y")).
Proof.
  assert (reachable demo_state) as H
      by (exists 0, false, 2, demo_calls, []; vm_compute; reflexivity).
  split; [exact H | apply (counter_iff_in_history demo_state "y" H)].
Defined.

End witnesses.

(** ** The LRU-K cache, call by call *)

Section lru_k.
Import lru.
Context {V : Type} `{!Value V}.
Implicit Types (c : Cache V).

Ltac wp_step :=
  lazymatch goal with
  | |- wp (bind get_state _) _ _ => apply wp_bind, wp_get_state
  | |- wp (bind (modify _) _) _ _ => apply wp_bind, wp_modify
  | |- wp (bind (cnt_incr _) _) _ _ => apply wp_bind, wp_modify
  | |- wp (bind (store_value _ _) _) _ _ => apply wp_bind, wp_modify
  | |- wp (bind (ret _) _) _ _ => apply wp_bind, wp_ret
  | |- wp (bind (emit _) _) _ _ => apply wp_bind, wp_emit
  | |- wp (bind (panic _) _) _ _ => apply wp_bind, wp_panic
  | |- wp (bind (load _) _) _ _ =>
      let kv := fresh "kv" in let Hkv := fresh "Hkv" in
      apply wp_bind, wp_load; intros kv Hkv; simpl in Hkv
  | |- wp (bind (call_Len _) _) _ _ =>
      let v := fresh "v" in let Hv := fresh "Hv" in
      apply wp_bind, wp_call_Len; intros v Hv
  | |- wp (bind (new_element _ _) _) _ _ => apply wp_bind, wp_new_element
  | |- wp (bind (bind _ _) _) _ _ => apply wp_bind
  | |- wp (ret _) _ _ => apply wp_ret
  | |- wp (modify _) _ _ => apply wp_modify
  | |- wp (store_value _ _) _ _ => apply wp_modify
  | |- wp (emit _) _ _ => apply wp_emit
  | |- wp (panic _) _ _ => apply wp_panic
  | |- wp diverge _ _ => apply wp_diverge
  end; cbn beta.

Ltac wp_if :=
  lazymatch goal with
  | |- wp (if ?b then _ else _) _ _ => destruct b eqn:?
  | |- wp (bind (if ?b then _ else _) _) _ _ => destruct b eqn:?
  end.

Ltac wp_steps := repeat wp_step.

Section keys.
Implicit Types (l : list ptr) (m : gmap string ptr) (h : gmap ptr (entry V)).

Lemma keys_of_app h l1 l2 : keys_of h (l1 ++ l2) = keys_of h l1 ++ keys_of h l2.
Proof. unfold keys_of. apply omap_app. Qed.

Lemma keys_of_cons h p l e :
  h !! p = Some e → keys_of h (p :: l) = key e :: keys_of h l.
Proof. intros He. unfold keys_of. simpl. by rewrite He. Qed.

Lemma queue_wf_lookup l m h p :
  queue_wf l m h → p ∈ l →
  ∃ e, h !! p = Some e ∧ m !! key e = Some p ∧ is_Some (value e).
Proof. intros (_ & _ & Hl). apply Hl. Qed.

(** Two elements of a well-formed queue with the same key are the same. *)
Lemma queue_wf_key_inj l m h p q e e' :
  queue_wf l m h → p ∈ l → q ∈ l → h !! p = Some e → h !! q = Some e' →
  key e = key e' → p = q.
Proof.
  intros Hwf Hp Hq He He' Hk.
  destruct (queue_wf_lookup _ _ _ _ Hwf Hp) as (e1 & He1 & Hm1 & _).
  destruct (queue_wf_lookup _ _ _ _ Hwf Hq) as (e2 & He2 & Hm2 & _).
  assert (e1 = e) as -> by congruence. assert (e2 = e') as -> by congruence.
  rewrite Hk in Hm1. congruence.
Qed.

(** The keys of a part of a well-formed queue. *)
Lemma keys_of_sub l m h l0 :
  queue_wf l m h → l0 ⊆ l →
  length (keys_of h l0) = length l0
  ∧ (NoDup l0 → NoDup (keys_of h l0))
  ∧ (∀ key, key ∈ keys_of h l0 ↔ ∃ p e, p ∈ l0 ∧ h !! p = Some e ∧ lru.key e = key).
Proof.
  intros Hwf. induction l0 as [|p l0 IH]; intros Hsub.
  { split_and!; [done|constructor|]. intros key. split.
    - by intros ?%not_elem_of_nil.
    - by intros (p & e & ?%not_elem_of_nil & _). }
  assert (p ∈ l) as Hp by (apply Hsub; left).
  destruct (queue_wf_lookup _ _ _ _ Hwf Hp) as (e & He & Hm & _).
  destruct IH as (IH1 & IH2 & IH3); [intros q Hq; apply Hsub; by right|].
  rewrite (keys_of_cons _ _ _ _ He). split_and!.
  - simpl. by rewrite IH1.
  - intros [Hnp Hnd]%NoDup_cons. apply NoDup_cons. split; [|by apply IH2].
    intros (q & e' & Hq & He' & Hk)%IH3. apply Hnp.
    assert (q ∈ l) as Hql by (apply Hsub; by right).
    by rewrite (queue_wf_key_inj _ _ _ _ _ _ _ Hwf Hp Hql He He').
  - intros key. rewrite elem_of_cons, IH3. split.
    + intros [->|(q & e' & Hq & He' & Hk)].
      * exists p, e. split_and!; [left|done|done].
      * exists q, e'. split_and!; [by right|done|done].
    + intros (q & e' & [->|Hq]%elem_of_cons & He' & Hk).
      * left. congruence.
      * right. eauto.
Qed.

Lemma keys_of_length l m h : queue_wf l m h → length (keys_of h l) = length l.
Proof. intros Hwf. by apply (keys_of_sub l m h l Hwf). Qed.

Lemma keys_of_NoDup l m h : queue_wf l m h → NoDup (keys_of h l).
Proof. intros Hwf. apply (keys_of_sub l m h l Hwf); [done|apply Hwf]. Qed.

Lemma keys_of_Remove l m h p e :
  queue_wf l m h → p ∈ l → h !! p = Some e →
  keys_of h (list_.Remove p l) = filter (λ k0, k0 ≠ key e) (keys_of h l).
Proof.
  intros Hwf Hp He.
  assert (∀ l0, l0 ⊆ l →
            keys_of h (list_.Remove p l0)
            = filter (λ k0, k0 ≠ key e) (keys_of h l0)) as Hgen; [|by apply Hgen].
  induction l0 as [|q l0 IH]; intros Hsub; [done|].
  assert (q ∈ l) as Hq by (apply Hsub; left).
  destruct (queue_wf_lookup _ _ _ _ Hwf Hq) as (e' & He' & _).
  rewrite (keys_of_cons _ _ _ _ He'). unfold list_.Remove in *.
  destruct (decide (q = p)) as [->|Hne].
  - assert (e' = e) as -> by congruence.
    rewrite !filter_cons_False by tauto.
    apply IH. intros q0 Hq0. apply Hsub. by right.
  - rewrite filter_cons_True by done. rewrite (keys_of_cons _ _ _ _ He').
    rewrite filter_cons_True.
    + f_equal. apply IH. intros q0 Hq0. apply Hsub. by right.
    + intros Hk. apply Hne.
      by apply (queue_wf_key_inj _ _ _ _ _ _ _ Hwf Hq Hp He' He).
Qed.
End keys.

Section lookups.
(** *** What [Get] computes *)

Lemma Get_in_main c key ele e :
  mp c !! key = Some ele → heap c !! ele = Some e →
  Get key c = Ret (value e, true) (set_ll (list_.MoveToFront ele) c) [].
Proof.
  intros Hmp He. unfold Get. rewrite bind_get_state, Hmp, bind_modify.
  by erewrite bind_load by exact He.
Qed.

Lemma Get_in_history c key ele e :
  mp c !! key = None → hmp (historyCache c) !! key = Some ele →
  heap c !! ele = Some e →
  add64 (cnt_at key (historyCache c)) 1 < k (historyCache c) →
  Get key c
  = Ret (value e, true)
        (set_history (set_hll (list_.MoveToBack ele))
           (set_history
              (set_cnt <[key := add64 (cnt_at key (historyCache c)) 1]>) c)) [].
Proof.
  intros Hmp Hhmp He Hk. unfold Get. rewrite bind_get_state, Hmp, Hhmp.
  unfold cnt_incr. rewrite bind_modify, bind_get_state. simpl.
  unfold cnt_at at 1. simpl. rewrite lookup_insert_eq. simpl.
  destruct (Z.leb_spec (k (historyCache c))
              (add64 (cnt_at key (historyCache c)) 1)) as [Hle|_]; [lia|].
  rewrite bind_modify. by erewrite bind_load by exact He.
Qed.

Lemma Get_in_neither c key :
  mp c !! key = None → hmp (historyCache c) !! key = None →
  Get key c = Ret (None, false) c [].
Proof.
  intros Hmp Hhmp. unfold Get. by rewrite bind_get_state, Hmp, Hhmp.
Qed.

Lemma main_keys_index c key :
  inv c → key ∈ main_keys c ↔ is_Some (mp c !! key).
Proof. intros Hinv. apply queue_wf_keys, Hinv. Qed.

Lemma history_keys_index c key :
  inv c → key ∈ history_keys c ↔ is_Some (hmp (historyCache c) !! key).
Proof. intros Hinv. apply queue_wf_keys, Hinv. Qed.

Lemma main_index_entry c key ele :
  inv c → mp c !! key = Some ele →
  ele ∈ ll c ∧ ∃ v, heap c !! ele = Some (Entry key (Some v)).
Proof.
  intros Hinv Hmp. destruct (inv_main _ Hinv) as (_ & Hm & Hl).
  destruct (Hm _ _ Hmp) as (Hin & e & He & Hk). split; [done|].
  destruct (Hl _ Hin) as (e' & He' & _ & [v Hv]).
  assert (e' = e) as -> by congruence. exists v.
  destruct e; simpl in *; by subst.
Qed.

Lemma history_index_entry c key ele :
  inv c → hmp (historyCache c) !! key = Some ele →
  ele ∈ hll (historyCache c) ∧ ∃ v, heap c !! ele = Some (Entry key (Some v)).
Proof.
  intros Hinv Hmp. destruct (inv_hist _ Hinv) as (_ & Hm & Hl).
  destruct (Hm _ _ Hmp) as (Hin & e & He & Hk). split; [done|].
  destruct (Hl _ Hin) as (e' & He' & _ & [v Hv]).
  assert (e' = e) as -> by congruence. exists v.
  destruct e; simpl in *; by subst.
Qed.

(** A key that neither queue holds: [Get] reports a miss and changes
    nothing. *)
Theorem Get_absent_key c key :
  reachable c → key ∉ main_keys c → key ∉ history_keys c →
  Get key c = Ret (None, false) c [].
Proof.
  intros Hinv%reachable_inv Hm Hh. apply Get_in_neither.
  - rewrite main_keys_index in Hm by done. by apply eq_None_not_Some.
  - rewrite history_keys_index in Hh by done. by apply eq_None_not_Some.
Qed.

(** A key of the main queue: [Get] returns its value and moves it to the
    front; the other keys keep their order and nothing else changes. *)
Theorem Get_main_hit c key :
  reachable c → key ∈ main_keys c →
  ∃ ele v,
    main_value c key = Some (Some v)
    ∧ Get key c = Ret (Some v, true) (set_ll (list_.MoveToFront ele) c) []
    ∧ main_keys (set_ll (list_.MoveToFront ele) c)
      = key :: filter (λ k0, k0 ≠ key) (main_keys c).
Proof.
  intros Hinv%reachable_inv [ele Hmp]%main_keys_index; [|done].
  destruct (main_index_entry _ _ _ Hinv Hmp) as (Hin & v & He).
  exists ele, v. split_and!.
  - unfold main_value. rewrite Hmp. simpl. by rewrite He.
  - by rewrite (Get_in_main _ _ _ _ Hmp He).
  - unfold main_keys. simpl. unfold list_.MoveToFront.
    rewrite decide_True by done. rewrite (keys_of_cons _ _ _ _ He).
    by rewrite (keys_of_Remove _ _ _ _ _ (inv_main _ Hinv) Hin He).
Qed.

Lemma Get_lookup_spec c key r ok c' ev :
  reachable c → Get key c = Ret (r, ok) c' ev →
  ev = []
  ∧ (∀ key', stored_value c' key' = stored_value c key')
  ∧ ((ok = true ∧ stored_value c key = Some r)
     ∨ (ok = false ∧ r = None ∧ stored_value c key = None ∧ c' = c)).
Proof.
  intros Hinv%reachable_inv Hget. unfold stored_value, main_value, history_value.
  destruct (mp c !! key) as [ele|] eqn:Hmp.
  - destruct (main_index_entry _ _ _ Hinv Hmp) as (Hin & v & He).
    rewrite (Get_in_main _ _ _ _ Hmp He) in Hget.
    injection Hget as <- <- <- <-. split_and!; [done|done|left].
    simpl. by rewrite He.
  - destruct (hmp (historyCache c) !! key) as [ele|] eqn:Hhmp.
    + destruct (history_index_entry _ _ _ Hinv Hhmp) as (Hin & v & He).
      destruct (Z.le_gt_cases (k (historyCache c))
                  (add64 (cnt_at key (historyCache c)) 1)) as [Hle|Hgt].
      { destruct (Get_promotion_never_returns c key ele Hmp Hhmp Hle) as [s Hs].
        congruence. }
      rewrite (Get_in_history _ _ _ _ Hmp Hhmp He) in Hget by lia.
      injection Hget as <- <- <- <-. split_and!; [done|done|left].
      simpl. by rewrite He.
    + rewrite (Get_in_neither _ _ Hmp Hhmp) in Hget.
      injection Hget as <- <- <- <-. split_and!; [done|done|by right].
Qed.

(** Whenever [Get] returns, it reports what the cache stores under the
    key, in the main queue or in the history queue, or a miss when
    neither holds it; it calls no callback and leaves every stored value
    as it was. *)
Theorem Get_lookup c key r ok c' ev :
  reachable c → Get key c = Ret (r, ok) c' ev →
  ev = []
  ∧ (∀ key', stored_value c' key' = stored_value c key')
  ∧ ((ok = true ∧ stored_value c key = Some r)
     ∨ (ok = false ∧ r = None ∧ stored_value c key = None ∧ c' = c)).
Proof. apply Get_lookup_spec. Qed.

(** No key twice: the keys of the main queue followed by those of the
    history queue have no duplicate, and [Len] is the number of keys of
    the main index. *)
Theorem keys_unique c :
  reachable c →
  NoDup (main_keys c ++ history_keys c)
  ∧ Cache_Len c = Z.of_nat (size (mp c)).
Proof.
  intros Hinv%reachable_inv. split.
  - apply NoDup_app. split_and!.
    + apply (keys_of_NoDup _ _ _ (inv_main _ Hinv)).
    + intros key Hm Hh. rewrite main_keys_index in Hm by done.
      rewrite history_keys_index in Hh by done.
      apply (inv_disj _ Hinv key); by apply elem_of_dom.
    + apply (keys_of_NoDup _ _ _ (inv_hist _ Hinv)).
  - unfold Cache_Len. f_equal.
    rewrite <-(keys_of_length _ _ _ (inv_main _ Hinv)).
    fold (main_keys c).
    rewrite <-size_dom, <-(size_list_to_set (C:=gset string) (main_keys c))
      by apply (keys_of_NoDup _ _ _ (inv_main _ Hinv)).
    f_equal. apply set_eq. intros key.
    by rewrite elem_of_list_to_set, elem_of_dom, main_keys_index.
Qed.
End lookups.

Section frames.
Lemma same_config_refl c : same_config c c.
Proof. by repeat split. Qed.

Lemma same_config_trans c1 c2 c3 :
  same_config c1 c2 → same_config c2 c3 → same_config c1 c3.
Proof.
  intros (H1 & H2 & H3 & H4) (G1 & G2 & G3 & G4). split_and!; congruence.
Qed.

Lemma wp_and {S E A} (m : M S E A) s (Q1 Q2 : A → S → list E → Prop) :
  wp m s Q1 → wp m s Q2 → wp m s (λ a s' ev, Q1 a s' ev ∧ Q2 a s' ev).
Proof. unfold wp. destruct (m s); auto. Qed.

Lemma RemoveCacheOldest_config c :
  wp RemoveCacheOldest c
     (λ _ c' _, same_config c c' ∧ historyCache c' = historyCache c).
Proof.
  unfold RemoveCacheOldest. wp_step.
  destruct (list_.Back (ll c)); [|wp_step; by repeat split].
  wp_steps; wp_if; wp_step; by repeat split.
Qed.

Lemma evict_loop_exit fuel c :
  wp (evict_loop fuel) c
     (λ _ c' _, over_budget c' = false ∧ same_config c c'
                ∧ historyCache c' = historyCache c).
Proof.
  revert c. induction fuel as [|fuel IH]; intros c; simpl.
  - wp_step. destruct (over_budget c) eqn:Hover;
      [|wp_step; by repeat split].
    destruct (list_.Back (ll c)); wp_step.
  - wp_step. destruct (over_budget c) eqn:Hover;
      [|wp_step; by repeat split].
    destruct (list_.Back (ll c)); [|wp_step].
    apply wp_bind. eapply wp_mono; [apply RemoveCacheOldest_config|].
    intros [] c1 ev1 [Hc1 Hh1]. eapply wp_mono; [apply IH|].
    intros _ c2 _ (Hover2 & Hc2 & Hh2).
    split_and!; [done|by eapply same_config_trans|congruence].
Qed.

Lemma AddToCache_exit c key value :
  wp (AddToCache key value) c
     (λ _ c' _, over_budget c' = false ∧ same_config c c'
                ∧ historyCache c' = historyCache c).
Proof.
  unfold AddToCache. wp_steps. eapply wp_mono; [apply evict_loop_exit|].
  simpl. intros _ c' _ (Hover & Hc & Hh). split_and!; [done|apply Hc|done].
Qed.

Lemma RemoveHistoryCacheOldest_frame c :
  wp RemoveHistoryCacheOldest c (λ _ c' _, same_config c c' ∧ same_main c c').
Proof.
  unfold RemoveHistoryCacheOldest. wp_step.
  destruct (list_.Front (hll (historyCache c)));
    [|wp_step; by repeat split].
  wp_steps; wp_if; wp_step; by repeat split.
Qed.

Lemma Add_history_frame c key value :
  wp (Add_history key value) c (λ _ c' _, same_config c c' ∧ same_main c c').
Proof.
  unfold Add_history. wp_step.
  destruct (hmp (historyCache c) !! key).
  - wp_steps. by repeat split.
  - wp_steps. wp_if; [|wp_step; by repeat split].
    eapply wp_mono; [apply RemoveHistoryCacheOldest_frame|].
    simpl. intros _ c' _ [Hc Hm]. split; [apply Hc|apply Hm].
Qed.

Lemma Add_promote_frame c key value :
  wp (Add_promote key value) c
     (λ _ c' _, same_config c c'
                ∧ (over_budget c' = false ∨ same_main c c')).
Proof.
  unfold Add_promote. wp_step.
  destruct (k (historyCache c) <=? cnt_at key (historyCache c));
    [|wp_step; split; [apply same_config_refl|by right]].
  apply wp_bind. eapply wp_mono; [apply AddToCache_exit|].
  cbn beta. intros _ c1 _ (Hover & (H1 & H2 & H3 & H4) & _). wp_step.
  destruct (hmp (historyCache c1) !! key); [|wp_step].
  wp_steps. split; [by repeat split|by left].
Qed.

Lemma Add_config c key value :
  wp (Add key value) c (λ _ c' _, same_config c c').
Proof.
  unfold Add. wp_step. destruct (mp c !! key).
  - wp_steps. by repeat split.
  - apply wp_bind. eapply wp_mono; [apply Add_history_frame|].
    cbn beta. intros _ c1 _ [Hc1 _].
    eapply wp_mono; [apply Add_promote_frame|].
    cbn beta. intros _ c2 _ [Hc2 _]. by eapply same_config_trans.
Qed.

Lemma Get_frame c key :
  wp (Get key) c (λ _ c' _, same_config c c' ∧ useBytes c' = useBytes c).
Proof.
  unfold Get. wp_step. destruct (mp c !! key).
  - wp_steps. by repeat split.
  - destruct (hmp (historyCache c) !! key); [|wp_step; by repeat split].
    wp_steps. wp_if.
    + apply wp_bind. unfold AddToCache. wp_steps. done.
    + wp_steps. by repeat split.
Qed.

Lemma do_calls_config cls c :
  wp (do_calls cls) c (λ _ c' _, same_config c c').
Proof.
  revert c. induction cls as [|cl cls IH]; intros c; simpl;
    [wp_step; apply same_config_refl|].
  apply wp_bind. destruct cl as [key value|key]; simpl.
  - eapply wp_mono; [apply Add_config|]. cbn beta. intros _ c1 _ Hc1.
    eapply wp_mono; [apply IH|]. cbn beta. intros _ c2 _ Hc2.
    by eapply same_config_trans.
  - apply wp_bind. eapply wp_mono; [apply Get_frame|].
    cbn beta. intros _ c1 _ [Hc1 _]. wp_step.
    eapply wp_mono; [apply IH|]. cbn beta. intros _ c2 _ Hc2.
    by eapply same_config_trans.
Qed.

Lemma do_calls_configuration maxBytes0 onEvicted k0 cls c ev :
  do_calls cls (New maxBytes0 onEvicted k0) = Ret tt c ev →
  maxBytes c = maxBytes0 ∧ hmaxBytes (historyCache c) = maxBytes0
  ∧ k (historyCache c) = k0 ∧ OnEvicted c = onEvicted.
Proof.
  intros Hrun.
  destruct (wp_elim _ _ _ _ _ _ (do_calls_config cls _) Hrun)
    as (H1 & H2 & H3 & H4).
  by split_and!.
Qed.

(** A cache keeps the configuration it was built with: whatever the
    calls, the budget of both queues is the [maxBytes] given to [New],
    the threshold is its [k] and the callback is the one installed. *)
Theorem configuration_constant maxBytes0 onEvicted k0 cls c ev :
  do_calls cls (New maxBytes0 onEvicted k0) = Ret tt c ev →
  maxBytes c = maxBytes0 ∧ hmaxBytes (historyCache c) = maxBytes0
  ∧ k (historyCache c) = k0 ∧ OnEvicted c = onEvicted.
Proof. apply do_calls_configuration. Qed.

Lemma reachable_budgets c :
  reachable c → hmaxBytes (historyCache c) = maxBytes c.
Proof.
  intros (mb & on & k0 & cls & ev & Hrun).
  destruct (do_calls_configuration _ _ _ _ _ _ Hrun) as (-> & -> & _). done.
Qed.

Lemma over_budget_false c :
  over_budget c = false ↔ maxBytes c = 0 ∨ useBytes c ≤ maxBytes c.
Proof.
  unfold over_budget.
  destruct (Z.eqb_spec (maxBytes c) 0), (Z.ltb_spec (maxBytes c) (useBytes c));
    simpl; split; intros; try done; try lia; auto.
Qed.

(** Only the update of a key of the main queue can push the main queue
    over its budget: an [Add] of any other key, and every [Get], return
    with the main queue within its budget if it was so before. *)
Theorem main_budget_kept c :
  maxBytes c = 0 ∨ useBytes c ≤ maxBytes c →
  (∀ key value c' ev,
      mp c !! key = None → Add key value c = Ret tt c' ev →
      maxBytes c' = 0 ∨ useBytes c' ≤ maxBytes c')
  ∧ (∀ key r c' ev,
        Get key c = Ret r c' ev →
        maxBytes c' = 0 ∨ useBytes c' ≤ maxBytes c').
Proof.
  intros Hb%over_budget_false. split.
  - intros key value c' ev Hmp Hadd. apply over_budget_false.
    refine (wp_elim _ _ (λ _ c' _, over_budget c' = false) _ _ _ _ Hadd).
    unfold Add. wp_step. rewrite Hmp.
    apply wp_bind. eapply wp_mono; [apply Add_history_frame|].
    cbn beta. intros _ c1 _ [(Hmax1 & _) (_ & _ & Huse1)].
    eapply wp_mono; [apply Add_promote_frame|].
    cbn beta. intros _ c2 _ [(Hmax2 & _) [Hover|(_ & _ & Huse2)]]; [done|].
    unfold over_budget in *. by rewrite Hmax2, Huse2, Hmax1, Huse1.
  - intros key r c' ev Hget. apply over_budget_false.
    refine (wp_elim _ _ (λ _ c' _, over_budget c' = false) _ _ _ _ Hget).
    eapply wp_mono; [apply Get_frame|].
    cbn beta. intros _ c1 _ [(Hmax1 & _) Huse1].
    unfold over_budget in *. by rewrite Hmax1, Huse1.
Qed.
End frames.

Section eviction.
Lemma Remove_last (l : list ptr) p :
  NoDup (l ++ [p]) → list_.Remove p (l ++ [p]) = l.
Proof.
  intros (_ & Hnp & _)%NoDup_app. unfold list_.Remove.
  rewrite filter_app, filter_cons_False, filter_nil, app_nil_r by tauto.
  apply (Remove_not_elem (V:=V) ∅). intros Hp. apply (Hnp _ Hp). left.
Qed.

Lemma Remove_first (l : list ptr) p :
  NoDup (p :: l) → list_.Remove p (p :: l) = l.
Proof.
  intros [Hnp _]%NoDup_cons. unfold list_.Remove.
  rewrite filter_cons_False by tauto. by apply (Remove_not_elem (V:=V) ∅).
Qed.

(** What [RemoveCacheOldest] computes on a list that is not empty. *)
Lemma RemoveCacheOldest_last c ele kk v :
  list_.Back (ll c) = Some ele → heap c !! ele = Some (Entry kk (Some v)) →
  RemoveCacheOldest c
  = Ret tt
        (set_useBytes (λ u, sub64 u (add64 (Len v) (len kk)))
           (set_mp (delete kk) (set_ll (list_.Remove ele) c)))
        (if OnEvicted c then [(kk, Some v)] else []).
Proof.
  intros Hback He. unfold RemoveCacheOldest.
  rewrite bind_get_state, Hback, bind_modify.
  erewrite bind_load by exact He. cbn [value key].
  rewrite bind_modify, bind_call_Len, bind_modify, bind_get_state. simpl.
  by destruct (OnEvicted c).
Qed.

Lemma RemoveHistoryCacheOldest_first c ele kk v :
  list_.Front (hll (historyCache c)) = Some ele →
  heap c !! ele = Some (Entry kk (Some v)) →
  RemoveHistoryCacheOldest c
  = Ret tt
        (set_history (set_huseBytes (λ u, sub64 u (add64 (Len v) (len kk))))
           (set_history (set_cnt (delete kk))
              (set_history (set_hmp (delete kk))
                 (set_history (set_hll (list_.Remove ele)) c))))
        (if OnEvicted c then [(kk, Some v)] else []).
Proof.
  intros Hfront He. unfold RemoveHistoryCacheOldest.
  rewrite bind_get_state, Hfront, bind_modify.
  erewrite bind_load by exact He. cbn [value key].
  rewrite !bind_modify, bind_call_Len, bind_modify, bind_get_state. simpl.
  by destruct (OnEvicted c).
Qed.

(** [RemoveCacheOldest] evicts the least recently used entry: the last
    key of the main queue leaves, the callback (when installed) is called
    once with that key and its stored value, the other keys stay in
    order, and the bytes used go down by the size of the entry. *)
Theorem RemoveCacheOldest_evicts_last c ks kk :
  reachable c → main_keys c = ks ++ [kk] →
  ∃ v c',
    main_value c kk = Some (Some v)
    ∧ RemoveCacheOldest c
      = Ret tt c' (if OnEvicted c then [(kk, Some v)] else [])
    ∧ main_keys c' = ks
    ∧ mp c' = delete kk (mp c)
    ∧ useBytes c' = sub64 (useBytes c) (add64 (Len v) (len kk))
    ∧ historyCache c' = historyCache c.
Proof.
  intros Hinv%reachable_inv Hkeys.
  pose proof (inv_main _ Hinv) as Hwf. unfold main_keys in Hkeys.
  destruct (last (ll c)) as [ele|] eqn:Hlast;
    [|apply last_None in Hlast; rewrite Hlast in Hkeys; by destruct ks].
  apply last_Some in Hlast as [l' Hll].
  assert (ele ∈ ll c) as Hin by (rewrite Hll, elem_of_app; right; left).
  destruct (queue_wf_lookup _ _ _ _ Hwf Hin) as (e & He & Hm & [v Hv]).
  rewrite Hll, keys_of_app, (keys_of_cons _ _ _ _ He) in Hkeys.
  apply app_inj_tail in Hkeys as [Hks Hkk].
  destruct e as [key0 value0]. simpl in *. subst key0 value0.
  assert (list_.Back (ll c) = Some ele) as Hback
    by (rewrite Hll; apply last_snoc).
  eexists v, _. split_and!.
  - unfold main_value. rewrite Hm. simpl. by rewrite He.
  - by apply RemoveCacheOldest_last.
  - unfold main_keys. simpl. rewrite Hll, Remove_last; [done|].
    rewrite <-Hll. apply Hwf.
  - done.
  - done.
  - done.
Qed.

(** [RemoveHistoryCacheOldest] is first in, first out: the first key of
    the history queue leaves together with its hit counter, the callback
    (when installed) is called once with that key and its stored value,
    and the main queue is left alone. *)
Theorem RemoveHistoryCacheOldest_evicts_first c kk ks :
  reachable c → history_keys c = kk :: ks →
  ∃ v c',
    history_value c kk = Some (Some v)
    ∧ RemoveHistoryCacheOldest c
      = Ret tt c' (if OnEvicted c then [(kk, Some v)] else [])
    ∧ history_keys c' = ks
    ∧ cnt (historyCache c') = delete kk (cnt (historyCache c))
    ∧ main_keys c' = main_keys c
    ∧ useBytes c' = useBytes c.
Proof.
  intros Hinv%reachable_inv Hkeys.
  pose proof (inv_hist _ Hinv) as Hwf. unfold history_keys in Hkeys.
  destruct (hll (historyCache c)) as [|ele l'] eqn:Hll; [done|].
  assert (ele ∈ ele :: l') as Hin by left.
  destruct (queue_wf_lookup _ _ _ _ Hwf Hin) as (e & He & Hm & [v Hv]).
  rewrite (keys_of_cons _ _ _ _ He) in Hkeys. injection Hkeys as Hkk Hks.
  destruct e as [key0 value0]. simpl in *. subst key0 value0.
  eexists v, _. split_and!.
  - unfold history_value. rewrite Hm. simpl. by rewrite He.
  - apply RemoveHistoryCacheOldest_first; [by rewrite Hll|done].
  - unfold history_keys. simpl. rewrite Hll, Remove_first; [done|].
    apply Hwf.
  - done.
  - done.
  - done.
Qed.
End eviction.

Section pass_through.
Lemma history_empty_index c :
  inv c → hll (historyCache c) = [] →
  hmp (historyCache c) = ∅ ∧ cnt (historyCache c) = ∅.
Proof.
  intros Hinv Hll.
  assert (hmp (historyCache c) = ∅) as Hhmp.
  { apply map_empty. intros key.
    destruct (hmp (historyCache c) !! key) as [p|] eqn:Hp; [|done].
    destruct (inv_hist _ Hinv) as (_ & Hm & _).
    destruct (Hm _ _ Hp) as [Hin _]. rewrite Hll in Hin.
    by apply not_elem_of_nil in Hin. }
  split; [done|]. apply dom_empty_iff_L.
  by rewrite (inv_cnt _ Hinv), Hhmp, dom_empty_L.
Qed.

Lemma Add_keeps_history_empty c key value :
  inv c → k (historyCache c) ≤ 1 → hll (historyCache c) = [] →
  wp (Add key value) c (λ _ c' _, hll (historyCache c') = []).
Proof.
  intros Hinv Hk Hll.
  destruct (history_empty_index _ Hinv Hll) as [Hhmp Hcnt].
  unfold Add. wp_step. destruct (mp c !! key) as [ele|] eqn:Hmp.
  { wp_steps. done. }
  apply wp_bind. unfold Add_history. wp_step.
  rewrite Hhmp, lookup_empty. wp_steps. subst value.
  assert (list_.Remove (next c) (list_.PushBack (next c) []) = []) as Hrm.
  { unfold list_.Remove, list_.PushBack. simpl.
    rewrite filter_cons_False by tauto. done. }
  wp_if.
  - (* the history queue evicts the entry it has just taken *)
    unfold RemoveHistoryCacheOldest. wp_step. simpl. rewrite Hll. simpl.
    wp_step. wp_step. simpl in Hkv. rewrite lookup_insert_eq in Hkv.
    injection Hkv as <-. simpl. wp_steps.
    assert (∀ c1 : Cache V,
              hll (historyCache c1) = [] →
              hmp (historyCache c1) !! key = None →
              wp (Add_promote key (Some v)) c1
                 (λ _ c' _, hll (historyCache c') = [])) as Htail.
    { intros c1 Hll1 Hhmp1. unfold Add_promote. wp_step.
      destruct (k (historyCache c1) <=? cnt_at key (historyCache c1));
        [|by wp_step].
      apply wp_bind. eapply wp_mono; [apply AddToCache_exit|].
      cbn beta. intros [] c2 ev2 (_ & _ & Hh2). wp_step.
      rewrite Hh2, Hhmp1. wp_step. }
    wp_if; wp_step; apply Htail; simpl; rewrite ?Hll, ?Hrm; try done.
    all: apply lookup_delete_eq.
  - wp_step. unfold Add_promote. wp_step. simpl.
    unfold cnt_at. simpl. rewrite lookup_insert_eq, Hcnt, lookup_empty. simpl.
    change (add64 0 1) with 1.
    destruct (Z.leb_spec (k (historyCache c)) 1) as [_|Hgt]; [|lia].
    apply wp_bind. eapply wp_mono; [apply AddToCache_exit|].
    cbn beta. intros [] c2 ev2 (_ & _ & Hh2). wp_step. rewrite Hh2. simpl.
    rewrite lookup_insert_eq. wp_steps. simpl. rewrite Hh2. simpl.
    by rewrite Hll, Hrm.
Qed.

Lemma Get_keeps_history_empty c key :
  inv c → hll (historyCache c) = [] →
  wp (Get key) c (λ _ c' _, hll (historyCache c') = []).
Proof.
  intros Hinv Hll.
  destruct (history_empty_index _ Hinv Hll) as [Hhmp Hcnt].
  unfold Get. wp_step. destruct (mp c !! key); [by wp_steps|].
  rewrite Hhmp, lookup_empty. by wp_step.
Qed.

Lemma do_calls_keep_history_empty cls c :
  inv c → k (historyCache c) ≤ 1 → hll (historyCache c) = [] →
  wp (do_calls cls) c (λ _ c' _, hll (historyCache c') = []).
Proof.
  revert c. induction cls as [|cl cls IH]; intros c Hinv Hk Hll; simpl;
    [by wp_step|].
  apply wp_bind. destruct cl as [key value|key]; simpl.
  - eapply wp_mono;
      [apply wp_and; [by apply Add_keeps_inv|by apply Add_keeps_history_empty]|].
    cbn beta. intros [] c1 ev1 [(Hinv1 & _ & Hk1) Hll1].
    eapply wp_mono; [apply IH; [done|lia|done]|]. done.
  - apply wp_bind. eapply wp_mono;
      [apply wp_and; [by apply Get_keeps_inv|by apply Get_keeps_history_empty]|].
    cbn beta. intros r c1 ev1 [(Hinv1 & _ & Hk1) Hll1]. wp_step.
    eapply wp_mono; [apply IH; [done|lia|done]|]. done.
Qed.

Lemma reachable_history_empty c :
  reachable c → k (historyCache c) ≤ 1 →
  history_keys c = [] ∧ hmp (historyCache c) = ∅ ∧ cnt (historyCache c) = ∅.
Proof.
  intros Hreach Hk. pose proof (reachable_inv _ Hreach) as Hinv.
  destruct Hreach as (mb & on & k0 & cls & ev & Hrun).
  destruct (do_calls_configuration _ _ _ _ _ _ Hrun) as (_ & _ & Hk0 & _).
  assert (hll (historyCache c) = []) as Hll.
  { refine (wp_elim _ _ (λ _ c' _, hll (historyCache c') = []) _ _ _ _ Hrun).
    apply do_calls_keep_history_empty; [apply New_inv|simpl; lia|done]. }
  split; [|by apply history_empty_index].
  unfold history_keys. by rewrite Hll.
Qed.

(** With a threshold of 1 (or less) the history queue is only passed
    through: after every call that returned it is empty, with no index
    entry and no hit counter left. *)
Theorem history_empty_for_k1 c :
  reachable c → k (historyCache c) ≤ 1 →
  history_keys c = [] ∧ hmp (historyCache c) = ∅ ∧ cnt (historyCache c) = ∅.
Proof. apply reachable_history_empty. Qed.

Lemma Get_returns_k1 c key :
  reachable c → k (historyCache c) ≤ 1 →
  ∃ r c', Get key c = Ret r c' [].
Proof.
  intros Hreach Hk.
  destruct (reachable_history_empty _ Hreach Hk) as (_ & Hhmp & _).
  destruct (Get_returns c key Hreach) as (r & c' & ev & Hget).
  { intros (_ & [p Hp] & _). by rewrite Hhmp, lookup_empty in Hp. }
  destruct r as [r ok].
  destruct (Get_lookup_spec _ _ _ _ _ _ Hreach Hget) as (-> & _). eauto.
Qed.

(** With a threshold of 1 (or less) [Get] never panics: it returns in
    every state reached by calls that returned. *)
Theorem Get_returns_for_k1 c key :
  reachable c → k (historyCache c) ≤ 1 →
  ∃ r c', Get key c = Ret r c' [].
Proof. apply Get_returns_k1. Qed.
End pass_through.

Section contents.
Lemma holds_stored c key x :
  inv c → holds c (Entry key x) ↔ stored_value c key = Some x.
Proof.
  intros Hinv. unfold stored_value, main_value, history_value. split.
  - intros (p & [Hp|Hp] & He).
    + destruct (queue_wf_lookup _ _ _ _ (inv_main _ Hinv) Hp) as (e & He' & Hm & _).
      assert (e = Entry key x) as -> by congruence. simpl in Hm.
      rewrite Hm. simpl. by rewrite He.
    + destruct (queue_wf_lookup _ _ _ _ (inv_hist _ Hinv) Hp) as (e & He' & Hm & _).
      assert (e = Entry key x) as -> by congruence. simpl in Hm.
      assert (mp c !! key = None) as ->.
      { apply not_elem_of_dom. intros Hd. apply (inv_disj _ Hinv key Hd).
        apply elem_of_dom. eauto. }
      simpl. rewrite Hm. simpl. by rewrite He.
  - destruct (mp c !! key) as [p|] eqn:Hmp; simpl.
    + destruct (main_index_entry _ _ _ Hinv Hmp) as (Hin & v & He).
      rewrite He. simpl. intros [= <-]. exists p. eauto.
    + destruct (hmp (historyCache c) !! key) as [p|] eqn:Hhmp; simpl; [|done].
      destruct (history_index_entry _ _ _ Hinv Hhmp) as (Hin & v & He).
      rewrite He. simpl. intros [= <-]. exists p. eauto.
Qed.

Lemma RemoveHistoryCacheOldest_sub c :
  wp RemoveHistoryCacheOldest c
     (λ _ c' _, heap c' = heap c ∧ ll c' = ll c
                ∧ ∀ p, p ∈ hll (historyCache c') → p ∈ hll (historyCache c)).
Proof.
  unfold RemoveHistoryCacheOldest. wp_step.
  destruct (list_.Front (hll (historyCache c))); [|wp_step; by repeat split].
  wp_steps; wp_if; wp_step; simpl; split_and!; try done.
  all: by intros p [_ ?]%elem_of_Remove.
Qed.

Lemma Add_history_holds c key v :
  inv c → mp c !! key = None →
  wp (Add_history key (Some v)) c
     (λ _ c' _, ∀ e, holds c' e →
                     e = Entry key (Some v) ∨ (lru.key e ≠ key ∧ holds c e)).
Proof.
  intros Hinv Hmp. unfold Add_history. wp_step.
  pose proof (fresh_not_main _ Hinv) as Hn1.
  pose proof (fresh_not_history _ Hinv) as Hn2.
  assert (∀ p e, p ∈ ll c → heap c !! p = Some e → lru.key e ≠ key) as Hmain.
  { intros p e Hp He Hk.
    destruct (queue_wf_lookup _ _ _ _ (inv_main _ Hinv) Hp) as (e' & He' & Hm & _).
    assert (e' = e) as -> by congruence. rewrite Hk in Hm. congruence. }
  destruct (hmp (historyCache c) !! key) as [ele|] eqn:Hhmp.
  - destruct (history_index_entry _ _ _ Hinv Hhmp) as (Hin & old & He).
    assert (ele ∉ ll c) as Hnm by (intros ?; by eapply main_elem_not_history).
    wp_steps. intros e (p & Hp & Hpe). simpl in *. rewrite Hkv in Hpe.
    rewrite MoveToBack_perm in Hp by apply (inv_hist _ Hinv).
    destruct (decide (p = ele)) as [->|Hne].
    + rewrite lookup_insert_eq in Hpe. injection Hpe as <-.
      left. rewrite He in Hkv. by injection Hkv as <-.
    + rewrite lookup_insert_ne in Hpe by done. right.
      split; [|exists p; eauto]. destruct Hp as [Hp|Hp]; [by eapply Hmain|].
      intros Hk. apply Hne.
      apply (queue_wf_key_inj _ _ _ _ _ _ _ (inv_hist _ Hinv) Hp Hin Hpe He).
      by rewrite Hk.
  - wp_steps.
    match goal with
    | |- wp _ ?c1 _ =>
        assert (∀ e, holds c1 e →
                     e = Entry key (Some v) ∨ (lru.key e ≠ key ∧ holds c e))
          as Hc1
    end.
    { intros e (p & Hp & Hpe). simpl in *. unfold list_.PushBack in Hp.
      destruct (decide (p = next c)) as [->|Hne].
      - rewrite lookup_insert_eq in Hpe. injection Hpe as <-. by left.
      - rewrite lookup_insert_ne in Hpe by done. right.
        assert (p ∈ ll c ∨ p ∈ hll (historyCache c)) as Hp'.
        { destruct Hp as [Hp|[Hp|Hp%list_elem_of_singleton]%elem_of_app]; auto.
          done. }
        split; [|exists p; eauto]. destruct Hp' as [Hp'|Hp']; [by eapply Hmain|].
        intros Hk.
        destruct (queue_wf_lookup _ _ _ _ (inv_hist _ Hinv) Hp')
          as (e' & He' & Hm & _).
        assert (e' = e) as -> by congruence. rewrite Hk in Hm. congruence. }
    wp_if; [|by wp_step].
    eapply wp_mono; [apply RemoveHistoryCacheOldest_sub|].
    cbn beta. intros [] c2 ev2 (Hheap & Hll & Hsub) e (p & Hp & Hpe).
    apply Hc1. exists p. rewrite <-Hheap. split; [|done].
    destruct Hp as [Hp|Hp]; [left; by rewrite <-Hll|right; by apply Hsub].
Qed.

Lemma Add_promote_holds c key value :
  inv c → mp c !! key = None →
  wp (Add_promote key value) c
     (λ _ c' _, ∀ e, holds c' e → e = Entry key value ∨ holds c e).
Proof.
  intros Hinv Hmp. unfold Add_promote. wp_step.
  destruct (k (historyCache c) <=? cnt_at key (historyCache c));
    [|wp_step; auto].
  pose proof (fresh_not_main _ Hinv) as Hn1.
  pose proof (fresh_not_history _ Hinv) as Hn2.
  apply wp_bind. eapply wp_mono.
  { apply AddToCache_spec; [split; apply Hinv|done|done]. }
  cbn beta. intros [] c2 ev2 (_ & Hh2 & Hheap2 & _ & _ & _ & Hll2).
  wp_step. destruct (hmp (historyCache c2) !! key); [|wp_step].
  wp_steps. intros e (p & Hp & Hpe). simpl in *. rewrite Hheap2 in Hpe.
  destruct (decide (p = next c)) as [->|Hne].
  - rewrite lookup_insert_eq in Hpe. injection Hpe as <-. by left.
  - rewrite lookup_insert_ne in Hpe by done. right. exists p. split; [|done].
    destruct Hp as [[Hp| ->]%Hll2|[_ Hp]%elem_of_Remove]; [by left|done|].
    right. by rewrite <-Hh2.
Qed.

Lemma Add_holds c key v :
  inv c →
  wp (Add key (Some v)) c
     (λ _ c' _, ∀ e, holds c' e →
                     e = Entry key (Some v) ∨ (lru.key e ≠ key ∧ holds c e)).
Proof.
  intros Hinv. unfold Add. wp_step. destruct (mp c !! key) as [ele|] eqn:Hmp.
  - destruct (main_index_entry _ _ _ Hinv Hmp) as (Hin & old & He).
    pose proof (main_elem_not_history _ _ Hinv Hin) as Hnh.
    wp_steps. intros e (p & Hp & Hpe). simpl in *. rewrite Hkv in Hpe.
    rewrite MoveToFront_perm in Hp by apply (inv_main _ Hinv).
    destruct (decide (p = ele)) as [->|Hne].
    + rewrite lookup_insert_eq in Hpe. injection Hpe as <-.
      left. rewrite He in Hkv. by injection Hkv as <-.
    + rewrite lookup_insert_ne in Hpe by done. right.
      split; [|exists p; eauto]. intros Hk. destruct Hp as [Hp|Hp].
      * apply Hne.
        apply (queue_wf_key_inj _ _ _ _ _ _ _ (inv_main _ Hinv) Hp Hin Hpe He).
        by rewrite Hk.
      * destruct (queue_wf_lookup _ _ _ _ (inv_hist _ Hinv) Hp)
          as (e' & He' & Hm & _).
        assert (e' = e) as -> by congruence. rewrite Hk in Hm.
        apply (inv_disj _ Hinv key); apply elem_of_dom; eauto.
  - apply wp_bind. eapply wp_mono.
    { apply wp_and; [by apply Add_history_spec|by apply Add_history_holds]. }
    cbn beta. intros [] c1 ev1 [(Hinv1 & Hmp1 & _) Hc1].
    eapply wp_mono; [by apply Add_promote_holds|].
    cbn beta. intros [] c2 ev2 Hc2 e [->|He]%Hc2; [by left|by apply Hc1].
Qed.

Lemma Add_stored_values c key v c' ev :
  reachable c → Add key (Some v) c = Ret tt c' ev →
  ∀ key' x,
    stored_value c' key' = Some x →
    (key' = key ∧ x = Some v) ∨ (key' ≠ key ∧ stored_value c key' = Some x).
Proof.
  intros Hinv%reachable_inv Hadd key' x Hx.
  destruct (wp_elim _ _ _ _ _ _ (Add_keeps_inv c key (Some v) Hinv) Hadd)
    as (Hinv' & _).
  apply (holds_stored _ _ _ Hinv') in Hx.
  destruct (wp_elim _ _ _ _ _ _ (Add_holds c key v Hinv) Hadd _ Hx)
    as [[= -> ->]|[Hne Hold]].
  - by left.
  - right. split; [done|]. by apply holds_stored.
Qed.

(** [Add] never corrupts the cache: every entry it holds once
    [Add(key, value)] has returned is the entry just given, or an entry
    it held before under another key.  So the key is found with the new
    value or not at all, and no other key has changed its value. *)
Theorem Add_holds_only c key v c' ev :
  reachable c → Add key (Some v) c = Ret tt c' ev →
  ∀ key' x,
    stored_value c' key' = Some x →
    (key' = key ∧ x = Some v) ∨ (key' ≠ key ∧ stored_value c key' = Some x).
Proof. apply Add_stored_values. Qed.
End contents.

Section unlimited.
Lemma evict_loop_within fuel c :
  over_budget c = false → evict_loop fuel c = Ret tt c [].
Proof. intros Hb. destruct fuel; simpl; by rewrite bind_get_state, Hb. Qed.

Lemma over_budget_unlimited c : maxBytes c = 0 → over_budget c = false.
Proof. intros H0. unfold over_budget. by rewrite H0. Qed.

Lemma AddToCache_unlimited c key v :
  maxBytes c = 0 →
  AddToCache key (Some v) c
  = Ret tt
        (set_useBytes (λ u, add64 u (add64 (len key) (Len v)))
           (set_mp <[key := next c]>
              (set_ll (list_.PushFront (next c))
                 (set_next S (set_heap <[next c := Entry key (Some v)]> c)))))
        [].
Proof.
  intros H0. unfold AddToCache.
  rewrite bind_new_element, !bind_modify, bind_call_Len, bind_modify,
    bind_get_state.
  by apply evict_loop_within, over_budget_unlimited.
Qed.

Lemma Add_history_unlimited c key v :
  inv c → mp c !! key = None → hmaxBytes (historyCache c) = 0 →
  ∃ c1, Add_history key (Some v) c = Ret tt c1 []
        ∧ holds c1 (Entry key (Some v)) ∧ keeps_others key c c1.
Proof.
  intros Hinv Hmp H0. unfold Add_history. rewrite bind_get_state.
  pose proof (fresh_not_main _ Hinv) as Hn1.
  pose proof (fresh_not_history _ Hinv) as Hn2.
  destruct (hmp (historyCache c) !! key) as [ele|] eqn:Hhmp.
  - destruct (history_index_entry _ _ _ Hinv Hhmp) as (Hin & old & He).
    unfold cnt_incr. rewrite !bind_modify. erewrite bind_load by exact He.
    rewrite bind_call_Len. cbn [value]. rewrite bind_call_Len, bind_modify.
    unfold store_value, modify. eexists. split; [reflexivity|].
    unfold keeps_others, holds. simpl. rewrite He. split.
    + exists ele. simpl. rewrite lookup_insert_eq. split; [|done]. right.
      by rewrite MoveToBack_perm by apply (inv_hist _ Hinv).
    + intros e Hk (q & Hq & Hqe). exists q. simpl.
      rewrite MoveToBack_perm by apply (inv_hist _ Hinv). split; [done|].
      rewrite lookup_insert_ne; [done|]. intros <-.
      rewrite He in Hqe. injection Hqe as <-. done.
  - unfold cnt_incr.
    rewrite bind_new_element, !bind_modify, bind_call_Len, bind_modify,
      bind_get_state. simpl. rewrite H0. simpl.
    eexists. split; [reflexivity|]. split.
    + exists (next c). simpl. rewrite lookup_insert_eq. split; [|done]. right.
      unfold list_.PushBack. rewrite elem_of_app. right. left.
    + intros e Hk (q & Hq & Hqe). exists q. simpl. split.
      * destruct Hq as [Hq|Hq]; [by left|right].
        unfold list_.PushBack. rewrite elem_of_app. by left.
      * rewrite lookup_insert_ne; [done|]. intros <-. by destruct Hq.
Qed.

Lemma Add_promote_unlimited c key v :
  inv c → mp c !! key = None → maxBytes c = 0 → 1 ≤ k (historyCache c) →
  holds c (Entry key (Some v)) →
  ∃ c', Add_promote key (Some v) c = Ret tt c' []
        ∧ holds c' (Entry key (Some v)) ∧ keeps_others key c c'.
Proof.
  intros Hinv Hmp H0 Hk Hheld. unfold Add_promote. rewrite bind_get_state.
  destruct (Z.leb_spec (k (historyCache c)) (cnt_at key (historyCache c)))
    as [Hcnt|_]; [|exists c; split_and!; [done|done|by intros e _ He]].
  assert (is_Some (hmp (historyCache c) !! key)) as [ele Hele].
  { apply elem_of_dom. rewrite <-(inv_cnt _ Hinv). apply elem_of_dom.
    unfold cnt_at in Hcnt. destruct (cnt (historyCache c) !! key); [eauto|].
    simpl in Hcnt. lia. }
  destruct (history_index_entry _ _ _ Hinv Hele) as (Hin & old & He).
  pose proof (fresh_not_main _ Hinv) as Hn1.
  pose proof (fresh_not_history _ Hinv) as Hn2.
  assert (ele ≠ next c) as Hne by (by intros ->).
  unfold bind at 1. rewrite (AddToCache_unlimited _ _ _ H0).
  rewrite bind_get_state. simpl. rewrite Hele.
  erewrite bind_load by (simpl; rewrite lookup_insert_ne by done; exact He).
  rewrite bind_modify. cbn [value lru.key]. rewrite bind_call_Len, !bind_modify.
  unfold modify. eexists. split; [reflexivity|]. split.
  - exists (next c). simpl. rewrite lookup_insert_eq. split; [|done].
    left. left.
  - intros e Hke (q & Hq & Hqe). exists q. simpl.
    assert (q ≠ next c) as Hqn by (intros ->; by destruct Hq).
    rewrite lookup_insert_ne by done. split; [|done].
    destruct Hq as [Hq|Hq]; [left; by right|right].
    apply elem_of_Remove. split; [|done]. intros ->.
    rewrite He in Hqe. injection Hqe as <-. done.
Qed.

Lemma Add_unlimited_spec c key v :
  reachable c → maxBytes c = 0 → 1 ≤ k (historyCache c) →
  ∃ c', Add key (Some v) c = Ret tt c' []
        ∧ stored_value c' key = Some (Some v)
        ∧ ∀ key', key' ≠ key → stored_value c' key' = stored_value c key'.
Proof.
  intros Hreach H0 Hk. pose proof (reachable_inv _ Hreach) as Hinv.
  pose proof (reachable_budgets _ Hreach) as Hh0. rewrite H0 in Hh0.
  assert (∃ c', Add key (Some v) c = Ret tt c' []
                ∧ holds c' (Entry key (Some v)) ∧ keeps_others key c c')
    as (c' & Hadd & Hheld & Hkeeps).
  { unfold Add. rewrite bind_get_state.
    destruct (mp c !! key) as [ele|] eqn:Hmp.
    - destruct (main_index_entry _ _ _ Hinv Hmp) as (Hin & old & He).
      rewrite bind_modify. erewrite bind_load by exact He.
      rewrite bind_call_Len. cbn [value]. rewrite bind_call_Len, bind_modify.
      unfold store_value, modify. eexists. split; [reflexivity|].
      unfold keeps_others, holds. simpl. rewrite He. split.
      + exists ele. simpl. rewrite lookup_insert_eq. split; [|done]. left.
        by rewrite MoveToFront_perm by apply (inv_main _ Hinv).
      + intros e Hke (q & Hq & Hqe). exists q. simpl.
        rewrite MoveToFront_perm by apply (inv_main _ Hinv). split; [done|].
        rewrite lookup_insert_ne; [done|]. intros <-.
        rewrite He in Hqe. injection Hqe as <-. done.
    - destruct (Add_history_unlimited c key v Hinv Hmp Hh0)
        as (c1 & Hc1 & Hheld1 & Hkeeps1).
      destruct (wp_elim _ _ _ _ _ _ (Add_history_spec c key (Some v) Hinv Hmp) Hc1)
        as (Hinv1 & Hmp1 & Hmax1 & Hk1).
      destruct (Add_promote_unlimited c1 key v Hinv1 Hmp1) as
        (c2 & Hc2 & Hheld2 & Hkeeps2); [lia|lia|done|].
      exists c2. unfold bind. rewrite Hc1, Hc2. split_and!; [done|done|].
      intros e Hke He. by apply Hkeeps2, Hkeeps1. }
  destruct (wp_elim _ _ _ _ _ _ (Add_keeps_inv c key (Some v) Hinv) Hadd)
    as (Hinv' & _).
  exists c'. split_and!; [done|by apply holds_stored|].
  intros key' Hne.
  destruct (stored_value c key') as [x|] eqn:Hx.
  - apply holds_stored; [done|]. apply Hkeeps; [done|]. by apply holds_stored.
  - destruct (stored_value c' key') as [x|] eqn:Hx'; [|done].
    destruct (Add_stored_values _ _ _ _ _ Hreach Hadd _ _ Hx') as [[-> _]|[_ Hold]];
      [done|congruence].
Qed.

(** The round trip with no limit: in a cache built with maxBytes 0 and a
    threshold of at least 1, [Add(key, value)] returns without a call of
    the callback, the key is then stored with the new value, and every
    other key is stored with the value it had. *)
Theorem Add_unlimited c key v :
  reachable c → maxBytes c = 0 → 1 ≤ k (historyCache c) →
  ∃ c', Add key (Some v) c = Ret tt c' []
        ∧ stored_value c' key = Some (Some v)
        ∧ ∀ key', key' ≠ key → stored_value c' key' = stored_value c key'.
Proof. apply Add_unlimited_spec. Qed.
End unlimited.

Section quiet.
(** *** No callback installed, no call *)

Lemma RemoveCacheOldest_quiet c :
  OnEvicted c = false →
  wp RemoveCacheOldest c (λ _ c' ev, ev = [] ∧ OnEvicted c' = false).
Proof.
  intros Hoff. unfold RemoveCacheOldest. wp_step.
  destruct (list_.Back (ll c)); [|by wp_step].
  wp_steps. simpl. rewrite Hoff. by wp_step.
Qed.

Lemma evict_loop_quiet fuel c :
  OnEvicted c = false →
  wp (evict_loop fuel) c (λ _ c' ev, ev = [] ∧ OnEvicted c' = false).
Proof.
  revert c. induction fuel as [|fuel IH]; intros c Hoff; simpl.
  - wp_step. destruct (over_budget c); [|by wp_step].
    destruct (list_.Back (ll c)); wp_step.
  - wp_step. destruct (over_budget c); [|by wp_step].
    destruct (list_.Back (ll c)); [|wp_step].
    apply wp_bind. eapply wp_mono; [by apply RemoveCacheOldest_quiet|].
    intros [] c1 ev1 [-> Hoff1]. eapply wp_mono; [by apply IH|].
    intros [] c2 ev2 [-> Hoff2]. done.
Qed.

Lemma AddToCache_quiet c key value :
  OnEvicted c = false →
  wp (AddToCache key value) c (λ _ c' ev, ev = [] ∧ OnEvicted c' = false).
Proof.
  intros Hoff. unfold AddToCache. wp_steps.
  eapply wp_mono; [by apply evict_loop_quiet|]. by intros [] c' ev [-> ?].
Qed.

Lemma RemoveHistoryCacheOldest_quiet c :
  OnEvicted c = false →
  wp RemoveHistoryCacheOldest c (λ _ c' ev, ev = [] ∧ OnEvicted c' = false).
Proof.
  intros Hoff. unfold RemoveHistoryCacheOldest. wp_step.
  destruct (list_.Front (hll (historyCache c))); [|by wp_step].
  wp_steps. simpl. rewrite Hoff. by wp_step.
Qed.

(** A cache built without a callback calls none. *)
Lemma Add_quiet c key value :
  OnEvicted c = false → wp (Add key value) c (λ _ _ ev, ev = []).
Proof.
  intros Hoff. unfold Add. wp_step. destruct (mp c !! key); [by wp_steps|].
  apply wp_bind.
  apply (wp_mono _ _ (λ _ c1 ev1, ev1 = [] ∧ OnEvicted c1 = false)).
  - unfold Add_history. wp_step. destruct (hmp (historyCache c) !! key);
      [by wp_steps|].
    wp_steps. wp_if; [|by wp_step].
    eapply wp_mono; [by apply RemoveHistoryCacheOldest_quiet|].
    by intros [] c' ev [-> ?].
  - cbn beta. intros [] c1 ev1 [-> Hoff1]. unfold Add_promote. wp_step.
    destruct (k (historyCache c1) <=? cnt_at key (historyCache c1));
      [|by wp_step].
    apply wp_bind. eapply wp_mono; [by apply AddToCache_quiet|].
    cbn beta. intros [] c2 ev2 [-> Hoff2]. wp_step.
    destruct (hmp (historyCache c2) !! key); [|wp_step]. by wp_steps.
Qed.

Lemma reachable_step c cl c' ev :
  reachable c → do_call cl c = Ret tt c' ev → reachable c'.
Proof.
  intros (mb & on & k0 & cls & ev0 & Hrun) Hcl.
  exists mb, on, k0, (cls ++ [cl]), (ev0 ++ (ev ++ [])).
  revert Hrun. generalize (New (V:=V) mb on k0). revert ev0.
  induction cls as [|cl0 cls IH]; intros ev0 c0 Hrun; simpl in *.
  - injection Hrun as <- <-. unfold bind. by rewrite Hcl.
  - unfold bind in *. destruct (do_call cl0 c0) as [[] c1 ev1| |]; [|done..].
    destruct (do_calls cls c1) as [[] c2 ev2| |] eqn:Hrest; [|done..].
    injection Hrun as <- <-. rewrite (IH _ _ Hrest).
    by rewrite <-app_assoc.
Qed.

Lemma reachable_New maxBytes onEvicted k :
  reachable (New (V:=V) maxBytes onEvicted k).
Proof. by exists maxBytes, onEvicted, k, [], []. Qed.

Lemma reachable_Add c key value c' ev :
  reachable c → Add key value c = Ret tt c' ev → reachable c'.
Proof. intros Hr Hadd. by apply (reachable_step c (CallAdd key value) c' ev). Qed.

Lemma reachable_Get c key r c' ev :
  reachable c → Get key c = Ret r c' ev → reachable c'.
Proof.
  intros Hr Hget. apply (reachable_step c (CallGet key) c' (ev ++ [])); [done|].
  simpl. unfold bind. by rewrite Hget.
Qed.
End quiet.

End lru_k.

(** ** The plain LRU cache *)

Section plain.
Import lru_plain.
Context {V : Type} `{!lru.Value V}.
Implicit Types (c : Cache V).

Lemma wp_plain_load c p (Q : lru.entry V → Cache V → list (lru.Evicted V) → Prop) :
  (∀ kv, heap c !! p = Some kv → Q kv c []) → wp (load p) c Q.
Proof.
  intros HQ. unfold load. apply wp_bind, wp_get_state.
  destruct (heap c !! p) as [kv|]; [apply wp_ret; eauto | apply wp_panic].
Qed.

Lemma wp_plain_call_Len c value (Q : Z → Cache V → list (lru.Evicted V) → Prop) :
  (∀ v, value = Some v → Q (lru.Len v) c []) → wp (call_Len value) c Q.
Proof. intros HQ. destruct value; [apply wp_ret; eauto | apply wp_panic]. Qed.

Lemma wp_plain_new_element c key value
      (Q : ptr → Cache V → list (lru.Evicted V) → Prop) :
  Q (next c) (set_next S (set_heap <[next c := lru.Entry key value]> c)) [] →
  wp (new_element key value) c Q.
Proof. done. Qed.

Ltac wp_step :=
  lazymatch goal with
  | |- wp (bind get_state _) _ _ => apply wp_bind, wp_get_state
  | |- wp (bind (modify _) _) _ _ => apply wp_bind, wp_modify
  | |- wp (bind (store_value _ _) _) _ _ => apply wp_bind, wp_modify
  | |- wp (bind (ret _) _) _ _ => apply wp_bind, wp_ret
  | |- wp (bind (emit _) _) _ _ => apply wp_bind, wp_emit
  | |- wp (bind (panic _) _) _ _ => apply wp_bind, wp_panic
  | |- wp (bind (load _) _) _ _ =>
      let kv := fresh "kv" in let Hkv := fresh "Hkv" in
      apply wp_bind, wp_plain_load; intros kv Hkv; simpl in Hkv
  | |- wp (bind (call_Len _) _) _ _ =>
      let v := fresh "v" in let Hv := fresh "Hv" in
      apply wp_bind, wp_plain_call_Len; intros v Hv
  | |- wp (bind (new_element _ _) _) _ _ => apply wp_bind, wp_plain_new_element
  | |- wp (bind (bind _ _) _) _ _ => apply wp_bind
  | |- wp (bind (match ?x with _ => _ end) _) _ _ => apply wp_bind
  | |- wp (ret _) _ _ => apply wp_ret
  | |- wp (modify _) _ _ => apply wp_modify
  | |- wp (store_value _ _) _ _ => apply wp_modify
  | |- wp (emit _) _ _ => apply wp_emit
  | |- wp (panic _) _ _ => apply wp_panic
  | |- wp diverge _ _ => apply wp_diverge
  end; cbn beta.

Ltac wp_if :=
  lazymatch goal with
  | |- wp (if ?b then _ else _) _ _ => destruct b eqn:?
  | |- wp (bind (if ?b then _ else _) _) _ _ => destruct b eqn:?
  end.

Ltac wp_steps := repeat wp_step.

Lemma shrinks_refl c : shrinks c c.
Proof. by repeat split. Qed.

Lemma shrinks_trans c1 c2 c3 : shrinks c1 c2 → shrinks c2 c3 → shrinks c1 c3.
Proof.
  intros (H0 & H1 & H2 & H3 & H4 & H5) (G0 & G1 & G2 & G3 & G4 & G5).
  split_and!; [congruence..| |]; [by etrans|eauto].
Qed.

Lemma RemoveOldest_spec c :
  inv c → wp RemoveOldest c (λ _ c' _, inv c' ∧ shrinks c c').
Proof.
  intros (Hwf & Hb & Hfresh). unfold RemoveOldest. wp_step.
  destruct (list_.Back (ll c)) as [ele|] eqn:Hback.
  - apply last_Some_elem_of in Hback. wp_steps; wp_if; wp_step; simpl in *.
    all: split; [split_and!; simpl|].
    all: try (by eapply queue_wf_Remove).
    all: try (rewrite Hb, sub64_add64, (queue_bytes_Remove _ _ _ kv)
                by (done || apply Hwf);
              unfold lru.entry_bytes; rewrite Hv; simpl; f_equal; lia).
    all: try (intros p [_ ?]%elem_of_Remove; by apply Hfresh).
    all: split_and!; simpl; try done.
    all: try apply dom_delete_sub.
    all: intros p [_ ?]%elem_of_Remove; done.
  - wp_step. split; [done|apply shrinks_refl].
Qed.

Lemma plain_evict_loop_spec fuel c :
  inv c →
  wp (evict_loop fuel) c
     (λ _ c' _, inv c' ∧ shrinks c c' ∧ over_budget c' = false).
Proof.
  revert c. induction fuel as [|fuel IH]; intros c Hinv; simpl.
  - wp_step. destruct (over_budget c) eqn:Hover;
      [|wp_step; eauto using shrinks_refl].
    destruct (list_.Back (ll c)); wp_step.
  - wp_step. destruct (over_budget c) eqn:Hover;
      [|wp_step; eauto using shrinks_refl].
    destruct (list_.Back (ll c)); [|wp_step].
    apply wp_bind. eapply wp_mono; [by apply RemoveOldest_spec|].
    intros [] c1 ev1 [Hinv1 Hs1]. eapply wp_mono; [by apply IH|].
    intros _ c2 _ (Hinv2 & Hs2 & Hover2). eauto using shrinks_trans.
Qed.

Lemma RemoveOldest_shortens c ele a c' ev :
  list_.Back (ll c) = Some ele →
  RemoveOldest c = Ret a c' ev →
  (length (ll c') < length (ll c))%nat.
Proof.
  intros Hback Hrm.
  refine (wp_elim _ _ (λ _ c' _, (length (ll c') < length (ll c))%nat) _ _ _ _ Hrm).
  unfold RemoveOldest. wp_step.
  rewrite Hback. wp_steps; wp_if; wp_step; simpl.
  all: apply (length_filter_lt (λ q, q ≠ ele) _ ele); [|tauto].
  all: by apply last_Some_elem_of.
Qed.

(** The fuel given to the loop is enough: more of it changes nothing. *)
Lemma plain_evict_loop_fuel n m c :
  (length (ll c) ≤ n)%nat → (length (ll c) ≤ m)%nat →
  evict_loop n c = evict_loop m c.
Proof.
  revert m c. induction n as [|n IH]; intros m c Hn Hm.
  - destruct (ll c) as [|p l] eqn:Hll; [|simpl in Hn; lia].
    destruct m; simpl; rewrite !bind_get_state, Hll; simpl;
      by destruct (over_budget c).
  - destruct m as [|m].
    + destruct (ll c) as [|p l] eqn:Hll; [|simpl in Hm; lia].
      simpl. rewrite !bind_get_state, Hll. simpl. by destruct (over_budget c).
    + simpl. rewrite !bind_get_state. destruct (over_budget c); [|done].
      destruct (list_.Back (ll c)) as [ele|] eqn:Hback; [|done].
      unfold bind.
      destruct (RemoveOldest c) as [a c' ev| |] eqn:Hrm; [|done..].
      apply (RemoveOldest_shortens _ _ _ _ _ Hback) in Hrm.
      rewrite (IH m c') by lia. done.
Qed.

Lemma plain_inv_insert c key v :
  inv c → cache c !! key = None →
  inv (set_nbyBytes (λ u, add64 u (add64 (len key) (lru.Len v)))
         (set_cache <[key := next c]>
            (set_ll (list_.PushFront (next c))
               (set_next S (set_heap <[next c := lru.Entry key (Some v)]> c))))).
Proof.
  intros (Hwf & Hb & Hfresh) Hkey.
  assert (next c ∉ ll c) as Hn by (intros Hin%Hfresh; lia).
  split_and!; simpl.
  - by apply queue_wf_insert.
  - unfold list_.PushFront, lru.queue_bytes. simpl.
    fold (lru.queue_bytes (<[next c:=lru.Entry key (Some v)]> (heap c)) (ll c)).
    rewrite lookup_insert_eq, queue_bytes_insert_ne, Hb, add64_add64 by done.
    unfold lru.entry_bytes. simpl. f_equal. lia.
  - intros p [->|Hp%Hfresh]%elem_of_cons; lia.
Qed.

Lemma plain_inv_update c key ele kv v old :
  inv c → cache c !! key = Some ele → heap c !! ele = Some kv →
  lru.value kv = Some old →
  inv (set_heap (λ h, match h !! ele with
                      | Some kv => <[ele := lru.Entry (lru.key kv) (Some v)]> h
                      | None => h
                      end)
         (set_nbyBytes (λ u, add64 u (sub64 (lru.Len v) (lru.Len old)))
            (set_ll (list_.MoveToFront ele) c))).
Proof.
  intros (Hwf & Hb & Hfresh) Hkey Hkv Hold.
  destruct (proj1 (proj2 Hwf) _ _ Hkey) as (Hin & _).
  split_and!; simpl; rewrite ?Hkv.
  - eapply queue_wf_perm; [symmetry; apply MoveToFront_perm, Hwf|].
    by apply queue_wf_store.
  - rewrite (queue_bytes_perm _ _ _ (MoveToFront_perm _ _ (proj1 Hwf))).
    rewrite (queue_bytes_store _ _ _ kv) by (done || apply Hwf).
    rewrite Hb, add64_sub64. unfold lru.entry_bytes. rewrite Hold. simpl.
    f_equal. lia.
  - intros p Hp. apply Hfresh.
    by rewrite MoveToFront_perm in Hp by apply Hwf.
Qed.

(** What [Add] leaves besides the invariant: the configuration, and a
    queue within its budget. *)
Lemma plain_Add_spec c key value :
  inv c →
  wp (Add key value) c
     (λ _ c' _, inv c' ∧ maxBytes c' = maxBytes c
                ∧ OnEvicted c' = OnEvicted c ∧ over_budget c' = false).
Proof.
  intros Hinv. unfold Add. wp_step. wp_step.
  destruct (cache c !! key) as [ele|] eqn:Hkey.
  - wp_steps. subst value.
    match goal with
    | |- wp _ ?c1 _ => assert (inv c1) as Hinv1 by (by eapply plain_inv_update)
    end.
    eapply wp_mono; [by apply plain_evict_loop_spec|].
    intros _ c' _ (Hinv' & (H1 & H2 & _) & Hover). done.
  - wp_steps. subst value.
    match goal with
    | |- wp _ ?c1 _ => assert (inv c1) as Hinv1 by (by apply plain_inv_insert)
    end.
    eapply wp_mono; [by apply plain_evict_loop_spec|].
    intros _ c' _ (Hinv' & (H1 & H2 & _) & Hover). done.
Qed.

Lemma plain_Get_spec c key :
  inv c →
  wp (Get key) c
     (λ _ c' _, inv c' ∧ maxBytes c' = maxBytes c
                ∧ OnEvicted c' = OnEvicted c ∧ nbyBytes c' = nbyBytes c).
Proof.
  intros (Hwf & Hb & Hfresh). unfold Get. wp_step.
  destruct (cache c !! key) as [ele|] eqn:Hkey; [|by wp_step].
  wp_steps. split; [|done]. split_and!; simpl.
  - eapply queue_wf_perm; [symmetry; apply MoveToFront_perm, Hwf|done].
  - by rewrite (queue_bytes_perm _ _ _ (MoveToFront_perm _ _ (proj1 Hwf))).
  - intros p Hp. apply Hfresh. by rewrite MoveToFront_perm in Hp by apply Hwf.
Qed.

Lemma plain_New_inv maxBytes onEvicted : inv (New (V:=V) maxBytes onEvicted).
Proof.
  split_and!; simpl; [|done|].
  - split_and!; [apply NoDup_nil_2|..].
    + intros key p Hp. by rewrite lookup_empty in Hp.
    + intros p Hp. by apply not_elem_of_nil in Hp.
  - intros p Hp. by apply not_elem_of_nil in Hp.
Qed.

Lemma plain_do_calls_spec cls c :
  inv c →
  wp (do_calls cls) c
     (λ _ c' _, inv c' ∧ maxBytes c' = maxBytes c
                ∧ OnEvicted c' = OnEvicted c).
Proof.
  revert c. induction cls as [|cl cls IH]; intros c Hinv; simpl; [by wp_step|].
  apply wp_bind. destruct cl as [key value|key]; simpl.
  - eapply wp_mono; [by apply plain_Add_spec|].
    cbn beta. intros _ c1 _ (Hinv1 & <- & <- & _).
    eapply wp_mono; [by apply IH|]. done.
  - apply wp_bind. eapply wp_mono; [by apply plain_Get_spec|].
    cbn beta. intros _ c1 _ (Hinv1 & <- & <- & _). wp_step.
    eapply wp_mono; [by apply IH|]. done.
Qed.

Lemma plain_reachable_inv c : reachable c → inv c.
Proof.
  intros (maxBytes & onEvicted & cls & ev & Hrun).
  by apply (wp_elim _ _ _ _ _ _
              (plain_do_calls_spec cls _ (plain_New_inv maxBytes onEvicted)) Hrun).
Qed.

(** *** Calls that return *)

Lemma bind_plain_load {A} c p kv
      (f : lru.entry V → M (Cache V) (lru.Evicted V) A) :
  heap c !! p = Some kv → bind (load p) f c = f kv c.
Proof.
  intros Hp. unfold load. unfold bind at 1. rewrite bind_get_state, Hp.
  unfold ret. by destruct (f kv c).
Qed.

Lemma bind_plain_call_Len {A} c v (f : Z → M (Cache V) (lru.Evicted V) A) :
  bind (call_Len (Some v)) f c = f (lru.Len v) c.
Proof. unfold bind, call_Len, ret. by destruct (f (lru.Len v) c). Qed.

Lemma bind_plain_new_element {A} c key value
      (f : ptr → M (Cache V) (lru.Evicted V) A) :
  bind (new_element key value) f c
  = f (next c) (set_next S (set_heap <[next c := lru.Entry key value]> c)).
Proof.
  unfold new_element. unfold bind at 1.
  rewrite bind_get_state, bind_modify, bind_modify. unfold ret.
  by destruct (f _ _).
Qed.

Lemma returns_plain_load {A} c p kv
      (f : lru.entry V → M (Cache V) (lru.Evicted V) A) :
  heap c !! p = Some kv → returns (f kv) c → returns (bind (load p) f) c.
Proof. intros Hp. unfold returns. by rewrite (bind_plain_load _ _ _ _ Hp). Qed.

Lemma returns_plain_call_Len {A} c v (f : Z → M (Cache V) (lru.Evicted V) A) :
  returns (f (lru.Len v)) c → returns (bind (call_Len (Some v)) f) c.
Proof. unfold returns. by rewrite bind_plain_call_Len. Qed.

Lemma returns_plain_new_element {A} c key value
      (f : ptr → M (Cache V) (lru.Evicted V) A) :
  returns (f (next c))
          (set_next S (set_heap <[next c := lru.Entry key value]> c)) →
  returns (bind (new_element key value) f) c.
Proof. unfold returns. by rewrite bind_plain_new_element. Qed.

Ltac ret_step :=
  lazymatch goal with
  | |- returns (bind get_state _) _ => apply returns_get_state
  | |- returns (bind (modify _) _) _ => apply returns_bind_modify
  | |- returns (bind (call_Len (Some _)) _) _ => apply returns_plain_call_Len
  | |- returns (bind (new_element _ _) _) _ => apply returns_plain_new_element
  | |- returns (ret _) _ => apply returns_ret
  | |- returns (modify _) _ => apply returns_modify
  | |- returns (store_value _ _) _ => apply returns_modify
  | |- returns (emit _) _ => apply returns_emit
  | |- returns (if OnEvicted ?c then _ else _) _ => destruct (OnEvicted c)
  end; cbn beta.

Ltac ret_steps := repeat ret_step.

Lemma RemoveOldest_returns c : inv c → returns RemoveOldest c.
Proof.
  intros ((Hnd & Hm & Hl) & _). unfold RemoveOldest. ret_step.
  destruct (list_.Back (ll c)) as [ele|] eqn:Hback; [|ret_step].
  apply last_Some_elem_of in Hback.
  destruct (Hl _ Hback) as (e & He & _ & [v Hv]).
  ret_step. apply (returns_plain_load _ _ e); [done|]. rewrite Hv. ret_steps.
Qed.

Lemma plain_evict_loop_returns fuel c :
  inv c → 0 ≤ maxBytes c → (length (ll c) ≤ fuel)%nat →
  returns (evict_loop fuel) c.
Proof.
  revert c. induction fuel as [|fuel IH]; intros c Hinv Hmax Hlen.
  - destruct (ll c) as [|p l] eqn:Hll; [|simpl in Hlen; lia].
    simpl. ret_step. unfold over_budget.
    destruct Hinv as (_ & Hb & _). rewrite Hb, Hll. simpl.
    replace (wrap64 0) with 0 by done.
    destruct (Z.ltb_spec (maxBytes c) 0); [lia|].
    rewrite andb_false_r. ret_step.
  - simpl. ret_step.
    destruct (over_budget c) eqn:Hover; [|ret_step].
    destruct (list_.Back (ll c)) as [ele|] eqn:Hback.
    + eapply returns_bind;
        [by apply RemoveOldest_returns|by apply RemoveOldest_spec|].
      cbn beta. intros a c1 ev1 Hrm [Hinv1 Hs1].
      apply (RemoveOldest_shortens _ _ _ _ _ Hback) in Hrm.
      apply IH; [done|by rewrite (proj1 Hs1)|lia].
    + apply last_None in Hback. exfalso. revert Hover. unfold over_budget.
      destruct Hinv as (_ & Hb & _). rewrite Hb, Hback. simpl.
      replace (wrap64 0) with 0 by done.
      destruct (Z.ltb_spec (maxBytes c) 0); [lia|]. by rewrite andb_false_r.
Qed.

Lemma bind_assoc {S E A B C} (m : M S E A) (g : A → M S E B)
      (f : B → M S E C) s :
  bind (bind m g) f s = bind m (λ a, bind (g a) f) s.
Proof.
  unfold bind. destruct (m s) as [a s1 ev1| |]; [|done..].
  destruct (g a s1) as [b s2 ev2| |]; [|done..].
  destruct (f b s2) as [x s3 ev3| |]; by rewrite ?app_assoc.
Qed.

Lemma returns_bind_assoc {S E A B C} (m : M S E A) (g : A → M S E B)
      (f : B → M S E C) s :
  returns (bind m (λ a, bind (g a) f)) s → returns (bind (bind m g) f) s.
Proof. unfold returns. by rewrite bind_assoc. Qed.

Lemma plain_Add_returns_inv c key v :
  inv c → 0 ≤ maxBytes c → returns (Add key (Some v)) c.
Proof.
  intros Hinv Hmax. unfold Add. ret_step.
  destruct (cache c !! key) as [ele|] eqn:Hkey.
  - pose proof Hinv as (Hwf & Hb & Hfresh).
    destruct (proj1 (proj2 Hwf) _ _ Hkey) as (Hin & _).
    destruct (proj2 (proj2 Hwf) _ Hin) as (e & He & _ & [old Hold]).
    apply returns_bind_assoc. ret_step.
    apply returns_bind_assoc, (returns_plain_load _ _ e); [done|].
    apply returns_bind_assoc. ret_step.
    apply returns_bind_assoc. rewrite Hold. ret_step.
    apply returns_bind_assoc. ret_step.
    apply returns_bind_modify. ret_step.
    apply plain_evict_loop_returns; [|done|done].
    by eapply plain_inv_update.
  - apply returns_bind_assoc. ret_step.
    apply returns_bind_assoc. ret_step.
    apply returns_bind_assoc. ret_step.
    apply returns_bind_assoc. ret_step.
    apply returns_bind_modify. ret_step.
    apply plain_evict_loop_returns; [|done|done].
    by apply plain_inv_insert.
Qed.

Lemma plain_evict_loop_exit fuel c :
  wp (evict_loop fuel) c (λ _ c' _, over_budget c' = false).
Proof.
  revert c. induction fuel as [|fuel IH]; intros c; simpl.
  - wp_step. destruct (over_budget c) eqn:Hover; [|by wp_step].
    destruct (list_.Back (ll c)); wp_step.
  - wp_step. destruct (over_budget c) eqn:Hover; [|by wp_step].
    destruct (list_.Back (ll c)); [|wp_step].
    apply wp_bind. unfold wp at 1. destruct (RemoveOldest c); [apply IH|done..].
Qed.

Lemma plain_over_budget_false c :
  over_budget c = false ↔ maxBytes c = 0 ∨ nbyBytes c ≤ maxBytes c.
Proof.
  unfold over_budget.
  destruct (Z.eqb_spec (maxBytes c) 0), (Z.ltb_spec (maxBytes c) (nbyBytes c));
    simpl; split; auto; try lia; try (intros [?|?]; (done || lia)).
Qed.

(** [Add] always leaves the cache within its budget: whatever the state
    and the arguments, when it returns, maxBytes is 0 (no limit) or the
    bytes used do not exceed it.  The loop runs after both branches. *)
Theorem plain_Add_within_budget c key value c' ev :
  Add key value c = Ret tt c' ev →
  maxBytes c' = 0 ∨ nbyBytes c' ≤ maxBytes c'.
Proof.
  intros Hadd. apply plain_over_budget_false.
  refine (wp_elim _ _ (λ _ c' _, over_budget c' = false) _ _ _ _ Hadd).
  unfold Add. wp_step. apply wp_bind. unfold wp at 1.
  destruct (_ c) as [[] c1 ev1| |]; [|done..].
  wp_step. apply plain_evict_loop_exit.
Qed.

(** With a budget that is not negative, [Add] of a value returns in
    every state reached by calls that returned. *)
Theorem plain_Add_returns c key v :
  reachable c → 0 ≤ maxBytes c →
  ∃ c' ev, Add key (Some v) c = Ret tt c' ev.
Proof.
  intros Hinv%plain_reachable_inv Hmax.
  destruct (plain_Add_returns_inv c key v Hinv Hmax) as ([] & c' & ev & Hret).
  eauto.
Qed.

Lemma wrap64_small z : - 2 ^ 63 ≤ z < 2 ^ 63 → wrap64 z = z.
Proof. intros Hz. unfold wrap64. rewrite Z.mod_small; lia. Qed.

Lemma Add_insert_eq c key v :
  cache c !! key = None →
  Add key (Some v) c
  = evict_loop (S (length (ll c)))
      (set_nbyBytes (λ u, add64 u (add64 (len key) (lru.Len v)))
         (set_cache <[key := next c]>
            (set_ll (list_.PushFront (next c))
               (set_next S (set_heap <[next c := lru.Entry key (Some v)]> c))))).
Proof.
  intros Hkey. unfold Add. rewrite bind_get_state, Hkey.
  rewrite bind_assoc, bind_plain_new_element.
  rewrite bind_assoc, bind_modify.
  rewrite bind_assoc, bind_modify.
  rewrite bind_assoc, bind_plain_call_Len.
  rewrite bind_modify, bind_get_state. done.
Qed.

Lemma Add_update_eq c key ele kv v old :
  cache c !! key = Some ele → heap c !! ele = Some kv →
  lru.value kv = Some old →
  Add key (Some v) c
  = evict_loop (length (list_.MoveToFront ele (ll c)))
      (set_heap (λ h, match h !! ele with
                      | Some kv => <[ele := lru.Entry (lru.key kv) (Some v)]> h
                      | None => h
                      end)
         (set_nbyBytes (λ u, add64 u (sub64 (lru.Len v) (lru.Len old)))
            (set_ll (list_.MoveToFront ele) c))).
Proof.
  intros Hkey Hkv Hold. unfold Add. rewrite bind_get_state, Hkey.
  rewrite bind_assoc, bind_modify.
  rewrite bind_assoc. erewrite bind_plain_load by exact Hkv.
  rewrite bind_assoc, bind_plain_call_Len.
  rewrite bind_assoc, Hold, bind_plain_call_Len.
  rewrite bind_assoc, bind_modify.
  unfold store_value. rewrite bind_modify, bind_get_state. done.
Qed.

Lemma RemoveOldest_eq c ele kk v :
  list_.Back (ll c) = Some ele →
  heap c !! ele = Some (lru.Entry kk (Some v)) →
  RemoveOldest c
  = Ret tt
        (set_nbyBytes (λ u, sub64 u (add64 (lru.Len v) (len kk)))
           (set_cache (delete kk) (set_ll (list_.Remove ele) c)))
        (if OnEvicted c then [(kk, Some v)] else []).
Proof.
  intros Hback He. unfold RemoveOldest.
  rewrite bind_get_state, Hback, bind_modify.
  erewrite bind_plain_load by exact He. cbn [lru.value lru.key].
  rewrite bind_modify, bind_plain_call_Len, bind_modify, bind_get_state. simpl.
  by destruct (OnEvicted c).
Qed.

Lemma plain_evict_loop_step fuel c ele :
  over_budget c = true → list_.Back (ll c) = Some ele →
  evict_loop (S fuel) c = bind RemoveOldest (λ _, evict_loop fuel) c.
Proof. intros Hover Hback. simpl. by rewrite bind_get_state, Hover, Hback. Qed.

Lemma plain_evict_loop_spins fuel c :
  over_budget c = true → ll c = [] → evict_loop fuel c = Diverge.
Proof.
  intros Hover Hll. destruct fuel; simpl; by rewrite bind_get_state, Hover, Hll.
Qed.

Lemma plain_evict_loop_done fuel c :
  over_budget c = false → evict_loop fuel c = Ret tt c [].
Proof. intros Hover. destruct fuel; simpl; by rewrite bind_get_state, Hover. Qed.

(** With a negative budget the first [Add] never returns: the loop
    evicts the entry just added and then spins on the empty list. *)
Theorem plain_Add_negative_budget maxBytes0 onEvicted key v :
  maxBytes0 < 0 → 0 ≤ lru.Len v → len key + lru.Len v < 2 ^ 63 →
  Add key (Some v) (New maxBytes0 onEvicted) = Diverge.
Proof.
  intros Hneg Hv Hsmall.
  assert (0 ≤ len key) as Hk by (unfold len; lia).
  assert (add64 0 (add64 (len key) (lru.Len v)) = len key + lru.Len v) as Hsum.
  { unfold add64. rewrite (wrap64_small (len key + _)) by lia.
    rewrite Z.add_0_l. apply wrap64_small. lia. }
  assert (sub64 (len key + lru.Len v) (add64 (lru.Len v) (len key)) = 0) as Hzero.
  { unfold sub64, add64. rewrite wrap64_idemp_opp.
    replace (len key + lru.Len v - (lru.Len v + len key)) with 0 by lia. done. }
  rewrite Add_insert_eq by apply lookup_empty.
  erewrite plain_evict_loop_step; [|..|reflexivity].
  - unfold bind. erewrite RemoveOldest_eq; [|reflexivity|apply lookup_insert_eq].
    rewrite plain_evict_loop_spins; [done| |done].
    unfold over_budget. simpl. rewrite Hsum, Hzero.
    destruct (Z.eqb_spec maxBytes0 0) as [|_]; [lia|].
    by destruct (Z.ltb_spec maxBytes0 0) as [_|]; [|lia].
  - unfold over_budget. simpl. rewrite Hsum.
    destruct (Z.eqb_spec maxBytes0 0) as [|_]; [lia|].
    by destruct (Z.ltb_spec maxBytes0 (len key + lru.Len v)) as [_|]; [|lia].
Qed.

(** *** The entry just added stays *)

Lemma RemoveOldest_front c ele key v :
  inv c → front_is c ele key v → over_budget c = true →
  maxBytes c = 0 ∨ wrap64 (len key + lru.Len v) ≤ maxBytes c →
  wp RemoveOldest c (λ _ c' _, front_is c' ele key v).
Proof.
  intros (Hwf & Hb & Hfresh) (Hhead & He & Hkey) Hover Hfit.
  destruct (ll c) as [|p l] eqn:Hll; [done|]. injection Hhead as ->.
  destruct l as [|q l].
  { exfalso. revert Hover. unfold over_budget. rewrite Hb.
    unfold lru.queue_bytes. simpl. rewrite He. unfold lru.entry_bytes. simpl.
    rewrite Z.add_0_r.
    destruct (Z.eqb_spec (maxBytes c) 0); [done|].
    destruct (Z.ltb_spec (maxBytes c) (wrap64 (len key + lru.Len v))); [lia|done]. }
  destruct Hwf as (Hnd & Hm & Hl).
  assert (is_Some (list_.Back (ele :: q :: l))) as [r Hback]
      by (by apply last_is_Some).
  assert (r ∈ q :: l) as Hr by (by apply last_Some_elem_of).
  assert (r ≠ ele) as Hne.
  { intros ->. by apply NoDup_cons in Hnd as [? _]. }
  destruct (Hl r) as ([kk x] & Hkv & Hidx & [w Hw]); [by right|].
  simpl in *. subst x.
  unfold wp. rewrite (RemoveOldest_eq c r kk w) by (by rewrite ?Hll).
  split_and!; simpl.
  - rewrite Hll. unfold list_.Remove.
    by rewrite filter_cons_True by (by intros ->).
  - done.
  - rewrite lookup_delete_ne; [done|]. intros ->. congruence.
Qed.

Lemma plain_evict_loop_front fuel c ele key v :
  inv c → front_is c ele key v →
  maxBytes c = 0 ∨ wrap64 (len key + lru.Len v) ≤ maxBytes c →
  wp (evict_loop fuel) c (λ _ c' _, front_is c' ele key v).
Proof.
  revert c. induction fuel as [|fuel IH]; intros c Hinv Hfront Hfit; simpl.
  - wp_step. destruct (over_budget c) eqn:Hover; [|by wp_step].
    destruct (list_.Back (ll c)); wp_step.
  - wp_step. destruct (over_budget c) eqn:Hover; [|by wp_step].
    destruct (list_.Back (ll c)); [|wp_step].
    apply wp_bind. eapply wp_mono.
    { apply wp_and; [by apply RemoveOldest_spec|by apply RemoveOldest_front]. }
    cbn beta. intros _ c1 _ [[Hinv1 Hs1] Hfront1].
    apply IH; [done|done|]. by rewrite (proj1 Hs1).
Qed.

Lemma Get_front c ele key v :
  inv c → front_is c ele key v → Get key c = Ret (Some v, true) c [].
Proof.
  intros ((Hnd & _) & _) (Hhead & He & Hkey). unfold Get.
  rewrite bind_get_state, Hkey, bind_modify.
  erewrite bind_plain_load by exact He. unfold ret. simpl. f_equal.
  destruct (ll c) as [|p l] eqn:Hll; [done|]. injection Hhead as ->.
  unfold list_.MoveToFront, set_ll. rewrite Hll.
  rewrite decide_True by left. rewrite (Remove_first (V:=V)) by done.
  destruct c; simpl in *; by subst.
Qed.

(** The round trip: when the entry alone fits the budget (or there is no
    limit), the [Get] that follows an [Add] of a value finds that value,
    calls no callback and leaves the cache as it is, whatever had to be
    evicted to make room. *)
Theorem plain_Add_then_Get c key v c' ev :
  reachable c →
  maxBytes c = 0 ∨ wrap64 (len key + lru.Len v) ≤ maxBytes c →
  Add key (Some v) c = Ret tt c' ev →
  Get key c' = Ret (Some v, true) c' [].
Proof.
  intros Hinv%plain_reachable_inv Hfit Hadd.
  destruct (cache c !! key) as [ele|] eqn:Hkey.
  - pose proof Hinv as ((Hnd & Hm & Hl) & _).
    destruct (Hm _ _ Hkey) as (Hin & e & He & Hk).
    destruct (Hl _ Hin) as (e' & He' & _ & [old Hold]).
    assert (e' = e) as -> by congruence.
    rewrite (Add_update_eq _ _ _ _ _ _ Hkey He Hold) in Hadd.
    match type of Hadd with
    | evict_loop _ ?c1 = _ =>
        assert (inv c1) as Hinv1 by (by eapply plain_inv_update);
        assert (front_is c1 ele key v) as Hfront1
    end.
    { split_and!; simpl.
      - unfold list_.MoveToFront. by rewrite decide_True.
      - rewrite He. by rewrite lookup_insert_eq, Hk.
      - done. }
    apply (Get_front _ ele).
    + by apply (wp_elim _ _ _ _ _ _ (plain_evict_loop_spec _ _ Hinv1) Hadd).
    + by apply (wp_elim _ _ _ _ _ _
                  (plain_evict_loop_front _ _ _ _ _ Hinv1 Hfront1 Hfit) Hadd).
  - rewrite (Add_insert_eq _ _ _ Hkey) in Hadd.
    match type of Hadd with
    | evict_loop _ ?c1 = _ =>
        assert (inv c1) as Hinv1 by (by apply plain_inv_insert);
        assert (front_is c1 (next c) key v) as Hfront1
    end.
    { split_and!; simpl; [done|by rewrite lookup_insert_eq..]. }
    apply (Get_front _ (next c)).
    + by apply (wp_elim _ _ _ _ _ _ (plain_evict_loop_spec _ _ Hinv1) Hadd).
    + by apply (wp_elim _ _ _ _ _ _
                  (plain_evict_loop_front _ _ _ _ _ Hinv1 Hfront1 Hfit) Hadd).
Qed.

(** *** What is evicted, and in which order *)

Lemma keys_of_insert_ne (h : gmap ptr (lru.entry V)) l p e :
  p ∉ l → lru.keys_of (<[p := e]> h) l = lru.keys_of h l.
Proof.
  unfold lru.keys_of. induction l as [|q l IH]; csimpl; [done|].
  intros [Hne Hl]%not_elem_of_cons. by rewrite lookup_insert_ne, IH.
Qed.

Lemma keys_of_store (h : gmap ptr (lru.entry V)) l p e x :
  h !! p = Some e →
  lru.keys_of (<[p := lru.Entry (lru.key e) x]> h) l = lru.keys_of h l.
Proof.
  intros He. unfold lru.keys_of. induction l as [|q l IH]; csimpl; [done|].
  rewrite IH. destruct (decide (q = p)) as [->|Hne].
  - by rewrite lookup_insert_eq, He.
  - by rewrite lookup_insert_ne.
Qed.

Lemma filter_all {A} (P : A → Prop) `{!∀ x, Decision (P x)} (l : list A) :
  (∀ x, x ∈ l → P x) → filter P l = l.
Proof.
  induction l as [|x l IH]; intros Hall; [done|].
  rewrite filter_cons_True by (apply Hall; left).
  rewrite IH; [done|]. intros y Hy. apply Hall. by right.
Qed.

Lemma plain_RemoveOldest_keys c :
  inv c → ll c ≠ [] →
  ∃ kk v c1,
    RemoveOldest c = Ret tt c1 (if OnEvicted c then [(kk, Some v)] else [])
    ∧ keys c = keys c1 ++ [kk].
Proof.
  intros (Hwf & _) Hne.
  destruct (last (ll c)) as [ele|] eqn:Hlast; [|by apply last_None in Hlast].
  pose proof Hlast as Hback.
  apply last_Some in Hlast as [l' Hll].
  assert (ele ∈ ll c) as Hin by (rewrite Hll, elem_of_app; right; left).
  destruct (queue_wf_lookup _ _ _ _ Hwf Hin) as ([kk x] & He & Hm & [v Hv]).
  simpl in *. subst x.
  eexists kk, v, _. split; [by apply RemoveOldest_eq|].
  unfold keys. simpl. rewrite Hll at 1. rewrite keys_of_app.
  rewrite (keys_of_cons _ _ _ _ He). simpl. f_equal.
  rewrite Hll, (Remove_last (V:=V)); [done|]. rewrite <-Hll. apply Hwf.
Qed.

Lemma plain_evict_loop_keys fuel c c' ev :
  inv c → evict_loop fuel c = Ret tt c' ev →
  ∃ dropped,
    keys c = keys c' ++ dropped
    ∧ ev.*1 = (if OnEvicted c then reverse dropped else []).
Proof.
  revert c ev. induction fuel as [|fuel IH]; intros c ev Hinv; simpl.
  - rewrite bind_get_state. destruct (over_budget c).
    + by destruct (list_.Back (ll c)).
    + intros [= <- <-]. exists []. rewrite app_nil_r. by destruct (OnEvicted c).
  - rewrite bind_get_state. destruct (over_budget c).
    + destruct (list_.Back (ll c)) as [ele|] eqn:Hback; [|done].
      assert (ll c ≠ []) as Hne by (by intros Hnil; rewrite Hnil in Hback).
      destruct (plain_RemoveOldest_keys c Hinv Hne) as (kk & v & c1 & Hrm & Hkeys).
      pose proof (wp_elim _ _ _ _ _ _ (RemoveOldest_spec c Hinv) Hrm)
        as (Hinv1 & _ & Hon & _).
      unfold bind. rewrite Hrm.
      destruct (evict_loop fuel c1) as [[] c2 ev2| |] eqn:Hloop; [|done..].
      intros [= <- <-].
      destruct (IH _ _ Hinv1 Hloop) as (dropped & Hkeys1 & Hev1).
      exists (dropped ++ [kk]). split.
      * by rewrite Hkeys, Hkeys1, app_assoc.
      * rewrite fmap_app, Hev1, Hon.
        destruct (OnEvicted c); simpl; [|done]. by rewrite reverse_snoc.
    + intros [= <- <-]. exists []. rewrite app_nil_r. by destruct (OnEvicted c).
Qed.

(** [Add] evicts the least recently used keys: the keys the cache holds
    after [Add(key, value)], most recent first, followed by the keys
    that were dropped, are the key added followed by the keys held
    before; the callback, when installed, is called for the dropped
    keys from the oldest on, and for nothing else. *)
Theorem plain_Add_evicts_oldest c key v c' ev :
  reachable c → Add key (Some v) c = Ret tt c' ev →
  ∃ dropped,
    keys c' ++ dropped = key :: filter (λ k0, k0 ≠ key) (keys c)
    ∧ ev.*1 = (if OnEvicted c then reverse dropped else []).
Proof.
  intros Hinv%plain_reachable_inv Hadd.
  destruct (cache c !! key) as [ele|] eqn:Hkey.
  - pose proof Hinv as ((Hnd & Hm & Hl) & _).
    destruct (Hm _ _ Hkey) as (Hin & e & He & Hk).
    destruct (Hl _ Hin) as (e' & He' & _ & [old Hold]).
    assert (e' = e) as -> by congruence.
    rewrite (Add_update_eq _ _ _ _ _ _ Hkey He Hold) in Hadd.
    match type of Hadd with
    | evict_loop _ ?c1 = _ =>
        assert (inv c1) as Hinv1 by (by eapply plain_inv_update);
        destruct (plain_evict_loop_keys _ c1 _ _ Hinv1 Hadd)
          as (dropped & Hkeys & Hev)
    end.
    exists dropped. split; [|done]. rewrite <-Hkeys. unfold keys. simpl.
    rewrite He, keys_of_store by done.
    unfold list_.MoveToFront. rewrite decide_True by done.
    rewrite (keys_of_cons _ _ _ _ He), Hk.
    rewrite (keys_of_Remove _ _ _ _ _ (proj1 Hinv) Hin He). by rewrite Hk.
  - rewrite (Add_insert_eq _ _ _ Hkey) in Hadd.
    match type of Hadd with
    | evict_loop _ ?c1 = _ =>
        assert (inv c1) as Hinv1 by (by apply plain_inv_insert);
        destruct (plain_evict_loop_keys _ c1 _ _ Hinv1 Hadd)
          as (dropped & Hkeys & Hev)
    end.
    exists dropped. split; [|done]. rewrite <-Hkeys. unfold keys.
    cbn [ll heap set_nbyBytes set_cache set_ll set_next set_heap].
    unfold list_.PushFront.
    erewrite keys_of_cons by apply lookup_insert_eq. simpl. f_equal.
    destruct Hinv as (Hwf & _ & Hfresh).
    rewrite keys_of_insert_ne by (intros Hin%Hfresh; lia).
    symmetry. apply filter_all. intros k0 Hk0 ->.
    apply (queue_wf_keys _ _ _ _ Hwf) in Hk0 as [p Hp]. congruence.
Qed.
End plain.

(** ** The shard *)

Section shard.
Import geecache.

Lemma add_unfold key value sh :
  add key value sh
  = match lru.Add key (Some value) (shard_cache sh) with
    | Ret a c' ev => Ret a (mkcache (Some c') (cacheBytes sh)) ev
    | Panic msg c' ev => Panic msg (mkcache (Some c') (cacheBytes sh)) ev
    | Diverge => Diverge
    end.
Proof.
  unfold add, shard_cache. rewrite bind_get_state.
  destruct sh as [[c|] n]; simpl.
  - unfold bind, ret, on_lru. simpl. by destruct (lru.Add _ _ _).
  - unfold bind, modify, on_lru. simpl. by destruct (lru.Add _ _ _).
Qed.

Lemma get_unfold key c n :
  get key (mkcache (Some c) n)
  = match lru.Get key c with
    | Ret (Some v, true) c' ev => Ret (v, true) (mkcache (Some c') n) ev
    | Ret (None, true) c' ev =>
        Panic "interface conversion: interface is nil, not geecache.ByteView"
              (mkcache (Some c') n) ev
    | Ret (_, false) c' ev => Ret (ByteView_zero, false) (mkcache (Some c') n) ev
    | Panic msg c' ev => Panic msg (mkcache (Some c') n) ev
    | Diverge => Diverge
    end.
Proof.
  unfold get. rewrite bind_get_state. simpl. unfold bind, on_lru. simpl.
  destruct (lru.Get key c) as [[[v|] []] c' ev| |]; simpl;
    by rewrite ?app_nil_r.
Qed.

Lemma stored_value_not_nil {V} `{!lru.Value V} (c : lru.Cache V) key x :
  lru.inv c → lru.stored_value c key = Some x → is_Some x.
Proof.
  intros Hinv (p & [Hp|Hp] & He)%holds_stored; [| |done].
  - destruct (queue_wf_lookup _ _ _ _ (lru.inv_main _ Hinv) Hp)
      as (e & He' & _ & Hv).
    assert (e = lru.Entry key x) as -> by congruence. done.
  - destruct (queue_wf_lookup _ _ _ _ (lru.inv_hist _ Hinv) Hp)
      as (e & He' & _ & Hv).
    assert (e = lru.Entry key x) as -> by congruence. done.
Qed.

Lemma shard_inv_init n : shard_inv (mkcache None n).
Proof. split_and!; try done. apply reachable_New. Qed.

Lemma add_keeps_shard_inv key value sh a sh' ev :
  shard_inv sh → add key value sh = Ret a sh' ev →
  shard_inv sh' ∧ cacheBytes sh' = cacheBytes sh
  ∧ lru.Add key (Some value) (shard_cache sh) = Ret tt (shard_cache sh') ev
  ∧ is_Some (lru sh').
Proof.
  intros (Hreach & Hmax & Hk & Hoff). rewrite add_unfold.
  destruct (lru.Add key (Some value) (shard_cache sh)) as [[] c' ev'| |] eqn:Hadd;
    [|done..].
  intros [= <- <- <-].
  destruct (wp_elim _ _ _ _ _ _ (Add_config _ key (Some value)) Hadd)
    as (H1 & H2 & H3 & H4).
  split_and!; simpl; eauto; unfold shard_inv, shard_cache; simpl.
  split_and!; [by eapply reachable_Add|congruence..].
Qed.

Lemma get_keeps_shard_inv key sh r sh' ev :
  shard_inv sh → get key sh = Ret r sh' ev →
  shard_inv sh' ∧ cacheBytes sh' = cacheBytes sh.
Proof.
  intros (Hreach & Hmax & Hk & Hoff). destruct sh as [[c|] n].
  - rewrite get_unfold. unfold shard_cache in *. simpl in *.
    destruct (lru.Get key c) as [[x ok] c' ev'| |] eqn:Hget; [|done..].
    destruct (wp_elim _ _ _ _ _ _ (Get_frame _ key) Hget)
      as ((H1 & H2 & H3 & H4) & _).
    assert (shard_inv (mkcache (Some c') n)) as Hinv'.
    { unfold shard_inv, shard_cache. simpl.
      split_and!; [by eapply reachable_Get|congruence..]. }
    destruct x as [v|], ok; intros [= <- <- <-]; done.
  - intros Hget.
    change (Ret (ByteView_zero, false) (mkcache None n) [] = Ret r sh' ev)
      in Hget.
    injection Hget as <- <- <-. split; [|done]. by split_and!.
Qed.

Lemma shard_do_calls_keep_inv cls sh sh' ev :
  shard_inv sh → shard_do_calls cls sh = Ret tt sh' ev →
  shard_inv sh' ∧ cacheBytes sh' = cacheBytes sh.
Proof.
  revert sh ev. induction cls as [|cl cls IH]; intros sh ev Hinv; simpl.
  { by intros [= <- <-]. }
  unfold bind at 1. destruct cl as [key value|key]; simpl.
  - destruct (add key value sh) as [[] sh1 ev1| |] eqn:Hadd; [|done..].
    destruct (add_keeps_shard_inv _ _ _ _ _ _ Hinv Hadd) as (Hinv1 & Hn1 & _).
    destruct (shard_do_calls cls sh1) as [[] sh2 ev2| |] eqn:Hrest; [|done..].
    intros [= <- <-]. destruct (IH _ _ Hinv1 Hrest) as [? ?].
    split; [done|congruence].
  - unfold bind at 1.
    destruct (get key sh) as [r sh1 ev1| |] eqn:Hget; [|done..].
    destruct (get_keeps_shard_inv _ _ _ _ _ Hinv Hget) as (Hinv1 & Hn1).
    simpl.
    destruct (shard_do_calls cls sh1) as [[] sh2 ev2| |] eqn:Hrest; [|done..].
    intros [= <- <-]. destruct (IH _ _ Hinv1 Hrest) as [? ?].
    split; [done|congruence].
Qed.

Lemma shard_reachable_inv sh : shard_reachable sh → shard_inv sh.
Proof.
  intros (n & cls & ev & Hrun).
  by apply (shard_do_calls_keep_inv cls _ _ _ (shard_inv_init n) Hrun).
Qed.

Lemma shard_add_returns key value sh :
  shard_inv sh → 0 ≤ cacheBytes sh →
  ∃ sh', add key value sh = Ret tt sh' [].
Proof.
  intros (Hreach & Hmax & Hk & Hoff) Hn. rewrite add_unfold.
  destruct (Add_returns (shard_cache sh) key value Hreach) as (c' & ev & Hadd);
    [lia..|].
  rewrite Hadd.
  rewrite (wp_elim _ _ _ _ _ _ (Add_quiet _ key (Some value) Hoff) Hadd). eauto.
Qed.

Lemma shard_get_returns key sh :
  shard_inv sh →
  ∃ r sh', get key sh = Ret r sh' []
           ∧ (r.2 = true → lru.stored_value (shard_cache sh) key = Some (Some r.1))
           ∧ (r.2 = false → r.1 = ByteView_zero).
Proof.
  intros (Hreach & Hmax & Hk & Hoff). destruct sh as [[c|] n].
  - rewrite get_unfold. unfold shard_cache in *. simpl in *.
    destruct (Get_returns_k1 c key Hreach) as ([x ok] & c' & Hget); [lia|].
    rewrite Hget.
    destruct (Get_lookup_spec _ _ _ _ _ _ Hreach Hget)
      as (_ & _ & [[-> Hst]|(-> & -> & _)]).
    + destruct (stored_value_not_nil c key x) as [v ->];
        [by apply reachable_inv|done|].
      eexists (v, true), _. by split_and!.
    + eexists (ByteView_zero, false), _. by split_and!.
  - exists (ByteView_zero, false), (mkcache None n). by split_and!.
Qed.

(** A shard with a capacity that is not negative never panics: whatever
    calls it has served, [add] returns and [get] returns, and no
    callback is called. *)
Theorem shard_calls_return sh :
  shard_reachable sh → 0 ≤ cacheBytes sh →
  (∀ key value, ∃ sh', add key value sh = Ret tt sh' [])
  ∧ (∀ key, ∃ r sh', get key sh = Ret r sh' []).
Proof.
  intros Hinv%shard_reachable_inv Hn. split.
  - intros key value. by apply shard_add_returns.
  - intros key. destruct (shard_get_returns key sh Hinv) as (r & sh' & H & _).
    eauto.
Qed.

(** [get] after [add] on a shard: the view just added comes back, or a
    miss when the capacity did not let it stay, never another view; with
    capacity 0 (no limit) it always comes back. *)
Theorem shard_add_then_get sh key value :
  shard_reachable sh → 0 ≤ cacheBytes sh →
  ∃ sh1 sh2 r,
    add key value sh = Ret tt sh1 []
    ∧ get key sh1 = Ret r sh2 []
    ∧ (r = (value, true) ∨ r = (ByteView_zero, false))
    ∧ (cacheBytes sh = 0 → r = (value, true)).
Proof.
  intros Hinv%shard_reachable_inv Hn.
  destruct (shard_add_returns key value sh Hinv Hn) as (sh1 & Hadd).
  destruct (add_keeps_shard_inv _ _ _ _ _ _ Hinv Hadd)
    as (Hinv1 & Hn1 & Hadd' & Hsome).
  destruct (shard_get_returns key sh1 Hinv1) as ([v ok] & sh2 & Hget & Ht & Hf).
  simpl in *. destruct Hinv as (Hreach & Hmax & Hk & Hoff).
  exists sh1, sh2, (v, ok). split_and!; [done|done|..].
  - destruct ok; [left|right; by rewrite Hf].
    destruct (Add_stored_values _ _ _ _ _ Hreach Hadd' _ _ (Ht eq_refl))
      as [[_ [= ->]]|[? _]]; done.
  - intros H0.
    destruct (Add_unlimited_spec (shard_cache sh) key value Hreach) as (c' & Hc' & Hst & _);
      [lia..|].
    assert (c' = shard_cache sh1) as -> by congruence.
    destruct Hsome as [c1 Hc1]. destruct sh1 as [l1 n1]. simpl in *. subst l1.
    unfold shard_cache in Hst. simpl in Hst.
    revert Hget. rewrite get_unfold.
    destruct Hinv1 as (Hreach1 & _ & Hk1 & _).
    unfold shard_cache in Hreach1, Hk1. simpl in *.
    destruct (Get_returns_k1 c1 key Hreach1) as ([x ok'] & c2 & Hget1); [lia|].
    rewrite Hget1.
    destruct (Get_lookup_spec _ _ _ _ _ _ Hreach1 Hget1)
      as (_ & _ & [[-> Hst']|(-> & -> & Hst' & _)]); [|congruence].
    rewrite Hst in Hst'. injection Hst' as <-. by intros [= <- <- _].
Qed.
End shard.

(** ** The HTTP layer *)

Section strings.
Import geecache.

Lemma HasPrefix_app base rest : HasPrefix (base +:+ rest) base = true.
Proof.
  unfold HasPrefix. induction base as [|a base IH]; simpl; [by destruct rest|].
  by destruct (ascii_dec a a).
Qed.

Lemma string_from_app base rest :
  string_from (String.length base) (base +:+ rest) = rest.
Proof. induction base as [|a base IH]; simpl; [by destruct rest|done]. Qed.

Lemma substring_app g x : String.substring 0 (String.length g) (g +:+ x) = g.
Proof.
  induction g as [|a g IH]; simpl; [by destruct x|]. by rewrite IH.
Qed.

Lemma index_slash_cons a s :
  String.index 0 "/" (String a s)
  = if Ascii.eqb a "/" then Some 0%nat else S <$> String.index 0 "/" s.
Proof.
  cbn [String.index String.prefix].
  destruct (ascii_dec "/" a) as [<-|Hne].
  - rewrite Ascii.eqb_refl. by destruct s.
  - destruct (Ascii.eqb_spec a "/") as [->|_]; [done|].
    by destruct (String.index 0 "/" s).
Qed.

Lemma index_slash_app g x :
  contains_byte "/" g = false →
  String.index 0 "/" (g +:+ String "/" x) = Some (String.length g).
Proof.
  induction g as [|a g IH]; cbn [contains_byte String.length].
  - intros _. change (String.index 0 "/" (String "/" x) = Some 0%nat).
    by rewrite index_slash_cons.
  - intros [Ha Hg]%orb_false_elim.
    change (String.index 0 "/" (String a (g +:+ String "/" x))
            = Some (S (String.length g))).
    by rewrite index_slash_cons, Ha, (IH Hg).
Qed.

Lemma index_slash_none s :
  contains_byte "/" s = false → String.index 0 "/" s = None.
Proof.
  induction s as [|a s IH]; cbn [contains_byte]; [done|].
  intros [Ha Hs]%orb_false_elim.
  by rewrite index_slash_cons, Ha, (IH Hs).
Qed.

Lemma string_from_app_sep g x :
  string_from (String.length g + 1) (g +:+ String "/" x) = x.
Proof. induction g as [|a g IH]; simpl; done. Qed.

Lemma SplitN_group_key g x :
  contains_byte "/" g = false → SplitN (g +:+ String "/" x) "/" 2 = [g; x].
Proof.
  intros Hg.
  change (SplitN (g +:+ String "/" x) "/" 2)
    with (split_upto 1 (g +:+ String "/" x) "/").
  cbn [split_upto].
  rewrite (index_slash_app _ _ Hg), substring_app.
  do 2 f_equal. apply string_from_app_sep.
Qed.

Lemma SplitN_no_slash s : contains_byte "/" s = false → SplitN s "/" 2 = [s].
Proof.
  intros Hs. change (SplitN s "/" 2) with (split_upto 1 s "/").
  cbn [split_upto]. by rewrite (index_slash_none _ Hs).
Qed.
End strings.

Section serving.
Import geecache.
Context {Group : Type}.
Variable GetGroup : string → option Group.
Variable Group_Get : Group → string → ByteView * option string.

(** With a path under the base path [ServeHTTP] returns, whatever the
    rest of the path, the registry and the group do: it logs the request
    first and then answers. *)
Theorem ServeHTTP_returns p r :
  HasPrefix (URL_Path r) (basePath p) = true →
  ∃ ev, ServeHTTP GetGroup Group_Get p r tt
        = Ret tt tt
              (log_Printf ("[Sever " +:+ self p +:+ "] " +:+ Method r +:+ " "
                           +:+ URL_Path r) :: ev).
Proof.
  intros Hp. unfold ServeHTTP, Log. rewrite Hp. simpl. unfold bind at 1, emit.
  destruct (SplitN _ _ _) as [|g [|key [|? ?]]]; simpl; eauto.
  destruct (GetGroup g) as [grp|]; simpl; eauto.
  destruct (Group_Get grp key) as [view [e|]]; simpl; eauto.
Qed.

(** The first '/' after the base path separates the group from the key,
    and the key may hold further '/'.  An unknown group gets a 404 and
    nothing else; a known group gets the content type and the bytes of
    the view its [Get] gave, after a 500 with the error text when that
    [Get] failed. *)
Theorem ServeHTTP_group_key p method group key :
  contains_byte "/" group = false →
  ServeHTTP GetGroup Group_Get p
            (mkRequest method (basePath p +:+ group +:+ String "/" key)) tt
  = Ret tt tt
        (log_Printf ("[Sever " +:+ self p +:+ "] " +:+ method +:+ " "
                     +:+ basePath p +:+ group +:+ String "/" key)
         :: match GetGroup group with
            | None => [http_Error ("no such group" +:+ group) StatusNotFound]
            | Some grp =>
                match (Group_Get grp key).2 with
                | Some e => [http_Error e StatusInternalServerError]
                | None => []
                end
                ++ [Header_Set "Content-Type" "application/octet-stream";
                    Write (ByteSlice (Group_Get grp key).1)]
            end).
Proof.
  intros Hg. unfold ServeHTTP, Log. simpl.
  rewrite HasPrefix_app, string_from_app, (SplitN_group_key _ _ Hg). simpl.
  unfold bind at 1, emit.
  destruct (GetGroup group) as [grp|]; simpl; [|done].
  destruct (Group_Get grp key) as [view [e|]]; simpl; done.
Qed.

Lemma ServeHTTP_no_slash p method rest :
  contains_byte "/" rest = false →
  ServeHTTP GetGroup Group_Get p (mkRequest method (basePath p +:+ rest)) tt
  = Ret tt tt
        [log_Printf ("[Sever " +:+ self p +:+ "] " +:+ method +:+ " "
                     +:+ basePath p +:+ rest);
         http_Error "bad request" StatusBadRequest].
Proof.
  intros Hr. unfold ServeHTTP, Log. simpl.
  by rewrite HasPrefix_app, string_from_app, (SplitN_no_slash _ Hr).
Qed.

(** A path with nothing but one segment after the base path gets a 400
    and nothing else: the registry is not asked. *)
Theorem ServeHTTP_one_segment p method rest :
  contains_byte "/" rest = false →
  ServeHTTP GetGroup Group_Get p (mkRequest method (basePath p +:+ rest)) tt
  = Ret tt tt
        [log_Printf ("[Sever " +:+ self p +:+ "] " +:+ method +:+ " "
                     +:+ basePath p +:+ rest);
         http_Error "bad request" StatusBadRequest].
Proof. apply ServeHTTP_no_slash. Qed.
End serving.

Section escaping.
Import geecache.

Lemma string_app_assoc (s1 s2 s3 : string) :
  (s1 +:+ s2) +:+ s3 = s1 +:+ s2 +:+ s3.
Proof.
  induction s1 as [|a s1 IH]; [done|].
  change (String a ((s1 +:+ s2) +:+ s3) = String a (s1 +:+ s2 +:+ s3)).
  by rewrite IH.
Qed.

Lemma contains_byte_app b s1 s2 :
  contains_byte b (s1 +:+ s2) = contains_byte b s1 || contains_byte b s2.
Proof.
  induction s1 as [|a s1 IH]; [done|].
  change (Ascii.eqb a b || contains_byte b (s1 +:+ s2)
          = Ascii.eqb a b || contains_byte b s1 || contains_byte b s2).
  by rewrite IH, orb_assoc.
Qed.

Lemma QueryEscape_cons c s :
  QueryEscape (String c s) = escape_byte c +:+ QueryEscape s.
Proof.
  unfold escape_byte. cbn [QueryEscape].
  destruct (shouldEscape c); [destruct (Ascii.eqb c " ")|]; done.
Qed.

Lemma QueryEscape_app s1 s2 :
  QueryEscape (s1 +:+ s2) = QueryEscape s1 +:+ QueryEscape s2.
Proof.
  induction s1 as [|a s1 IH]; [done|].
  change (QueryEscape (String a (s1 +:+ s2))
          = QueryEscape (String a s1) +:+ QueryEscape s2).
  by rewrite !QueryEscape_cons, IH, string_app_assoc.
Qed.

Lemma escape_byte_no_slash c : contains_byte "/" (escape_byte c) = false.
Proof. destruct c as [[] [] [] [] [] [] [] []]; vm_compute; reflexivity. Qed.

(** [QueryEscape] leaves a string of unreserved bytes as it is. *)
Lemma QueryEscape_unreserved s : unreserved s = true → QueryEscape s = s.
Proof.
  induction s as [|a s IH]; [done|]. cbn [unreserved QueryEscape].
  intros [Ha Hs]%andb_true_iff. apply negb_true_iff in Ha.
  by rewrite Ha, (IH Hs).
Qed.

Lemma QueryEscape_no_slash s : contains_byte "/" (QueryEscape s) = false.
Proof.
  induction s as [|a s IH]; [done|].
  by rewrite QueryEscape_cons, contains_byte_app, escape_byte_no_slash, IH.
Qed.
End escaping.

Section client.
Import geecache.
Variable http_Get : string → http_response.

(** The getter cannot tell where the group ends and the key begins:
    moving bytes from the end of the group to the start of the key
    changes neither the URL asked for nor the result. *)
Theorem httpGetter_Get_boundary h g1 g2 key :
  httpGetter_Get http_Get h (g1 +:+ g2) key tt
  = httpGetter_Get http_Get h g1 (g2 +:+ key) tt.
Proof.
  unfold httpGetter_Get.
  by rewrite !QueryEscape_app, string_app_assoc.
Qed.

(** [Get] makes one request, and no '/' stands in its URL after the
    base URL, whatever the group and the key are. *)
Theorem httpGetter_Get_no_separator h group key :
  ∃ r tail,
    httpGetter_Get http_Get h group key tt = Ret r tt [baseURL h +:+ tail]
    ∧ contains_byte "/" tail = false.
Proof.
  destruct (httpGetter_Get_URL http_Get h group key) as [r Hr].
  exists r, (QueryEscape group +:+ QueryEscape key). split; [exact Hr|].
  by rewrite contains_byte_app, !QueryEscape_no_slash.
Qed.

(** [Get] gives bytes exactly when the answer has status 200 and its
    body was read to the end, and then gives that body. *)
Theorem httpGetter_Get_bytes h group key bytes :
  (∃ ev, httpGetter_Get http_Get h group key tt = Ret (inl bytes) tt ev)
  ↔ ∃ status,
      http_Get (baseURL h +:+ QueryEscape group +:+ QueryEscape key)
      = get_response StatusOK status (inl bytes).
Proof.
  unfold httpGetter_Get, bind, emit.
  destruct (http_Get _) as [err|code st body]; simpl.
  - split; [intros [ev ?]; done | intros [? ?]; done].
  - destruct (Z.eqb_spec code StatusOK) as [->|Hne]; simpl.
    + destruct body as [bs|err]; simpl.
      * split; [intros [ev [= ->]]; eauto | intros [? [= <- <-]]; eauto].
      * split; [intros [ev ?]; done | intros [? ?]; done].
    + split; [intros [ev ?]; done | intros [? [= ? ?]]; done].
Qed.
End client.

Section ends.
Import geecache.
Context {Group : Type}.
Variable GetGroup : string → option Group.
Variable Group_Get : Group → string → ByteView * option string.

(** A group and a key of unreserved bytes only: the URL [httpGetter.Get]
    builds for them holds no escape sequence, so its path is the text
    base path, group, key as it stands, and a request with that path is
    answered with 400. *)
Theorem ServeHTTP_unreserved_segments p method group key :
  unreserved group = true → unreserved key = true →
  QueryEscape group +:+ QueryEscape key = group +:+ key
  ∧ ServeHTTP GetGroup Group_Get p
              (mkRequest method
                 (basePath p +:+ QueryEscape group +:+ QueryEscape key)) tt
    = Ret tt tt
          [log_Printf ("[Sever " +:+ self p +:+ "] " +:+ method +:+ " "
                       +:+ basePath p +:+ group +:+ key);
           http_Error "bad request" StatusBadRequest].
Proof.
  intros Hg Hk.
  pose proof (QueryEscape_no_slash group) as Hng.
  pose proof (QueryEscape_no_slash key) as Hnk.
  rewrite (QueryEscape_unreserved _ Hg) in *.
  rewrite (QueryEscape_unreserved _ Hk) in *.
  split; [done|].
  apply (ServeHTTP_no_slash GetGroup Group_Get p method (group +:+ key)).
  by rewrite contains_byte_app, Hng, Hnk.
Qed.
End ends.

Section peers.
Import geecache.
Context {Map : Type}.
Variable consistenthash_New : Z → Map.
Variable Map_Add : Map → list string → Map.
Variable Map_Get : option Map → string → string + string.

Lemma Set_range_spec (ps : list string) (p : pool (Map := Map)) :
  ∃ g, Set_range ps p
       = Ret tt (mkpool (mkHTTPPool (self (fields p)) (basePath (fields p)) g)
                   (peers p)) []
       ∧ ∀ peer, g !! peer
                 = if decide (peer ∈ ps)
                   then Some (mkhttpGetter (peer +:+ basePath (fields p)))
                   else httpGetters (fields p) !! peer.
Proof.
  revert p. induction ps as [|q ps IH]; intros p.
  - exists (httpGetters (fields p)). split; [by destruct p as [[]]|].
    intros peer. by rewrite decide_False by apply not_elem_of_nil.
  - cbn [Set_range]. rewrite bind_modify.
    edestruct IH as (g & -> & Hg). exists g. split; [done|].
    intros peer. rewrite Hg. simpl.
    destruct (decide (peer ∈ ps)) as [Hin|Hin].
    + by rewrite decide_True by (by right).
    + destruct (decide (peer = q)) as [->|Hne].
      * by rewrite lookup_insert_eq, decide_True by left.
      * rewrite lookup_insert_ne by done.
        rewrite decide_False; [done|]. by intros [?|?]%elem_of_cons.
Qed.

Lemma Set_spec ps (p : pool) :
  ∃ g, HTTPPool_Set consistenthash_New Map_Add ps p
       = Ret tt (mkpool (mkHTTPPool (self (fields p)) (basePath (fields p)) g)
                   (Some (Map_Add (consistenthash_New defaultReplicas) ps))) []
       ∧ ∀ peer, g !! peer
                 = if decide (peer ∈ ps)
                   then Some (mkhttpGetter (peer +:+ basePath (fields p)))
                   else None.
Proof.
  unfold HTTPPool_Set. rewrite !bind_modify.
  edestruct Set_range_spec as (g & -> & Hg). exists g. split; [done|].
  intros peer. rewrite Hg. simpl. by destruct (decide _).
Qed.

(** [Set] returns without a trace; it keeps the name and the base path
    of the pool, puts the ring built from the peers in place, and
    leaves a getter for each of the peers and for nothing else, also
    not for the peers of an earlier [Set]: the getter of a peer has the
    peer followed by the base path as its base URL. *)
Theorem Set_getters ps (p : pool) :
  ∃ p', HTTPPool_Set consistenthash_New Map_Add ps p = Ret tt p' []
        ∧ self (fields p') = self (fields p)
        ∧ basePath (fields p') = basePath (fields p)
        ∧ peers p' = Some (Map_Add (consistenthash_New defaultReplicas) ps)
        ∧ ∀ peer, httpGetters (fields p') !! peer
                  = if decide (peer ∈ ps)
                    then Some (mkhttpGetter (peer +:+ basePath (fields p)))
                    else None.
Proof.
  destruct (Set_spec ps p) as (g & -> & Hg). eauto 10.
Qed.

(** After a [Set], [PickPeer] for a key the ring gives to one of the
    peers, not the pool itself and not the empty name, logs the pick and
    returns the getter of that peer with true; it leaves the pool as it
    is.  The URL that getter asks for a group and a key starts with the
    peer and the base path. *)
Theorem PickPeer_after_Set (http_Get : string → http_response)
        ps (p p' : pool) key peer group k :
  HTTPPool_Set consistenthash_New Map_Add ps p = Ret tt p' [] →
  Map_Get (peers p') key = inl peer →
  peer ∈ ps → peer ≠ EmptyString → peer ≠ self (fields p) →
  ∃ h, PickPeer Map_Get key p'
       = Ret (Some (Some h), true) p'
             [log_Printf ("[Sever " +:+ self (fields p) +:+ "] Pick peer "
                          +:+ peer)]
       ∧ ∃ r, httpGetter_Get http_Get h group k tt
              = Ret r tt [peer +:+ basePath (fields p) +:+ QueryEscape group
                          +:+ QueryEscape k].
Proof.
  intros HSet Hget Hin Hne Hself.
  destruct (Set_spec ps p) as (g & HSet' & Hg).
  rewrite HSet' in HSet. injection HSet as <-.
  exists (mkhttpGetter (peer +:+ basePath (fields p))). split.
  - unfold PickPeer. rewrite bind_get_state, Hget. simpl.
    rewrite bool_decide_true by done. unfold bind, emit, ret. simpl.
    by rewrite Hg, decide_True.
  - destruct (httpGetter_Get_URL http_Get
                (mkhttpGetter (peer +:+ basePath (fields p))) group k)
      as [r Hr].
    exists r. rewrite Hr. simpl. by rewrite string_app_assoc.
Qed.

(** Whenever [PickPeer] returns, the pool is as before; it says true
    only for a peer of the ring that is neither the empty name nor the
    pool itself, and then has logged that pick and nothing else;
    otherwise it returns the nil interface and logs nothing. *)
Theorem PickPeer_returns (p p' : pool) key r ok ev :
  PickPeer Map_Get key p = Ret (r, ok) p' ev →
  p' = p
  ∧ ∃ peer, Map_Get (peers p) key = inl peer
    ∧ if ok
      then peer ≠ EmptyString ∧ peer ≠ self (fields p)
           ∧ r = Some (httpGetters (fields p) !! peer)
           ∧ ev = [log_Printf ("[Sever " +:+ self (fields p)
                               +:+ "] Pick peer " +:+ peer)]
      else (peer = EmptyString ∨ peer = self (fields p))
           ∧ r = None ∧ ev = [].
Proof.
  unfold PickPeer. rewrite bind_get_state.
  destruct (Map_Get (peers p) key) as [peer|msg]; [|done].
  case_bool_decide as Hd.
  - unfold bind, emit, ret. simpl. intros [= <- <- <- <-].
    split; [done|]. exists peer. by destruct Hd.
  - unfold ret. intros [= <- <- <- <-]. split; [done|]. exists peer.
    split; [done|]. split; [|done].
    destruct (decide (peer = EmptyString)); [by left|].
    destruct (decide (peer = self (fields p))); [by right|].
    destruct Hd. done.
Qed.
End peers.

(** ** The hypotheses above, met *)

Section lru_k_witnesses.
Import lru lru_test.

Lemma Get_absent_key_witness :
  reachable demo_state
  ∧ ("q" ∉ main_keys demo_state) ∧ ("q" ∉ history_keys demo_state)
  ∧ Get "q" demo_state = Ret (None, false) demo_state [].
Proof.
  assert (reachable demo_state) as H
      by (exists 0, false, 2, demo_calls, []; vm_compute; reflexivity).
  assert ("q" ∉ main_keys demo_state) as Hm
      by (apply (bool_decide_unpack _); vm_compute; reflexivity).
  assert ("q" ∉ history_keys demo_state) as Hh
      by (apply (bool_decide_unpack _); vm_compute; reflexivity).
  split_and!; [exact H | exact Hm | exact Hh |].
  apply (Get_absent_key demo_state "q" H Hm Hh).
Defined.

Lemma Get_main_hit_witness :
  reachable demo_state ∧ "x" ∈ main_keys demo_state
  ∧ ∃ ele v,
      main_value demo_state "x" = Some (Some v)
      ∧ Get "x" demo_state
        = Ret (Some v, true) (set_ll (list_.MoveToFront ele) demo_state) []
      ∧ main_keys (set_ll (list_.MoveToFront ele) demo_state)
        = "x" :: filter (λ k0, k0 ≠ "x") (main_keys demo_state).
Proof.
  assert (reachable demo_state) as H
      by (exists 0, false, 2, demo_calls, []; vm_compute; reflexivity).
  assert ("x" ∈ main_keys demo_state) as Hx by (vm_compute; left).
  split; [exact H | split; [exact Hx|]].
  apply (Get_main_hit demo_state "x" H Hx).
Defined.

Lemma Get_lookup_witness :
  reachable demo_state
  ∧ Get "x" demo_state = Ret (Some "v2", true) demo_state []
  ∧ ([] : list (Evicted String)) = []
  ∧ (∀ key', stored_value demo_state key' = stored_value demo_state key')
  ∧ ((true = true ∧ stored_value demo_state "x" = Some (Some "v2"))
     ∨ (true = false ∧ Some "v2" = None
        ∧ stored_value demo_state "x" = None ∧ demo_state = demo_state)).
Proof.
  assert (reachable demo_state) as H
      by (exists 0, false, 2, demo_calls, []; vm_compute; reflexivity).
  assert (Get "x" demo_state = Ret (Some "v2", true) demo_state []) as Hget
      by (vm_compute; reflexivity).
  split; [exact H | split; [exact Hget|]].
  apply (Get_lookup demo_state "x" (Some "v2") true demo_state [] H Hget).
Defined.

Lemma keys_unique_witness :
  reachable demo_state
  ∧ NoDup (main_keys demo_state ++ history_keys demo_state)
  ∧ Cache_Len demo_state = Z.of_nat (size (mp demo_state)).
Proof.
  assert (reachable demo_state) as H
      by (exists 0, false, 2, demo_calls, []; vm_compute; reflexivity).
  split; [exact H | apply (keys_unique demo_state H)].
Defined.

Lemma configuration_constant_witness :
  do_calls demo_calls (New 0 false 2) = Ret tt demo_state []
  ∧ maxBytes demo_state = 0 ∧ hmaxBytes (historyCache demo_state) = 0
  ∧ k (historyCache demo_state) = 2 ∧ OnEvicted demo_state = false.
Proof.
  assert (do_calls demo_calls (New 0 false 2) = Ret tt demo_state []) as H
      by (vm_compute; reflexivity).
  split; [exact H|].
  apply (configuration_constant 0 false 2 demo_calls demo_state [] H).
Defined.

Lemma main_budget_kept_witness :
  (maxBytes TestRemoveOldest_state = 0
   ∨ useBytes TestRemoveOldest_state ≤ maxBytes TestRemoveOldest_state)
  ∧ (∀ key value c' ev,
        mp TestRemoveOldest_state !! key = None →
        Add key value TestRemoveOldest_state = Ret tt c' ev →
        maxBytes c' = 0 ∨ useBytes c' ≤ maxBytes c')
  ∧ (∀ key r c' ev,
        Get key TestRemoveOldest_state = Ret r c' ev →
        maxBytes c' = 0 ∨ useBytes c' ≤ maxBytes c').
Proof.
  assert (maxBytes TestRemoveOldest_state = 0
          ∨ useBytes TestRemoveOldest_state ≤ maxBytes TestRemoveOldest_state)
    as H by (right; vm_compute; discriminate).
  split; [exact H | apply (main_budget_kept TestRemoveOldest_state H)].
Defined.

Lemma RemoveCacheOldest_evicts_last_witness :
  reachable TestRemoveOldest_state
  ∧ main_keys TestRemoveOldest_state = ["key3"] ++ ["key2"]
  ∧ ∃ v c',
      main_value TestRemoveOldest_state "key2" = Some (Some v)
      ∧ RemoveCacheOldest TestRemoveOldest_state
        = Ret tt c' (if OnEvicted TestRemoveOldest_state
                     then [("key2", Some v)] else [])
      ∧ main_keys c' = ["key3"]
      ∧ mp c' = delete "key2" (mp TestRemoveOldest_state)
      ∧ useBytes c'
        = sub64 (useBytes TestRemoveOldest_state) (add64 (Len v) (len "key2"))
      ∧ historyCache c' = historyCache TestRemoveOldest_state.
Proof.
  assert (reachable TestRemoveOldest_state) as H
      by (exists 20, false, 1, TestRemoveOldest_calls, []; vm_compute; reflexivity).
  assert (main_keys TestRemoveOldest_state = ["key3"] ++ ["key2"]) as Hk
      by (vm_compute; reflexivity).
  split; [exact H | split; [exact Hk|]].
  apply (RemoveCacheOldest_evicts_last TestRemoveOldest_state ["key3"] "key2" H Hk).
Defined.

Lemma RemoveHistoryCacheOldest_evicts_first_witness :
  reachable demo_state
  ∧ history_keys demo_state = "y" :: ["z"]
  ∧ ∃ v c',
      history_value demo_state "y" = Some (Some v)
      ∧ RemoveHistoryCacheOldest demo_state
        = Ret tt c' (if OnEvicted demo_state then [("y", Some v)] else [])
      ∧ history_keys c' = ["z"]
      ∧ cnt (historyCache c') = delete "y" (cnt (historyCache demo_state))
      ∧ main_keys c' = main_keys demo_state
      ∧ useBytes c' = useBytes demo_state.
Proof.
  assert (reachable demo_state) as H
      by (exists 0, false, 2, demo_calls, []; vm_compute; reflexivity).
  assert (history_keys demo_state = "y" :: ["z"]) as Hk
      by (vm_compute; reflexivity).
  split; [exact H | split; [exact Hk|]].
  apply (RemoveHistoryCacheOldest_evicts_first demo_state "y" ["z"] H Hk).
Defined.

Lemma history_empty_for_k1_witness :
  reachable TestRemoveOldest_state
  ∧ k (historyCache TestRemoveOldest_state) ≤ 1
  ∧ history_keys TestRemoveOldest_state = []
  ∧ hmp (historyCache TestRemoveOldest_state) = ∅
  ∧ cnt (historyCache TestRemoveOldest_state) = ∅.
Proof.
  assert (reachable TestRemoveOldest_state) as H
      by (exists 20, false, 1, TestRemoveOldest_calls, []; vm_compute; reflexivity).
  assert (k (historyCache TestRemoveOldest_state) ≤ 1) as Hk
      by (vm_compute; discriminate).
  split; [exact H | split; [exact Hk|]].
  apply (history_empty_for_k1 TestRemoveOldest_state H Hk).
Defined.

Lemma Get_returns_for_k1_witness :
  reachable TestRemoveOldest_state
  ∧ k (historyCache TestRemoveOldest_state) ≤ 1
  ∧ ∃ r c', Get "key1" TestRemoveOldest_state = Ret r c' [].
Proof.
  assert (reachable TestRemoveOldest_state) as H
      by (exists 20, false, 1, TestRemoveOldest_calls, []; vm_compute; reflexivity).
  assert (k (historyCache TestRemoveOldest_state) ≤ 1) as Hk
      by (vm_compute; discriminate).
  split; [exact H | split; [exact Hk|]].
  apply (Get_returns_for_k1 TestRemoveOldest_state "key1" H Hk).
Defined.

Lemma Add_holds_only_witness :
  reachable demo_state
  ∧ ∃ c',
      Add "y" (Some "n" : option String) demo_state = Ret tt c' []
      ∧ ∀ key' x,
          stored_value c' key' = Some x →
          (key' = "y" ∧ x = Some "n")
          ∨ (key' ≠ "y" ∧ stored_value demo_state key' = Some x).
Proof.
  assert (reachable demo_state) as H
      by (exists 0, false, 2, demo_calls, []; vm_compute; reflexivity).
  split; [exact H|].
  eexists. split; [vm_compute; reflexivity|].
  apply (Add_holds_only demo_state "y" "n" _ [] H). vm_compute; reflexivity.
Defined.

Lemma Add_unlimited_witness :
  reachable demo_state ∧ maxBytes demo_state = 0
  ∧ 1 ≤ k (historyCache demo_state)
  ∧ ∃ c', Add "w" (Some "n" : option String) demo_state = Ret tt c' []
          ∧ stored_value c' "w" = Some (Some "n")
          ∧ ∀ key', key' ≠ "w" →
                    stored_value c' key' = stored_value demo_state key'.
Proof.
  assert (reachable demo_state) as H
      by (exists 0, false, 2, demo_calls, []; vm_compute; reflexivity).
  assert (maxBytes demo_state = 0) as Hm by (vm_compute; reflexivity).
  assert (1 ≤ k (historyCache demo_state)) as Hk by (vm_compute; discriminate).
  split_and!; [exact H | exact Hm | exact Hk |].
  apply (Add_unlimited demo_state "w" "n" H Hm Hk).
Defined.
End lru_k_witnesses.

Section lru_plain_witnesses.
Import lru_test lru_plain lru_plain_test.

Lemma plain_Add_within_budget_witness :
  ∃ c',
    Add "k5" (Some "12345678" : option String) plain_demo_state
    = Ret tt c' [("k3", Some "k3"); ("k4", Some "k4")]
    ∧ (maxBytes c' = 0 ∨ nbyBytes c' ≤ maxBytes c').
Proof.
  eexists. split; [vm_compute; reflexivity|].
  apply (plain_Add_within_budget plain_demo_state "k5" (Some "12345678") _
           [("k3", Some "k3"); ("k4", Some "k4")]).
  vm_compute; reflexivity.
Defined.

Lemma plain_Add_returns_witness :
  reachable plain_demo_state ∧ 0 ≤ maxBytes plain_demo_state
  ∧ ∃ c' ev,
      Add "k5" (Some "12345678" : option String) plain_demo_state = Ret tt c' ev.
Proof.
  assert (reachable plain_demo_state) as H
      by (exists 10, true,
            ((λ kv, CallAdd kv.1 (Some kv.2))
               <$> [("key1", "123456"); ("k2", "k2"); ("k3", "k3"); ("k4", "k4")]),
            [("key1", Some "123456"); ("k2", Some "k2")];
          vm_compute; reflexivity).
  assert (0 ≤ maxBytes plain_demo_state) as Hm by (vm_compute; discriminate).
  split; [exact H | split; [exact Hm|]].
  apply (plain_Add_returns plain_demo_state "k5" "12345678" H Hm).
Defined.

Lemma plain_Add_negative_budget_witness :
  -1 < 0 ∧ 0 ≤ lru.Len ("v" : String) ∧ len "k" + lru.Len ("v" : String) < 2 ^ 63
  ∧ Add "k" (Some "v" : option String) (New (-1) false) = Diverge.
Proof.
  assert (-1 < 0) as H1 by lia.
  assert (0 ≤ lru.Len ("v" : String)) as H2 by (vm_compute; discriminate).
  assert (len "k" + lru.Len ("v" : String) < 2 ^ 63) as H3 by (vm_compute; reflexivity).
  split_and!; [exact H1 | exact H2 | exact H3 |].
  apply (plain_Add_negative_budget (-1) false "k" ("v" : String) H1 H2 H3).
Defined.

Lemma plain_Add_then_Get_witness :
  reachable plain_demo_state
  ∧ (maxBytes plain_demo_state = 0
     ∨ wrap64 (len "k5" + lru.Len ("12345678" : String)) ≤ maxBytes plain_demo_state)
  ∧ ∃ c',
      Add "k5" (Some "12345678" : option String) plain_demo_state
      = Ret tt c' [("k3", Some "k3"); ("k4", Some "k4")]
      ∧ Get "k5" c' = Ret (Some "12345678", true) c' [].
Proof.
  assert (reachable plain_demo_state) as H
      by (exists 10, true,
            ((λ kv, CallAdd kv.1 (Some kv.2))
               <$> [("key1", "123456"); ("k2", "k2"); ("k3", "k3"); ("k4", "k4")]),
            [("key1", Some "123456"); ("k2", Some "k2")];
          vm_compute; reflexivity).
  assert (maxBytes plain_demo_state = 0
          ∨ wrap64 (len "k5" + lru.Len ("12345678" : String))
            ≤ maxBytes plain_demo_state) as Hfit
      by (right; vm_compute; discriminate).
  split; [exact H | split; [exact Hfit|]].
  eexists. split; [vm_compute; reflexivity|].
  apply (plain_Add_then_Get plain_demo_state "k5" "12345678" _
           [("k3", Some "k3"); ("k4", Some "k4")] H Hfit).
  vm_compute; reflexivity.
Defined.

Lemma plain_Add_evicts_oldest_witness :
  reachable plain_demo_state
  ∧ ∃ c',
      Add "k5" (Some "12345678" : option String) plain_demo_state
      = Ret tt c' [("k3", Some "k3"); ("k4", Some "k4")]
      ∧ ∃ dropped,
          keys c' ++ dropped
          = "k5" :: filter (λ k0, k0 ≠ "k5") (keys plain_demo_state)
          ∧ ([("k3", Some "k3"); ("k4", Some "k4")] : list (lru.Evicted String)).*1
            = (if OnEvicted plain_demo_state then reverse dropped else []).
Proof.
  assert (reachable plain_demo_state) as H
      by (exists 10, true,
            ((λ kv, CallAdd kv.1 (Some kv.2))
               <$> [("key1", "123456"); ("k2", "k2"); ("k3", "k3"); ("k4", "k4")]),
            [("key1", Some "123456"); ("k2", Some "k2")];
          vm_compute; reflexivity).
  split; [exact H|].
  eexists. split; [vm_compute; reflexivity|].
  apply (plain_Add_evicts_oldest plain_demo_state "k5" "12345678" _
           [("k3", Some "k3"); ("k4", Some "k4")] H).
  vm_compute; reflexivity.
Defined.
End lru_plain_witnesses.

Section geecache_witnesses.
Import geecache.

Lemma shard_calls_return_witness :
  shard_reachable demo_shard ∧ 0 ≤ cacheBytes demo_shard
  ∧ (∀ key value, ∃ sh', add key value demo_shard = Ret tt sh' [])
  ∧ (∀ key, ∃ r sh', get key demo_shard = Ret r sh' []).
Proof.
  assert (shard_reachable demo_shard) as H
      by (exists 0, [CallShardAdd "Tom" (mkByteView [Byte.x36; Byte.x33; Byte.x30])],
            []; vm_compute; reflexivity).
  assert (0 ≤ cacheBytes demo_shard) as Hn by (vm_compute; discriminate).
  split; [exact H | split; [exact Hn|]].
  apply (shard_calls_return demo_shard H Hn).
Defined.

Lemma shard_add_then_get_witness :
  shard_reachable demo_shard ∧ 0 ≤ cacheBytes demo_shard
  ∧ ∃ sh1 sh2 r,
      add "Jack" (mkByteView [Byte.x35; Byte.x38]) demo_shard = Ret tt sh1 []
      ∧ get "Jack" sh1 = Ret r sh2 []
      ∧ (r = (mkByteView [Byte.x35; Byte.x38], true) ∨ r = (ByteView_zero, false))
      ∧ (cacheBytes demo_shard = 0 → r = (mkByteView [Byte.x35; Byte.x38], true)).
Proof.
  assert (shard_reachable demo_shard) as H
      by (exists 0, [CallShardAdd "Tom" (mkByteView [Byte.x36; Byte.x33; Byte.x30])],
            []; vm_compute; reflexivity).
  assert (0 ≤ cacheBytes demo_shard) as Hn by (vm_compute; discriminate).
  split; [exact H | split; [exact Hn|]].
  apply (shard_add_then_get demo_shard "Jack" (mkByteView [Byte.x35; Byte.x38]) H Hn).
Defined.

Lemma ServeHTTP_returns_witness :
  HasPrefix "/_geecache/scores/Tom" defaultBasePath = true
  ∧ ∃ ev, ServeHTTP (λ _, None) (λ (_ : unit) _, (ByteView_zero, None))
            (NewHTTPPool "http://localhost:8001")
            (mkRequest "GET" "/_geecache/scores/Tom") tt
          = Ret tt tt
                (log_Printf "[Sever http://localhost:8001] GET /_geecache/scores/Tom"
                 :: ev).
Proof.
  split; [reflexivity|].
  apply (ServeHTTP_returns (λ _, None) (λ (_ : unit) _, (ByteView_zero, None))
           (NewHTTPPool "http://localhost:8001")
           (mkRequest "GET" "/_geecache/scores/Tom")).
  reflexivity.
Defined.

Lemma ServeHTTP_group_key_witness :
  contains_byte "/" "scores" = false
  ∧ ServeHTTP (λ g, if String.eqb g "scores" then Some tt else None)
      (λ _ key, (mkByteView [Byte.x36; Byte.x33; Byte.x30], None))
      (NewHTTPPool "http://localhost:8001")
      (mkRequest "GET" "/_geecache/scores/Tom/2024") tt
    = Ret tt tt
          [log_Printf "[Sever http://localhost:8001] GET /_geecache/scores/Tom/2024";
           Header_Set "Content-Type" "application/octet-stream";
           Write [Byte.x36; Byte.x33; Byte.x30]].
Proof.
  split; [reflexivity|].
  apply (ServeHTTP_group_key (λ g, if String.eqb g "scores" then Some tt else None)
           (λ _ key, (mkByteView [Byte.x36; Byte.x33; Byte.x30], None))
           (NewHTTPPool "http://localhost:8001") "GET" "scores" "Tom/2024").
  reflexivity.
Defined.

Lemma ServeHTTP_one_segment_witness :
  contains_byte "/" "scores" = false
  ∧ ServeHTTP (λ _, None) (λ (_ : unit) _, (ByteView_zero, None))
      (NewHTTPPool "http://localhost:8001")
      (mkRequest "GET" "/_geecache/scores") tt
    = Ret tt tt
          [log_Printf "[Sever http://localhost:8001] GET /_geecache/scores";
           http_Error "bad request" StatusBadRequest].
Proof.
  split; [reflexivity|].
  apply (ServeHTTP_one_segment (λ _, None) (λ (_ : unit) _, (ByteView_zero, None))
           (NewHTTPPool "http://localhost:8001") "GET" "scores").
  reflexivity.
Defined.

Lemma ServeHTTP_unreserved_segments_witness :
  unreserved "scores" = true ∧ unreserved "Tom" = true
  ∧ QueryEscape "scores" +:+ QueryEscape "Tom" = "scores" +:+ "Tom"
  ∧ ServeHTTP (λ g, if String.eqb g "scores" then Some tt else None)
      (λ _ key, (mkByteView [Byte.x36; Byte.x33; Byte.x30], None))
      (NewHTTPPool "http://localhost:8001")
      (mkRequest "GET"
         (basePath (NewHTTPPool "http://localhost:8001")
          +:+ QueryEscape "scores" +:+ QueryEscape "Tom")) tt
    = Ret tt tt
          [log_Printf ("[Sever " +:+ self (NewHTTPPool "http://localhost:8001")
                       +:+ "] " +:+ "GET" +:+ " "
                       +:+ basePath (NewHTTPPool "http://localhost:8001")
                       +:+ "scores" +:+ "Tom");
           http_Error "bad request" StatusBadRequest].
Proof.
  assert (unreserved "scores" = true) as Hg by reflexivity.
  assert (unreserved "Tom" = true) as Hk by reflexivity.
  split; [exact Hg | split; [exact Hk|]].
  apply (ServeHTTP_unreserved_segments
           (λ g, if String.eqb g "scores" then Some tt else None)
           (λ _ key, (mkByteView [Byte.x36; Byte.x33; Byte.x30], None))
           (NewHTTPPool "http://localhost:8001") "GET" "scores" "Tom" Hg Hk).
Defined.

(** A ring that gives every key to the first peer put on it. *)
Lemma PickPeer_after_Set_witness :
  let ring_New := λ _ : Z, @nil string in
  let ring_Add := λ (m : list string) ps, m ++ ps in
  let ring_Get := λ (m : option (list string)) (_ : string),
                    inl (default EmptyString (m ≫= head)) : string + string in
  let p := mkpool (NewHTTPPool "http://localhost:8001") None in
  let p' := mkpool (mkHTTPPool "http://localhost:8001" defaultBasePath
                      {["http://localhost:8002"
                        := mkhttpGetter "http://localhost:8002/_geecache/"]})
                   (Some ["http://localhost:8002"]) in
  HTTPPool_Set ring_New ring_Add ["http://localhost:8002"] p = Ret tt p' []
  ∧ ring_Get (peers p') "Tom" = inl "http://localhost:8002"
  ∧ ∃ h, PickPeer ring_Get "Tom" p'
         = Ret (Some (Some h), true) p'
               [log_Printf "[Sever http://localhost:8001] Pick peer http://localhost:8002"]
         ∧ ∃ r, httpGetter_Get (λ _, get_failed "connection refused") h
                  "scores" "Tom" tt
                = Ret r tt ["http://localhost:8002/_geecache/scoresTom"].
Proof.
  intros ring_New ring_Add ring_Get p p'.
  assert (HTTPPool_Set ring_New ring_Add ["http://localhost:8002"] p = Ret tt p' [])
    as HSet by (vm_compute; reflexivity).
  assert (ring_Get (peers p') "Tom" = inl "http://localhost:8002") as Hget
      by reflexivity.
  split; [exact HSet | split; [exact Hget|]].
  apply (PickPeer_after_Set ring_New ring_Add ring_Get
           (λ _, get_failed "connection refused")
           ["http://localhost:8002"] p p' "Tom" "http://localhost:8002"
           "scores" "Tom" HSet Hget);
    [by left | discriminate | discriminate].
Defined.

Lemma PickPeer_returns_witness :
  let ring_Get := λ (m : option (list string)) (_ : string),
                    inl (default EmptyString (m ≫= head)) : string + string in
  let p := mkpool (NewHTTPPool "http://localhost:8001")
                  (Some ["http://localhost:8001"; "http://localhost:8002"]) in
  PickPeer ring_Get "Tom" p = Ret (None, false) p []
  ∧ p = p
  ∧ ∃ peer, ring_Get (peers p) "Tom" = inl peer
    ∧ (peer = EmptyString ∨ peer = self (fields p))
    ∧ (None : option (option httpGetter)) = None
    ∧ ([] : list http_event) = [].
Proof.
  intros ring_Get p.
  assert (PickPeer ring_Get "Tom" p = Ret (None, false) p []) as H
      by (vm_compute; reflexivity).
  split; [exact H|].
  apply (PickPeer_returns ring_Get p p "Tom" None false [] H).
Defined.
End geecache_witnesses.
